(** * ORSopt: Optimized Step Size Random Search

    A shallow embedding of [orsopt] from
    [src/multivarious/optimization/ORSopt.py] and the properties of its
    search loop: candidate selection, convergence bookkeeping, stopping
    rules, normalisation of the variables and the returned history table.

    Numbers are IEEE-754 binary64, as Python's [float] and numpy's
    [float64]: Rocq's primitive floats compute the same rounded results,
    infinities and NaN.  Python exceptions are results of an error monad.
    The collaborators that live outside the file ([avg_cov_func],
    [box_constraint], [optim_options], the random source, and numpy's
    [linalg.norm] and [linalg.solve]) are parameters of the driver. *)

From Stdlib Require Import ZArith List Bool Lia PeanoNat.
From Stdlib Require Import Floats.
Import ListNotations.

Set Warnings "-inexact-float,-notation-for-abbreviation".

(* ===================================================================== *)
(** ** Python exceptions as an error monad *)
(* ===================================================================== *)

Module Py.

Inductive exn : Set :=
| ValueError          (* shape mismatch, reduction of an empty array *)
| IndexError          (* column index outside the history table *)
| UnboundLocalError   (* a local read before its first assignment *)
| LinAlgError         (* numpy.linalg.solve on a singular matrix *)
| ZeroDivisionError   (* int / int with a zero divisor *)
| OverflowError.      (* a Python int too large for a float *)

Inductive res (A : Type) : Type :=
| Ok (a : A)
| Raise (e : exn).
Arguments Ok {A} a.
Arguments Raise {A} e.

Definition bind {A B : Type} (c : res A) (k : A -> res B) : res B :=
  match c with
  | Ok a => k a
  | Raise e => Raise e
  end.

Definition rmap {A B : Type} (f : A -> B) (c : res A) : res B :=
  match c with
  | Ok a => Ok (f a)
  | Raise e => Raise e
  end.

(** the value of a computation that succeeded *)
Definition get {A : Type} (c : res A)
  : match c with Ok _ => A | Raise _ => unit end :=
  match c with
  | Ok a => a
  | Raise _ => tt
  end.

End Py.
Export Py.

Declare Scope py_scope.
Delimit Scope py_scope with py.
Notation "x <- c ;; k" := (Py.bind c (fun x => k))
  (at level 61, c at next level, right associativity) : py_scope.
Notation "' p <- c ;; k" := (Py.bind c (fun p => k))
  (at level 61, p pattern, c at next level, right associativity) : py_scope.
Local Open Scope py_scope.

(* ===================================================================== *)
(** ** The numpy fragment the driver uses *)
(* ===================================================================== *)

Module Np.

(** A one-dimensional float64 array. *)
Definition vec : Type := list float.

(** the binary64 value nearest to the integer [k]; infinite when [k] is
    beyond the binary64 range *)
Definition of_Z (k : Z) : float :=
  SF2Prim (binary_normalize prec emax k 0 false).

(** A Python int converted to a float, as when it is stored in a float64
    array: the nearest binary64 value, and OverflowError when the int is
    too large for one. *)
Definition float_of_int (k : Z) : res float :=
  if is_finite (of_Z k) then Ok (of_Z k) else Raise OverflowError.

(** [a / b] for two Python ints: ZeroDivisionError for a zero divisor, the
    correctly rounded quotient of the two integers otherwise, and
    OverflowError when that quotient is too large for a float. *)
Definition int_as_SF (k : Z) : spec_float :=
  match k with
  | Z0 => S754_zero false
  | Zpos p => S754_finite false p 0
  | Zneg p => S754_finite true p 0
  end.
Definition int_truediv (a b : Z) : res float :=
  if (b =? 0)%Z then Raise ZeroDivisionError
  else
    let q := SF2Prim (SFdiv prec emax (int_as_SF a) (int_as_SF b)) in
    if is_finite q then Ok q else Raise OverflowError.

(** scalar (op) array *)
Definition smul (a : float) (v : vec) : vec := map (fun x => (a * x)%float) v.
Definition np_abs (v : vec) : vec := map PrimFloat.abs v.

Fixpoint zip_with (f : float -> float -> float) (a b : vec) : vec :=
  match a, b with
  | x :: a', y :: b' => f x y :: zip_with f a' b'
  | _, _ => []
  end.

(** array (op) array with numpy's broadcasting rule for one dimension:
    equal lengths combine elementwise, a length-1 operand is stretched,
    anything else raises ValueError. *)
Definition bop (f : float -> float -> float) (a b : vec) : res vec :=
  if Nat.eqb (length a) (length b) then Ok (zip_with f a b)
  else match a, b with
       | [x], _ => Ok (map (f x) b)
       | _, [y] => Ok (map (fun x => f x y) a)
       | _, _ => Raise ValueError
       end.

Definition vadd := bop PrimFloat.add.
Definition vsub := bop PrimFloat.sub.
Definition vmul := bop PrimFloat.mul.
Definition vdiv := bop PrimFloat.div.

(** [np.clip(x, -1.0, 1.0)]: minimum(maximum(x, -1), 1); a NaN fails both
    comparisons and passes through unchanged. *)
Definition clip1 (x : float) : float :=
  if (x <? -1)%float then (-1)%float
  else if (1 <? x)%float then 1%float
  else x.
Definition clip (v : vec) : vec := map clip1 v.

(** Every component in [-1, 1]; false for a NaN component. *)
Definition in1 (x : float) : bool := ((-1 <=? x) && (x <=? 1))%float.
Definition in_box (v : vec) : bool := forallb in1 v.

(** [np.all(np.isfinite(v))] *)
Definition all_finite (v : vec) : bool := forallb is_finite v.

(** [np.max(v)]: ValueError on an empty array, NaN if a component is NaN.
    Of two equal entries the later is kept, which shows only for zeros of
    different sign: numpy leaves that case to the vector instruction of
    the build, and the x86-64 kernels return the second operand. *)
Definition fmax (m x : float) : float :=
  if is_nan m then m else if is_nan x then x
  else if (x <? m)%float then m else x.
Definition np_max (v : vec) : res float :=
  match v with
  | [] => Raise ValueError
  | x :: v' => Ok (fold_left fmax v' x)
  end.

(** [np.argmin]: index of the first minimum; the first NaN, if there is
    one, counts as the minimum (numpy's float argmin loop: a later entry
    replaces the running minimum when [not (entry >= minimum)], and the
    scan stops at a NaN). *)
Fixpoint argmin_from (mp : float) (mi i : nat) (l : vec) : nat :=
  match l with
  | [] => mi
  | x :: l' =>
      if negb (mp <=? x)%float
      then (if is_nan x then i else argmin_from x i (S i) l')
      else argmin_from mp mi (S i) l'
  end.
Definition argmin (l : vec) : res nat :=
  match l with
  | [] => Raise ValueError
  | x :: l' => Ok (if is_nan x then 0 else argmin_from x 0 1 l')
  end.

(** *** A two-dimensional array stored by columns *)

Definition table : Type := list vec.

(** [np.full((rows, cols), nan)] *)
Definition full_nan (rows cols : nat) : table := repeat (repeat nan rows) cols.

Fixpoint set_nth {A : Type} (j : nat) (v : A) (l : list A) : list A :=
  match l, j with
  | [], _ => []
  | _ :: l', 0 => v :: l'
  | x :: l', S j' => x :: set_nth j' v l'
  end.

(** [t[:, j] = v] for [j >= 0] on a table of [rows] rows: IndexError when
    the column is out of range, ValueError when [v] has neither [rows]
    entries nor one entry (which numpy would stretch). *)
Definition set_col (rows : nat) (j : nat) (v : vec) (t : table) : res table :=
  if Nat.ltb j (length t) then
    if Nat.eqb (length v) rows then Ok (set_nth j v t)
    else match v with
         | [x] => Ok (set_nth j (repeat x rows) t)
         | _ => Raise ValueError
         end
  else Raise IndexError.

(** [t[:, j]] for [j >= 0] *)
Definition get_col (j : nat) (t : table) : res vec :=
  match nth_error t j with
  | Some c => Ok c
  | None => Raise IndexError
  end.

(** *** Reference implementations of the two [numpy.linalg] calls.

    The driver takes [linalg.norm] and [linalg.solve] as parameters; the
    two functions below instantiate them in the worked runs.  [norm2] is
    the Euclidean norm accumulated left to right, and [solve] is Gaussian
    elimination with partial pivoting followed by back substitution, the
    scheme of LAPACK's [gesv] behind [numpy.linalg.solve].  The rounding
    of the last digits may differ from a given BLAS build; the runs below
    only depend on signs and orderings that hold with a wide margin. *)

Definition norm2 (v : vec) : float :=
  sqrt (fold_left (fun acc x => (acc + x * x)%float) v 0%float).

(** index of the first row whose entry in column [col] has the largest
    magnitude *)
Fixpoint argmax_abs_from (col : nat) (best : float) (bi i : nat)
         (rows : list vec) : nat :=
  match rows with
  | [] => bi
  | r :: rows' =>
      let m := abs (nth col r 0%float) in
      if (best <? m)%float then argmax_abs_from col m i (S i) rows'
      else argmax_abs_from col best bi (S i) rows'
  end.

Definition swap_first (k : nat) (rows : list vec) : list vec :=
  match rows with
  | [] => []
  | r0 :: rest =>
      match k with
      | 0 => rows
      | S k' => nth k' rest r0 :: set_nth k' r0 rest
      end
  end.

(** forward elimination on augmented rows; the result is upper
    triangular, one row per pivot *)
Fixpoint eliminate (fuel col : nat) (rows : list vec) : res (list vec) :=
  match fuel, rows with
  | S fuel', r0 :: _ =>
      let k := argmax_abs_from col (abs (nth col r0 0%float)) 0 0 rows in
      match swap_first k rows with
      | [] => Ok []
      | p :: rest =>
          let piv := nth col p 0%float in
          if (piv =? 0)%float then Raise LinAlgError
          else
            let reduce (r : vec) :=
              let f := (nth col r 0 / piv)%float in
              zip_with (fun pj rj => (rj - f * pj)%float) p r in
            u <- eliminate fuel' (S col) (map reduce rest) ;;
            Ok (p :: u)
      end
  | _, _ => Ok []
  end.

Fixpoint back_subst (n col : nat) (u : list vec) : vec :=
  match u with
  | [] => []
  | r :: u' =>
      let xs := back_subst n (S col) u' in
      let coeffs := skipn (S col) (firstn n r) in
      let s := fold_left (fun acc ux => (acc - fst ux * snd ux)%float)
                         (combine coeffs xs) (nth n r 0%float) in
      (s / nth col r 0)%float :: xs
  end.

Definition solve (A : list vec) (b : vec) : res vec :=
  let n := length A in
  if forallb (fun r => Nat.eqb (length r) n) A && Nat.eqb (length b) n
  then
    u <- eliminate n 0 (map (fun rb => fst rb ++ [snd rb]) (combine A b)) ;;
    Ok (back_subst n 0 u)
  else Raise LinAlgError.

End Np.
Export Np.

(* ===================================================================== *)
(** ** Data of the driver *)
(* ===================================================================== *)

(** What [avg_cov_func(func, x, s0, s1, options, consts, BX)] returns:
    objective, constraint vector, the normalised point it evaluated,
    the coefficient of variation, and the number of evaluations used.
    The objective is a [float], so the test [np.isscalar(fv)] of line 80
    holds and its ValueError is not part of the model; the number of
    evaluations is a Python [int]. *)
Record eval_out : Type := {
  fv : float;
  gv : vec;
  xv : vec;
  cv : float;
  nAvg : Z
}.

(** The entries of [optim_options(options_in)] that [orsopt] reads, after
    the conversions [int(...)], [float(...)], [bool(...)].  [msglev]
    switches the messages.  They compute nothing the function returns; of
    what they can raise, the model has the indexing of the bounds in the
    final summary (source line 229).  The progress message of an improving
    pass (lines 182-198) reads the wall clock, and raises only when the
    estimated remaining time is not a finite number, which takes a budget
    above 10^299 evaluations; it is left out. *)
Record options : Type := {
  msglev : Z;          (* options[0] *)
  tol_x : float;       (* options[1] *)
  tol_f : float;       (* options[2] *)
  tol_g : float;       (* options[3] *)
  max_evals : Z;       (* options[4] *)
  find_feas : bool     (* options[9] *)
}.

(** [fa = np.zeros(4)]: the augmented costs of the four candidates. *)
Record costs : Type := { fa0 : float; fa1 : float; fa2 : float; fa3 : float }.

Definition costs_list (c : costs) : vec := [fa0 c; fa1 c; fa2 c; fa3 c].

(** [fa[i]] for [i] in 0..3 *)
Definition cost_at (c : costs) (i : nat) : float :=
  match i with
  | 0 => fa0 c
  | 1 => fa1 c
  | 2 => fa2 c
  | _ => fa3 c
  end.

(** One call of the Evaluator, as an entry of the call log: the seed
    evaluation, or the probe for candidate [slot] (index into [fa]) made
    from the base point [base]. *)
Inductive call : Type :=
| SeedCall (x : vec)
| ProbeCall (slot : nat) (base x : vec).

Definition point_of (c : call) : vec :=
  match c with
  | SeedCall x => x
  | ProbeCall _ _ x => x
  end.

Definition is_quad (c : call) : bool :=
  match c with
  | ProbeCall 3 _ _ => true
  | _ => false
  end.

(** How the main loop ended. *)
Inductive stop : Set :=
| Feasible     (* break: feasible point found and find_feas set *)
| Converged    (* break: cvg_x < tol_x or cvg_f < tol_f *)
| Exhausted.   (* the loop test function_count < max_evals failed *)

(** The local variables of [orsopt] that live across loop iterations.
    [g1] and [c4] have no value until their first assignment.  The last
    three fields are not in the source: [draws] counts the calls of
    [np.random.randn], [calls] logs the Evaluator calls (latest first) and
    [accepted] counts the iterations that improved the incumbent.
    [c1], [c2], [c3] are assigned and never read, and are left out. *)
Record state : Type := {
  x1 : vec;  g1 : option vec;
  x2 : vec;  g2 : vec;
  x3 : vec;  g3 : vec;
  x4 : vec;  g4 : vec;  c4 : option float;
  fa : costs;
  sigma : float;
  function_count : Z;
  iteration : nat;
  cvg_hst : table;
  x_opt : vec;  f_opt : float;  g_opt : vec;
  cvg_x : float;  cvg_f : float;
  last_update : Z;
  quad_update : bool;
  i_min : nat;
  draws : nat;
  calls : list call;
  accepted : nat
}.

(** What [orsopt] returns. *)
Record output : Type := {
  x_opt_out : vec;
  f_opt_out : float;
  g_opt_out : vec;
  out_hist : table
}.

(* ===================================================================== *)
(** ** The driver *)
(* ===================================================================== *)

Section Driver.

(** [avg_cov_func] with [func], [options], [consts] and [BX = 1] fixed:
    arguments are the normalised point and the scaling vectors. *)
Variable avg_cov_func : vec -> vec -> vec -> eval_out.
(** [box_constraint(x, r)] returns the pair of step multipliers. *)
Variable box_constraint : vec -> vec -> float * float.
(** [randn k n]: the result of the [k]-th call [np.random.randn(n)]. *)
Variable randn : nat -> nat -> vec.
Variable linalg_norm : vec -> float.
Variable linalg_solve : list vec -> vec -> res vec.
Variable opts : options.

(** *** Options and inputs (source lines 46-68) *)

Definition bounds (x_init : vec) (x_lb x_ub : option vec) : vec * vec :=
  match x_lb, x_ub with
  | Some lb, Some ub => (lb, ub)
  | _, _ => (smul (-100) (np_abs x_init), smul 100 (np_abs x_init))
  end.

(** [s0 = (x_lb + x_ub) / (x_lb - x_ub)],  [s1 = 2.0 / (x_ub - x_lb)] *)
Definition scaling (x_lb x_ub : vec) : res (vec * vec) :=
  num <- vadd x_lb x_ub ;;
  den <- vsub x_lb x_ub ;;
  s0 <- vdiv num den ;;
  w <- vsub x_ub x_lb ;;
  Ok (s0, map (fun d => (2 / d)%float) w).

(** [x1 = np.clip(s0 + s1 * x_init, -1.0, 1.0)] *)
Definition normalize (x_init x_lb x_ub : vec) : res (vec * vec * vec) :=
  ' (s0, s1) <- scaling x_lb x_ub ;;
  t <- vmul s1 x_init ;;
  x <- vadd s0 t ;;
  Ok (s0, s1, clip x).

Section Loop.

Variable n : nat.          (* x_init.size *)
Variables s0 s1 : vec.

(** [(x - s0) / s1]: back to original units *)
Definition unscale (x : vec) : res vec :=
  d <- vsub x s0 ;;
  vdiv d s1.

(** one column of the history: [x; f; max(g); func_count; cvg_x; cvg_f].
    The count is a Python int; where a column is stored, [float_of_int]
    raises the OverflowError of a count beyond the binary64 range. *)
Definition record_col (xx : vec) (f mg : float) (count : Z) (cx cf : float)
  : vec := xx ++ [f; mg; of_Z count; cx; cf].

(** *** Analysis of the initial guess (source lines 70-105) *)
Definition analyze (x : vec) : res state :=
  let hst := full_nan (n + 5) (Z.to_nat (Z.max 1 (max_evals opts))) in
  let e := avg_cov_func x s0 s1 in
  let count := (0 + nAvg e)%Z in
  let f := fv e in
  let xo := xv e in
  let go := gv e in
  xx <- unscale xo ;;
  mg <- np_max go ;;
  hst' <- set_col (n + 5) (1 - 1) (record_col xx f mg count 1 1) hst ;;
  _ <- float_of_int count ;;
  Ok {| x1 := xo; g1 := None;
        x2 := xo; g2 := go;
        x3 := xo; g3 := go;
        x4 := xo; g4 := go; c4 := None;
        fa := {| fa0 := f; fa1 := 0; fa2 := 0; fa3 := f |};
        sigma := 0.2;
        function_count := count;
        iteration := 1;
        cvg_hst := hst';
        x_opt := xo; f_opt := f; g_opt := go;
        cvg_x := 1; cvg_f := 1;
        last_update := count;
        quad_update := false;
        i_min := 0;
        draws := 0;
        calls := [SeedCall x];
        accepted := 0 |}.

(** [1e-9 * np.eye(3)] *)
Definition i3 : list vec :=
  [[1e-9 * 1; 1e-9 * 0; 1e-9 * 0];
   [1e-9 * 0; 1e-9 * 1; 1e-9 * 0];
   [1e-9 * 0; 1e-9 * 0; 1e-9 * 1]]%float.

(** the matrix of the quadratic fit through abscissas 0, dx2, dx3;
    [dx**2] is the product [dx * dx] *)
Definition fit_matrix (dx2 dx3 : float) : list vec :=
  let A := [[0; 0; 1];
            [0.5 * (dx2 * dx2); dx2; 1];
            [0.5 * (dx3 * dx3); dx3; 1]]%float in
  map (fun rr => zip_with PrimFloat.add (fst rr) (snd rr)) (combine A i3).

(** [a, b, c = np.linalg.solve(A, fa[:3])] *)
Definition quad_fit (dx2 dx3 : float) (c : costs) : res (float * float * float) :=
  sol <- linalg_solve (fit_matrix dx2 dx3) [fa0 c; fa1 c; fa2 c] ;;
  match sol with
  | [a; b; c'] => Ok (a, b, c')
  | _ => Raise ValueError
  end.

(** *** The probes of one iteration (source lines 109-145) *)
Definition candidates (s : state) : res state :=
  let r := smul (sigma s) (randn (draws s) n) in
  (* +1 step *)
  let a2 := fst (box_constraint (x1 s) r) in
  p2 <- vadd (x1 s) (smul a2 r) ;;
  let e2 := avg_cov_func p2 s0 s1 in
  let count2 := (function_count s + nAvg e2)%Z in
  let f1 := fv e2 in
  (* second probe: +2 or -1 *)
  let step := if (f1 <? fa0 (fa s))%float then 2%float else (-1)%float in
  let a3 := fst (box_constraint (x1 s) (smul step r)) in
  p3 <- vadd (x1 s) (smul (a3 * step) r) ;;
  let e3 := avg_cov_func p3 s0 s1 in
  let count3 := (count2 + nAvg e3)%Z in
  let f2 := fv e3 in
  (* quadratic fit along r *)
  d2 <- vsub (xv e2) (x1 s) ;;
  let dx2 := (linalg_norm d2 / (linalg_norm r + 1e-16))%float in
  d3 <- vsub (xv e3) (x1 s) ;;
  let dx3 := (linalg_norm d3 / (linalg_norm r + 1e-16))%float in
  let fa_3 := {| fa0 := fa0 (fa s); fa1 := f1; fa2 := f2; fa3 := fa3 (fa s) |} in
  ' (a, b, _) <- quad_fit dx2 dx3 fa_3 ;;
  let log3 := ProbeCall 2 (x1 s) p3 :: ProbeCall 1 (x1 s) p2 :: calls s in
  if (0 <? a)%float then
    let d := (- b / a)%float in
    let a4 := fst (box_constraint (x1 s) (smul d r)) in
    p4 <- vadd (x1 s) (smul (a4 * d) r) ;;
    let e4 := avg_cov_func p4 s0 s1 in
    Ok {| x1 := x1 s; g1 := g1 s;
          x2 := xv e2; g2 := gv e2;
          x3 := xv e3; g3 := gv e3;
          x4 := xv e4; g4 := gv e4; c4 := Some (cv e4);
          fa := {| fa0 := fa0 (fa s); fa1 := f1; fa2 := f2; fa3 := fv e4 |};
          sigma := sigma s;
          function_count := (count3 + nAvg e4)%Z;
          iteration := iteration s;
          cvg_hst := cvg_hst s;
          x_opt := x_opt s; f_opt := f_opt s; g_opt := g_opt s;
          cvg_x := cvg_x s; cvg_f := cvg_f s;
          last_update := last_update s;
          quad_update := true;
          i_min := i_min s;
          draws := S (draws s);
          calls := ProbeCall 3 (x1 s) p4 :: log3;
          accepted := accepted s |}
  else
    Ok {| x1 := x1 s; g1 := g1 s;
          x2 := xv e2; g2 := gv e2;
          x3 := xv e3; g3 := gv e3;
          x4 := x4 s; g4 := g4 s; c4 := c4 s;
          fa := fa_3;
          sigma := sigma s;
          function_count := count3;
          iteration := iteration s;
          cvg_hst := cvg_hst s;
          x_opt := x_opt s; f_opt := f_opt s; g_opt := g_opt s;
          cvg_x := cvg_x s; cvg_f := cvg_f s;
          last_update := last_update s;
          quad_update := false;
          i_min := i_min s;
          draws := S (draws s);
          calls := log3;
          accepted := accepted s |}.

(** [(1.0 - function_count / max_evals)**nu] with [nu = 1.0]: the
    quotient is the true division of two Python ints, and [x ** 1.0] is
    [x]. *)
Definition shrink (count : Z) : res float :=
  q <- int_truediv count (max_evals opts) ;;
  Ok (1 - q)%float.

(** *** Choice of the best of the four (source lines 147-161) *)
Definition select (s : state) : res state :=
  i <- argmin (costs_list (fa s)) ;;
  xg <- match i with
        | 0 => Ok (x1 s, g1 s)
        | 1 => Ok (x2 s, Some (g2 s))
        | 2 => Ok (x3 s, Some (g3 s))
        | _ => match c4 s with
               | Some _ => Ok (x4 s, Some (g4 s))
               | None => Raise UnboundLocalError
               end
        end ;;
  sg <- (if Nat.ltb 0 i
         then (q <- shrink (function_count s) ;; Ok (sigma s * q)%float)
         else Ok (sigma s)) ;;
  Ok {| x1 := clip (fst xg); g1 := snd xg;
        x2 := x2 s; g2 := g2 s;
        x3 := x3 s; g3 := g3 s;
        x4 := x4 s; g4 := g4 s; c4 := c4 s;
        fa := fa s;
        sigma := sg;
        function_count := function_count s;
        iteration := iteration s;
        cvg_hst := cvg_hst s;
        x_opt := x_opt s; f_opt := f_opt s; g_opt := g_opt s;
        cvg_x := cvg_x s; cvg_f := cvg_f s;
        last_update := last_update s;
        quad_update := quad_update s;
        i_min := i;
        draws := draws s;
        calls := calls s;
        accepted := accepted s |}.

(** the two convergence ratios against the last recorded column
    (source lines 170-175) *)
Definition ratio_x (it : nat) (prev xx : vec) : res float :=
  if Nat.leb 1 it && all_finite prev then
    dv <- vsub prev xx ;;
    Ok (linalg_norm dv / (linalg_norm xx + 1e-16))%float
  else Ok 1%float.

Definition ratio_f (it : nat) (prev_f f : float) : float :=
  if Nat.leb 1 it && is_finite prev_f
  then (abs (prev_f - f) / (abs f + 1e-16))%float
  else 1%float.

(** *** Update of the incumbent (source lines 163-180).
    [iteration] is at least 1 wherever the loop arrives, so the column
    index [iteration - 1] is never negative. *)
Definition incumbent (s : state) : res state :=
  let fmin := cost_at (fa s) (i_min s) in
  if (fmin <? f_opt s)%float then
    let xo := x1 s in
    go <- match g1 s with
          | Some g => Ok g
          | None => Raise UnboundLocalError
          end ;;
    col <- get_col (iteration s - 1) (cvg_hst s) ;;
    let prev := firstn n col in
    let prev_f := nth n col nan in
    xx <- unscale xo ;;
    cx <- ratio_x (iteration s) prev xx ;;
    let cf := ratio_f (iteration s) prev_f fmin in
    let it := S (iteration s) in
    mg <- np_max go ;;
    hst <- set_col (n + 5) (it - 1)
             (record_col xx fmin mg (function_count s) cx cf) (cvg_hst s) ;;
    _ <- float_of_int (function_count s) ;;
    Ok {| x1 := x1 s; g1 := g1 s;
          x2 := x2 s; g2 := g2 s;
          x3 := x3 s; g3 := g3 s;
          x4 := x4 s; g4 := g4 s; c4 := c4 s;
          fa := fa s;
          sigma := sigma s;
          function_count := function_count s;
          iteration := it;
          cvg_hst := hst;
          x_opt := xo; f_opt := fmin; g_opt := go;
          cvg_x := cx; cvg_f := cf;
          last_update := function_count s;
          quad_update := quad_update s;
          i_min := i_min s;
          draws := draws s;
          calls := calls s;
          accepted := S (accepted s) |}
  else Ok s.

(** *** Termination checks at the end of the body (source lines 200-210) *)
Definition termination (s : state) : res (option stop) :=
  mg <- np_max (g_opt s) ;;
  if (mg <? tol_g opts)%float && find_feas opts then Ok (Some Feasible)
  else if Nat.ltb 1 (iteration s)
          && ((cvg_x s <? tol_x opts)%float || (cvg_f s <? tol_f opts)%float)
  then Ok (Some Converged)
  else Ok None.

(** one pass through the body of the [while] loop *)
Definition body (s : state) : res (state * option stop) :=
  sc <- candidates s ;;
  ss <- select sc ;;
  si <- incumbent ss ;;
  b <- termination si ;;
  Ok (si, b).

(** [while function_count < max_evals: ...]; [None] when [fuel] passes
    through the body were not enough to leave the loop. *)
Fixpoint loop (fuel : nat) (s : state) : option (res (stop * state)) :=
  if (function_count s <? max_evals opts)%Z then
    match fuel with
    | 0 => None
    | S fuel' =>
        match body s with
        | Raise e => Some (Raise e)
        | Ok (s', Some why) => Some (Ok (why, s'))
        | Ok (s', None) => loop fuel' s'
        end
    end
  else Some (Ok (Exhausted, s)).

(** The states the loop passes through: [reaches s s' b] when, started in
    [s], the loop completes some passes of its body and the last of them
    left the state [s'], with [b] telling whether it ended in a [break]. *)
Inductive reaches (s : state) : state -> option stop -> Prop :=
| reaches_start : reaches s s None
| reaches_pass (t t' : state) (b : option stop) :
    reaches s t None ->
    (function_count t <? max_evals opts)%Z = true ->
    body t = Ok (t', b) ->
    reaches s t' b.

(** *** The returned history (source lines 237-242): [out_hist[-1, -1]] is
    the last row of the last column, [out_hist[-1, max(0, k-2)]] the last
    row of column [max(0, k-2)]. *)
Definition set_last (x : float) (c : vec) : vec := removelast c ++ [x].

Definition finalize_hist (it : nat) (hst : table) : res table :=
  let k := Nat.max 1 it in
  let out := firstn k hst in
  lastc <- get_col (length out - 1) out ;;
  if negb (is_finite (last lastc nan)) then
    src <- get_col (Nat.max 0 (k - 2)) out ;;
    Ok (set_nth (length out - 1) (set_last (last src nan) lastc) out)
  else Ok out.

(** *** The end of the call (source lines 215-244): the two vectors in
    original units, the summary that [msglev] switches on, which prints
    row [i] of [x_init_out], [x_lb], [x_opt_out] and [x_ub] for every
    [i < n], and the returned history. *)
Definition summary_rows (cols : list vec) : res unit :=
  if forallb (fun c => Nat.leb n (length c)) cols then Ok tt
  else Raise IndexError.

Definition finalize (x_init x_lb x_ub : vec) (s : state) : res output :=
  t <- vmul s1 x_init ;;
  u <- vadd s0 t ;;
  v <- vsub u s0 ;;
  x_init_out <- vdiv v s1 ;;
  xo <- unscale (x_opt s) ;;
  _ <- (if (msglev opts =? 0)%Z then Ok tt
        else summary_rows [x_init_out; x_lb; xo; x_ub]) ;;
  h <- finalize_hist (iteration s) (cvg_hst s) ;;
  Ok {| x_opt_out := xo; f_opt_out := f_opt s; g_opt_out := g_opt s;
        out_hist := h |}.

End Loop.

(** *** The whole call *)

(** the state at the first test of the loop condition *)
Definition init (x_init : vec) (x_lb x_ub : option vec) : res (vec * vec * state) :=
  let x := x_init in
  let n := length x in
  let lu := bounds x x_lb x_ub in
  ' (s0, s1, xn) <- normalize x (fst lu) (snd lu) ;;
  s <- analyze n s0 s1 xn ;;
  Ok (s0, s1, s).

(** the state when the loop is left, and why *)
Definition run (fuel : nat) (x_init : vec) (x_lb x_ub : option vec)
  : option (res (stop * state)) :=
  match init x_init x_lb x_ub with
  | Raise e => Some (Raise e)
  | Ok (s0, s1, s) => loop (length x_init) s0 s1 fuel s
  end.

Definition orsopt (fuel : nat) (x_init : vec) (x_lb x_ub : option vec)
  : option (res output) :=
  match init x_init x_lb x_ub with
  | Raise e => Some (Raise e)
  | Ok (s0, s1, s) =>
      match loop (length x_init) s0 s1 fuel s with
      | None => None
      | Some (Raise e) => Some (Raise e)
      | Some (Ok (_, s')) =>
          let lu := bounds x_init x_lb x_ub in
          Some (finalize (length x_init) s0 s1 x_init (fst lu) (snd lu) s')
      end
  end.

End Driver.

(* ===================================================================== *)
(** ** Collaborators for the worked runs *)
(* ===================================================================== *)

Module Demo.

Local Open Scope float_scope.

(** A Step Projector: the largest multiplier in (0, 1] that keeps
    [x + a * r] within the box, and the same for [x - b * r]. *)
Definition reach (x r : vec) : float :=
  fold_left (fun m xr =>
               let xi := fst xr in
               let ri := snd xr in
               let lim := if 0 <? ri then (1 - xi) / ri
                          else if ri <? 0 then (-1 - xi) / ri
                          else m in
               if lim <? m then lim else m)
            (combine x r) 1.

Definition box_constraint (x r : vec) : float * float :=
  (reach x r, reach x (map PrimFloat.opp r)).

(** An Evaluator for objective [f] and constraints [g], both functions
    of the point in original units: it clips the point to the box,
    evaluates once, and reports one evaluation. *)
Definition evaluator (f : vec -> float) (g : vec -> vec)
           (x s0 s1 : vec) : eval_out :=
  let xc := clip x in
  let xo := zip_with PrimFloat.div (zip_with PrimFloat.sub xc s0) s1 in
  {| fv := f xo; gv := g xo; xv := xc; cv := 0; nAvg := 1 |}.

(** A random source that replays a fixed list of standard-normal
    samples, the same sample for every component. *)
Definition replay (zs : list float) (k n : nat) : vec :=
  repeat (nth k zs 1) n.

Definition settings (budget : Z) (feas : bool) : options :=
  {| msglev := 0; tol_x := 1e-4; tol_f := 1e-4; tol_g := 1e-4;
     max_evals := budget; find_feas := feas |}.

(** a double well on [-1, 1]: minima near -0.5 and +0.5, a bump at 0 *)
Definition double_well (x : vec) : float :=
  match x with
  | [t] => 16 * (t * t * t * t) - 8 * (t * t) + 0.2 * t
  | _ => nan
  end.

Definition no_violation (x : vec) : vec := [-1].

(** **** Run A: the double well from [-0.75] with bounds [-1, 1], a budget
    of 20 evaluations, draws 1 and 3 *)

Definition well_eval := evaluator double_well no_violation.
Definition well_opts := settings 20 false.
Definition well_randn := replay [1; 3].

Definition well_init :=
  init well_eval well_opts [-0.75] (Some [-1]) (Some [1]).

Definition well_body :=
  body well_eval box_constraint well_randn norm2 solve well_opts 1 [-0] [1].

(** the state after the seed evaluation, after the first pass of the loop
    body, after the probes of the second pass, and after the second pass *)
Definition well_seed : state :=
  Eval vm_compute in
    (get (analyze well_eval well_opts 1 [-0] [1] [-0.75]) <: state).
Definition well_pass1 : state :=
  Eval vm_compute in (get (rmap fst (well_body well_seed)) <: state).
Definition well_probes2 : state :=
  Eval vm_compute in
    (get (candidates well_eval box_constraint well_randn norm2 solve
                     1 [-0] [1] well_pass1) <: state).
Definition well_pass2 : state :=
  Eval vm_compute in (get (rmap fst (well_body well_pass1)) <: state).

Definition well_run :=
  run well_eval box_constraint well_randn norm2 solve well_opts
      20 [-0.75] (Some [-1]) (Some [1]).

Definition well_orsopt :=
  orsopt well_eval box_constraint well_randn norm2 solve well_opts
         20 [-0.75] (Some [-1]) (Some [1]).

(** the state in which run A leaves the loop, and what the call returns *)
Definition well_final : state :=
  Eval vm_compute in
    match well_run with
    | Some (Ok (_, s)) => s
    | _ => well_seed
    end.

Definition well_out : output :=
  Eval vm_compute in
    match well_orsopt with
    | Some (Ok o) => o
    | _ => {| x_opt_out := []; f_opt_out := nan; g_opt_out := [];
              out_hist := [] |}
    end.

(** **** Run B: a constant objective [c], from [0.25] with bounds [-1, 1] *)

Definition flat (c : float) (x : vec) : float := c.

Definition flat_eval (c : float) := evaluator (flat c) no_violation.

Definition flat_run (c : float) (budget : Z) (feas : bool) :=
  run (flat_eval c) box_constraint (replay [1; 3])
      norm2 solve (settings budget feas) 10 [0.25] (Some [-1]) (Some [1]).

Definition flat_orsopt (c : float) (budget : Z) :=
  orsopt (flat_eval c) box_constraint (replay [1; 3])
         norm2 solve (settings budget false) 10 [0.25] (Some [-1]) (Some [1]).

(** the seed state and the state after the first pass, for [c = 1] and a
    budget of 5 *)
Definition flat_seed_state : state :=
  Eval vm_compute in
    (get (analyze (flat_eval 1) (settings 5 true) 1 [-0] [1] [0.25]) <: state).
Definition flat_pass1 : state :=
  Eval vm_compute in
    (get (rmap fst (body (flat_eval 1) box_constraint (replay [1; 3]) norm2
                         solve (settings 5 true) 1 [-0] [1] flat_seed_state))
     <: state).

(** **** Run C: the double well with the stop-on-feasible flag set *)


(** **** Degenerate bounds: a zero initial guess without bounds, and equal
    lower and upper bounds *)

Definition zero_guess_init := init well_eval well_opts [0] None None.
Definition zero_guess_orsopt :=
  orsopt well_eval box_constraint well_randn norm2 solve (settings 5 false)
         10 [0] None None.
Definition equal_bounds_init := init well_eval well_opts [1] (Some [1]) (Some [1]).

(** **** A Step Projector that checks its answer: the multiplier of
    [reach] when the stepped point [x + a * r] is in the box, and no step
    at all otherwise *)

Definition within (x r : vec) (a : float) : bool :=
  match vadd x (smul a r) with
  | Ok p => in_box p
  | Raise _ => false
  end.

Definition safe_constraint (x r : vec) : float * float :=
  let a := reach x r in
  let b := reach x (map PrimFloat.opp r) in
  (if within x r a then a else 0,
   if within x (map PrimFloat.opp r) b then b else 0).

(** **** Run D: a parabola with its minimum outside the box, from [0] with
    bounds [-1, 1] and the draw 1.75 *)

Definition bowl (x : vec) : float :=
  match x with
  | [t] => (t - 3) * (t - 3)
  | _ => nan
  end.

Definition bowl_eval := evaluator bowl no_violation.

Definition bowl_seed : state :=
  Eval vm_compute in
    (get (analyze bowl_eval well_opts 1 [-0] [1] [0]) <: state).
Definition bowl_probes : state :=
  Eval vm_compute in
    (get (candidates bowl_eval safe_constraint (replay [1.75]) norm2 solve
                     1 [-0] [1] bowl_seed) <: state).

(** **** An Evaluator whose constraint vector is empty away from the
    initial guess of run A *)

Definition fickle (x : vec) : vec :=
  match x with
  | [t] => if t =? -0.75 then [-1] else []
  | _ => []
  end.

Definition fickle_eval := evaluator double_well fickle.

(** **** Two variables with bounds of one entry, the messages on and a
    budget of one evaluation *)

Definition sphere (x : vec) : float :=
  fold_left (fun acc t => acc + t * t) x 0.

Definition loud_eval (x s0 s1 : vec) : eval_out :=
  let xc := clip x in
  let xo := match unscale s0 s1 xc with Ok v => v | Raise _ => [] end in
  {| fv := sphere xo; gv := [-1]; xv := xc; cv := 0; nAvg := 1 |}.

Definition loud_opts : options :=
  {| msglev := 1; tol_x := 1e-4; tol_f := 1e-4; tol_g := 1e-4;
     max_evals := 1; find_feas := false |}.

Definition loud_seed : state :=
  Eval vm_compute in
    (get (analyze loud_eval loud_opts 2 [-0] [1] [-0.75; 0.5]) <: state).

(** **** A budget of one evaluation, and an Evaluator without constraints *)

Definition tight_opts := settings 1 false.
Definition tight_seed : state :=
  Eval vm_compute in
    (get (analyze well_eval tight_opts 1 [-0] [1] [-0.75]) <: state).

Definition bare_eval := evaluator double_well (fun _ => []).


End Demo.


(* ===================================================================== *)
(** ** Vocabulary of the properties *)
(* ===================================================================== *)

(** the objective recorded in column [j] of a history over [n] variables
    (rows: [x] (n entries), [f], [max g], [func_count], [cvg_x], [cvg_f]) *)
Definition obj_at (n : nat) (hst : table) (j : nat) : float :=
  nth n (nth j hst []) nan.

(** the cell in row [i] of column [j] *)
Definition cell (hst : table) (i j : nat) : float := nth i (nth j hst []) nan.

(** The two convergence ratios as the specification words them: the change
    divided by the magnitude of the previous record, plus 1e-16. *)
Definition spec_ratio_x (norm : vec -> float) (prev xx : vec) : res float :=
  dv <- vsub prev xx ;;
  Ok (norm dv / (norm prev + 1e-16))%float.

Definition spec_ratio_f (prev_f f : float) : float :=
  (abs (prev_f - f) / (abs prev_f + 1e-16))%float.

Definition has_nan (v : vec) : bool := existsb is_nan v.

(** the number of quadratic-refined candidates evaluated so far *)
Definition quads (s : state) : nat := length (filter is_quad (calls s)).

(** The bookkeeping of the history: the iteration counter is one more than
    the number of improving passes and points at the last written column,
    every column has [n + 5] rows, the last written objective is the
    incumbent's, and the written objectives never increase. *)
Definition hist_ok (n : nat) (s : state) : Prop :=
  1 <= iteration s <= length (cvg_hst s) /\
  iteration s = S (accepted s) /\
  Forall (fun c => length c = n + 5) (cvg_hst s) /\
  obj_at n (cvg_hst s) (iteration s - 1) = f_opt s /\
  forall j, S j < iteration s ->
            (obj_at n (cvg_hst s) (S j) <=? obj_at n (cvg_hst s) j)%float = true.

(** the evaluation-count cell of the last written column is the count at
    the time of that record *)
Definition count_ok (n : nat) (s : state) : Prop :=
  cell (cvg_hst s) (n + 2) (iteration s - 1) = of_Z (last_update s).


(** the evaluations the logged calls account for: the sum of the increments
    [nAvg] the Evaluator reported for them *)
Fixpoint spent (avg_cov_func : vec -> vec -> vec -> eval_out) (s0 s1 : vec)
         (cs : list call) : Z :=
  match cs with
  | [] => 0%Z
  | c :: cs' =>
      (nAvg (avg_cov_func (point_of c) s0 s1) + spent avg_cov_func s0 s1 cs')%Z
  end.

(** the locals read by the selection and by the incumbent update have a
    value whenever they can be read: while [c4] is unassigned the fourth
    cost is the base cost, and while [g1] is unassigned the incumbent is
    the seed *)
Definition locals_ok (s : state) : Prop :=
  (c4 s = None -> fa3 (fa s) = fa0 (fa s)) /\
  (g1 s = None -> f_opt s = fa0 (fa s)).

(** the table has the width it was allocated with, and every record but the
    seed's has cost at least two evaluations *)
Definition width_ok (opts : options) (s : state) : Prop :=
  length (cvg_hst s) = Z.to_nat (Z.max 1 (max_evals opts)) /\
  (2 * Z.of_nat (iteration s) - 1 <= function_count s)%Z.

(** the recorded objectives strictly decrease *)
Definition strict_ok (n : nat) (s : state) : Prop :=
  forall j, S j < iteration s ->
            (obj_at n (cvg_hst s) (S j) <? obj_at n (cvg_hst s) j)%float = true.

(** the last written column is the record of the incumbent *)
Definition last_record_ok (s0 s1 : vec) (s : state) : Prop :=
  exists xx mg,
    unscale s0 s1 (x_opt s) = Ok xx /\
    np_max (g_opt s) = Ok mg /\
    nth_error (cvg_hst s) (iteration s - 1)
      = Some (record_col xx (f_opt s) mg (last_update s) (cvg_x s) (cvg_f s)).

(** the incumbent objective is the seed objective or below it *)
Definition never_worse (s : state) : Prop :=
  f_opt s = fa0 (fa s) \/ (f_opt s <? fa0 (fa s))%float = true.

(** the length of [a (op) b] under numpy's broadcasting of two
    one-dimensional arrays of lengths [la] and [lb], if they combine *)
Definition bshape (la lb : nat) : option nat :=
  if Nat.eqb la lb then Some la
  else if Nat.eqb la 1 then Some lb
  else if Nat.eqb lb 1 then Some la
  else None.

(** what holds of the state whenever the loop condition is tested *)
Definition run_inv (avg_cov_func : vec -> vec -> vec -> eval_out)
           (opts : options) (n : nat) (s0 s1 : vec) (s : state) : Prop :=
  hist_ok n s /\ locals_ok s /\ never_worse s /\ strict_ok n s /\
  last_record_ok s0 s1 s /\
  length (cvg_hst s) = Z.to_nat (Z.max 1 (max_evals opts)) /\
  function_count s = spent avg_cov_func s0 s1 (calls s) /\
  length (calls s) = 1 + 2 * draws s + quads s /\ quads s <= draws s.

(* ===================================================================== *)
(** ** Facts about binary64 comparisons and division by zero *)
(* ===================================================================== *)

Section FloatFacts.

Local Open Scope float_scope.

Lemma ltb_leb (x y : float) : (x <? y) = true -> (x <=? y) = true.
Proof.
  rewrite ltb_spec, leb_spec. unfold SFltb, SFleb.
  destruct (SFcompare _ _) as [[]|]; congruence.
Qed.

Lemma SFcompare_refl_not_lt (x : spec_float) : SFcompare x x <> Some Lt.
Proof.
  destruct x as [s|s| |s m e]; cbn.
  - discriminate.
  - destruct s; discriminate.
  - discriminate.
  - destruct s; rewrite Z.compare_refl, Pos.compare_cont_refl; discriminate.
Qed.

Lemma ltb_irrefl (x : float) : (x <? x) = false.
Proof.
  rewrite ltb_spec. unfold SFltb.
  pose proof (SFcompare_refl_not_lt (Prim2SF x)) as H.
  destruct (SFcompare _ _) as [[]|]; congruence.
Qed.

Lemma SFcompare_antisym (x y : spec_float) :
  SFcompare y x = option_map CompOpp (SFcompare x y).
Proof.
  destruct x as [sx|sx| |sx mx ex], y as [sy|sy| |sy my ey]; cbn;
    try reflexivity;
    try (destruct sx; reflexivity);
    try (destruct sy; reflexivity);
    try (destruct sx, sy; reflexivity).
  assert (Hm : Pos.compare_cont Eq my mx = CompOpp (Pos.compare_cont Eq mx my))
    by (rewrite Pos.compare_cont_antisym; reflexivity).
  rewrite (Z.compare_antisym ey ex), Hm.
  destruct sx, sy; try reflexivity;
    destruct (ey ?= ex)%Z; cbn; try reflexivity;
    destruct (Pos.compare_cont Eq mx my); reflexivity.
Qed.

(** on non-NaN operands, [not (x < y)] is [y <= x] *)
Lemma not_ltb_leb (x y : float) :
  is_nan x = false -> is_nan y = false -> (x <? y) = false -> (y <=? x) = true.
Proof.
  unfold is_nan. rewrite !negb_false_iff, !eqb_spec, ltb_spec, leb_spec.
  unfold SFeqb, SFltb, SFleb. rewrite (SFcompare_antisym (Prim2SF x) (Prim2SF y)).
  intros Hx Hy.
  destruct (Prim2SF x) as [s|s| |s m e] eqn:Ex;
    destruct (Prim2SF y) as [s'|s'| |s' m' e'] eqn:Ey;
    cbn in Hx, Hy; try discriminate;
    destruct (SFcompare _ _) as [[]|] eqn:Ec; cbn; try congruence;
    cbn in Ec; try discriminate; destruct s; try destruct s'; discriminate.
Qed.

Lemma clip1_in1 (y : float) : is_nan y = false -> in1 (clip1 y) = true.
Proof.
  intros Hy. unfold clip1, in1.
  destruct (y <? -1) eqn:Hlo; [reflexivity|].
  destruct (1 <? y) eqn:Hhi; [reflexivity|].
  rewrite (not_ltb_leb y (-1) Hy eq_refl Hlo).
  rewrite (not_ltb_leb 1 y eq_refl Hy Hhi). reflexivity.
Qed.

Lemma clip1_keeps_in1 (y : float) : in1 y = true -> in1 (clip1 y) = true.
Proof.
  intros Hy. unfold clip1.
  destruct (y <? -1); [reflexivity|].
  destruct (1 <? y); [reflexivity|exact Hy].
Qed.

(** the binary64 values that are neither NaN nor infinite *)
Lemma is_finite_SF (v : float) :
  is_finite v = true ->
  (exists s, Prim2SF v = S754_zero s) \/
  (exists s m e, Prim2SF v = S754_finite s m e).
Proof.
  unfold is_finite, is_nan, is_infinity.
  rewrite !eqb_spec, abs_spec.
  change (Prim2SF infinity) with (S754_infinity false).
  destruct (Prim2SF v) as [s|s| |s m e]; cbn; intros H;
    first [ left; eexists; reflexivity
          | right; do 3 eexists; reflexivity
          | try destruct s; compute in H; discriminate H ].
Qed.

(** [v - v] is [+0.0] for every finite [v] *)
Lemma sub_self (v : float) : is_finite v = true -> v - v = 0.
Proof.
  intros Hv. rewrite <- (SF2Prim_Prim2SF (v - v)), sub_spec.
  destruct (is_finite_SF v Hv) as [[s E]|(s & m & e & E)]; rewrite E.
  - destruct s; reflexivity.
  - unfold SF64sub, SFsub. rewrite Z.sub_diag. reflexivity.
Qed.

(** dividing by [+0.0] never gives a finite value *)
Lemma div_zero_not_finite (x : float) : is_finite (x / 0) = false.
Proof.
  unfold is_finite, is_nan, is_infinity.
  rewrite !eqb_spec, abs_spec, div_spec.
  change (Prim2SF infinity) with (S754_infinity false).
  change (Prim2SF 0) with (S754_zero false).
  destruct (Prim2SF x) as [s|s| |s m e]; try destruct s; reflexivity.
Qed.

(** adding the product of zero and a finite number keeps a number of
    [-1, 1] there *)
Lemma add_zero_product (v ri : float) :
  in1 v = true -> is_finite ri = true -> in1 (v + 0 * ri) = true.
Proof.
  intros Hv Hr.
  assert (Hz : exists s, Prim2SF (0 * ri) = S754_zero s).
  { rewrite mul_spec. change (Prim2SF 0) with (S754_zero false).
    destruct (is_finite_SF ri Hr) as [[s E]|(s & m & e & E)]; rewrite E;
      cbn; eauto. }
  destruct Hz as (s & Ez).
  unfold in1 in *. rewrite !leb_spec in *. rewrite add_spec, Ez.
  set (lo := Prim2SF (-1)) in *. set (hi := Prim2SF 1) in *.
  vm_compute in lo, hi. subst lo hi. unfold SF64add.
  destruct (Prim2SF v) as [sv|sv| |sv m e]; cbn [SFadd].
  - destruct sv, s; reflexivity.
  - destruct sv; vm_compute in Hv; discriminate Hv.
  - vm_compute in Hv. discriminate Hv.
  - exact Hv.
Qed.

(** rounding does not look at the sign *)
Lemma binary_round_aux_opp s m e l :
  binary_round_aux prec emax (negb s) m e l
  = SFopp (binary_round_aux prec emax s m e l).
Proof.
  unfold binary_round_aux.
  destruct (shr_fexp prec emax m e l) as [a b].
  destruct (shr_fexp prec emax _ b loc_Exact) as [c d].
  destruct (shr_m c); [reflexivity|destruct (Z.leb _ _); reflexivity|reflexivity].
Qed.

Lemma SFmul_opp_l x y :
  SFmul prec emax (SFopp x) y = SFopp (SFmul prec emax x y).
Proof.
  destruct x as [sx|sx| |sx mx ex], y as [sy|sy| |sy my ey];
    cbn [SFmul SFopp]; try reflexivity;
    destruct sx, sy; cbn [xorb negb]; try reflexivity;
    first [ exact (binary_round_aux_opp false _ _ _)
          | exact (binary_round_aux_opp true _ _ _) ].
Qed.

(** [(-a) * b] is [-(a * b)], bit for bit *)
Lemma mul_opp_l (a b : float) : (- a) * b = - (a * b).
Proof.
  apply Prim2SF_inj. rewrite opp_spec, !mul_spec, opp_spec.
  apply SFmul_opp_l.
Qed.

(** a product with [|v|] of a positive constant is not below its
    opposite *)
Lemma opp_leb_scaled_abs (v : float) :
  (- (100 * abs v) <=? 100 * abs v) = true \/ is_nan (100 * abs v) = true.
Proof.
  unfold is_nan. rewrite leb_spec, eqb_spec, opp_spec, mul_spec, abs_spec.
  set (c := Prim2SF 100). vm_compute in c. subst c.
  unfold SF64mul.
  destruct (Prim2SF v) as [s|s| |s m e]; cbn [SFabs SFmul xorb].
  - left. reflexivity.
  - left. reflexivity.
  - right. reflexivity.
  - unfold binary_round_aux.
    destruct (shr_fexp prec emax _ _ loc_Exact) as [a b].
    destruct (shr_fexp prec emax _ b loc_Exact) as [c d].
    destruct (shr_m c) as [|q|q].
    + left. reflexivity.
    + destruct (Z.leb _ _); left; reflexivity.
    + right. reflexivity.
Qed.

End FloatFacts.

(* ===================================================================== *)
(** ** The passes of the loop body, one phase at a time *)
(* ===================================================================== *)

(** decomposition of a successful monadic computation *)
Ltac ok_inv H :=
  repeat match type of H with
         | Py.bind ?c _ = Ok _ =>
             let E := fresh "E" in
             destruct c eqn:E; cbn [Py.bind] in H; [|discriminate H]
         | (let '(_, _) := ?p in _) = Ok _ => destruct p
         | (if ?c then _ else _) = Ok _ =>
             let E := fresh "E" in destruct c eqn:E
         | match ?x with _ => _ end = Ok _ =>
             let E := fresh "E" in destruct x eqn:E; try discriminate H
         end;
  try (injection H as H).

(** projections of an explicit state *)
Ltac fields :=
  cbn [x1 g1 x2 g2 x3 g3 x4 g4 c4 fa sigma function_count iteration cvg_hst
       x_opt f_opt g_opt cvg_x cvg_f last_update quad_update i_min draws
       calls accepted fa0 fa1 fa2 fa3] in *.

Ltac candidates_inv H :=
  unfold candidates, quad_fit in H; cbv zeta in H; ok_inv H; subst.
Ltac select_inv H :=
  unfold select, shrink in H; cbv zeta in H; ok_inv H; subst.
Ltac incumbent_inv H :=
  unfold incumbent, ratio_x in H; cbv zeta in H; ok_inv H; subst.

Section DriverFacts.

Variable avg_cov_func : vec -> vec -> vec -> eval_out.
Variable box_constraint : vec -> vec -> float * float.
Variable randn : nat -> nat -> vec.
Variable linalg_norm : vec -> float.
Variable linalg_solve : list vec -> vec -> res vec.
Variable opts : options.
Variable n : nat.
Variables s0 s1 : vec.

Local Notation candidates' :=
  (candidates avg_cov_func box_constraint randn linalg_norm linalg_solve n s0 s1).
Local Notation select' := (select opts).
Local Notation incumbent' := (incumbent linalg_norm n s0 s1).
Local Notation termination' := (termination opts).
Local Notation body' :=
  (body avg_cov_func box_constraint randn linalg_norm linalg_solve opts n s0 s1).
Local Notation loop' :=
  (loop avg_cov_func box_constraint randn linalg_norm linalg_solve opts n s0 s1).
Local Notation reaches' :=
  (reaches avg_cov_func box_constraint randn linalg_norm linalg_solve opts n s0 s1).
Local Notation analyze' := (analyze avg_cov_func opts n s0 s1).

Lemma body_inv s s' b :
  body' s = Ok (s', b) ->
  exists sc ss,
    candidates' s = Ok sc /\ select' sc = Ok ss /\
    incumbent' ss = Ok s' /\ termination' s' = Ok b.
Proof.
  unfold body. intros H. ok_inv H. subst. eauto 6.
Qed.

(** *** The base slot of the cost array *)

Lemma candidates_fa0 s sc : candidates' s = Ok sc -> fa0 (fa sc) = fa0 (fa s).
Proof. intros H. candidates_inv H; reflexivity. Qed.

Lemma select_fa s ss : select' s = Ok ss -> fa ss = fa s.
Proof. intros H. select_inv H; reflexivity. Qed.

Lemma select_i_min s ss :
  select' s = Ok ss -> argmin (costs_list (fa s)) = Ok (i_min ss).
Proof. intros H. select_inv H; reflexivity. Qed.

Lemma incumbent_fa s si : incumbent' s = Ok si -> fa si = fa s.
Proof. intros H. incumbent_inv H; reflexivity. Qed.

Lemma body_fa0 s s' b : body' s = Ok (s', b) -> fa0 (fa s') = fa0 (fa s).
Proof.
  intros H. destruct (body_inv _ _ _ H) as (sc & ss & Hc & Hs & Hi & _).
  rewrite (incumbent_fa _ _ Hi), (select_fa _ _ Hs). eauto using candidates_fa0.
Qed.

Lemma reaches_fa0 s t b : reaches' s t b -> fa0 (fa t) = fa0 (fa s).
Proof.
  induction 1 as [|t t' b _ IH _ Hb]; [reflexivity|].
  rewrite (body_fa0 _ _ _ Hb). exact IH.
Qed.

Lemma candidates_frame s sc :
  candidates' s = Ok sc ->
  x1 sc = x1 s /\ g1 sc = g1 s /\
  sigma sc = sigma s /\ iteration sc = iteration s /\
  cvg_hst sc = cvg_hst s /\ x_opt sc = x_opt s /\ f_opt sc = f_opt s /\
  g_opt sc = g_opt s /\ cvg_x sc = cvg_x s /\ cvg_f sc = cvg_f s /\
  accepted sc = accepted s /\ draws sc = S (draws s).
Proof. intros H. candidates_inv H; repeat split; reflexivity. Qed.

Lemma select_frame s ss :
  select' s = Ok ss ->
  x2 ss = x2 s /\ x3 ss = x3 s /\ x4 ss = x4 s /\ c4 ss = c4 s /\
  function_count ss = function_count s /\ iteration ss = iteration s /\
  cvg_hst ss = cvg_hst s /\ x_opt ss = x_opt s /\ f_opt ss = f_opt s /\
  g_opt ss = g_opt s /\ cvg_x ss = cvg_x s /\ cvg_f ss = cvg_f s /\
  accepted ss = accepted s /\ draws ss = draws s /\ calls ss = calls s /\
  quad_update ss = quad_update s.
Proof. intros H. select_inv H; repeat split; reflexivity. Qed.

Lemma incumbent_frame s si :
  incumbent' s = Ok si ->
  x1 si = x1 s /\ x2 si = x2 s /\ x3 si = x3 s /\ x4 si = x4 s /\
  c4 si = c4 s /\ sigma si = sigma s /\
  function_count si = function_count s /\ draws si = draws s /\
  calls si = calls s /\ i_min si = i_min s /\ quad_update si = quad_update s.
Proof. intros H. incumbent_inv H; repeat split; reflexivity. Qed.

(** *** Lists and columns *)

Lemma set_nth_length {A} j (v : A) l : length (set_nth j v l) = length l.
Proof.
  revert j; induction l as [|x l IH]; intros [|j]; cbn; auto.
Qed.

Lemma nth_set_nth_eq {A} j (v d : A) l :
  j < length l -> nth j (set_nth j v l) d = v.
Proof.
  revert j; induction l as [|x l IH]; intros [|j]; cbn; intros H;
    try lia; auto. apply IH. lia.
Qed.

Lemma nth_set_nth_neq {A} i j (v d : A) l :
  i <> j -> nth i (set_nth j v l) d = nth i l d.
Proof.
  revert i j; induction l as [|x l IH]; intros [|i] [|j]; cbn; intros H;
    try congruence; auto.
Qed.

Lemma Forall_set_nth {A} (P : A -> Prop) j v l :
  Forall P l -> P v -> Forall P (set_nth j v l).
Proof.
  intros Hl Hv. revert j; induction Hl as [|x l Hx Hl IH]; intros [|j]; cbn;
    constructor; auto.
Qed.

Lemma record_col_length xx f mg c cx cf :
  length (record_col xx f mg c cx cf) = length xx + 5.
Proof. unfold record_col. rewrite length_app. reflexivity. Qed.

Lemma record_col_obj xx f mg c cx cf :
  nth (length xx) (record_col xx f mg c cx cf) nan = f.
Proof.
  unfold record_col. rewrite app_nth2 by lia. rewrite Nat.sub_diag. reflexivity.
Qed.

(** a successful write of a record column *)
Lemma set_col_record j xx f mg c cx cf t t' :
  set_col (n + 5) j (record_col xx f mg c cx cf) t = Ok t' ->
  length xx = n /\ j < length t /\
  t' = set_nth j (record_col xx f mg c cx cf) t.
Proof.
  unfold set_col. intros H.
  destruct (Nat.ltb_spec j (length t)) as [Hj|]; [|discriminate].
  destruct (Nat.eqb_spec (length (record_col xx f mg c cx cf)) (n + 5)) as [Hl|Hl].
  - injection H as <-. rewrite record_col_length in Hl. repeat split; auto. lia.
  - pose proof (record_col_length xx f mg c cx cf) as L.
    destruct (record_col xx f mg c cx cf) as [|y [|z l]]; cbn in L;
      try lia; discriminate.
Qed.

(** *** The probes, the choice and the stopping tests, spelled out *)

Lemma candidates_spec s sc :
  candidates' s = Ok sc ->
  exists p2 p3,
    let e2 := avg_cov_func p2 s0 s1 in
    let e3 := avg_cov_func p3 s0 s1 in
    x2 sc = xv e2 /\ x3 sc = xv e3 /\
    fa1 (fa sc) = fv e2 /\ fa2 (fa sc) = fv e3 /\
    ((quad_update sc = false /\
      x4 sc = x4 s /\ c4 sc = c4 s /\ fa3 (fa sc) = fa3 (fa s) /\
      function_count sc = (function_count s + nAvg e2 + nAvg e3)%Z /\
      calls sc = ProbeCall 2 (x1 s) p3 :: ProbeCall 1 (x1 s) p2 :: calls s)
     \/
     (exists p4,
        let e4 := avg_cov_func p4 s0 s1 in
        quad_update sc = true /\
        x4 sc = xv e4 /\ c4 sc = Some (cv e4) /\ fa3 (fa sc) = fv e4 /\
        function_count sc
          = (function_count s + nAvg e2 + nAvg e3 + nAvg e4)%Z /\
        calls sc = ProbeCall 3 (x1 s) p4 :: ProbeCall 2 (x1 s) p3
                     :: ProbeCall 1 (x1 s) p2 :: calls s)).
Proof.
  intros H. candidates_inv H.
  - match goal with
    | E2 : vadd _ _ = Ok ?p2, E3 : vadd _ _ = Ok ?p3, E4 : vadd _ _ = Ok ?p4,
      D2 : vsub (xv (avg_cov_func ?p2 _ _)) _ = Ok _,
      D3 : vsub (xv (avg_cov_func ?p3 _ _)) _ = Ok _ |- _ =>
        exists p2, p3; cbv zeta; fields; repeat split; try reflexivity;
        right; exists p4; repeat split; reflexivity
    end.
  - match goal with
    | D2 : vsub (xv (avg_cov_func ?p2 _ _)) _ = Ok _,
      D3 : vsub (xv (avg_cov_func ?p3 _ _)) _ = Ok _ |- _ =>
        exists p2, p3; cbv zeta; fields; repeat split; try reflexivity;
        left; repeat split; reflexivity
    end.
Qed.

(** the three points a pass hands to the Evaluator, as the driver
    computes them from the answers of the Step Projector *)
Lemma candidates_points s sc :
  candidates' s = Ok sc ->
  let r := smul (sigma s) (randn (draws s) n) in
  exists step p2 p3,
    (step = 2 \/ step = -1)%float /\
    vadd (x1 s) (smul (fst (box_constraint (x1 s) r)) r) = Ok p2 /\
    vadd (x1 s)
         (smul (fst (box_constraint (x1 s) (smul step r)) * step)%float r)
      = Ok p3 /\
    fa1 (fa sc) = fv (avg_cov_func p2 s0 s1) /\
    fa2 (fa sc) = fv (avg_cov_func p3 s0 s1) /\
    (calls sc = ProbeCall 2 (x1 s) p3 :: ProbeCall 1 (x1 s) p2 :: calls s \/
     exists d p4,
       vadd (x1 s)
            (smul (fst (box_constraint (x1 s) (smul d r)) * d)%float r)
         = Ok p4 /\
       fa3 (fa sc) = fv (avg_cov_func p4 s0 s1) /\
       calls sc = ProbeCall 3 (x1 s) p4 :: ProbeCall 2 (x1 s) p3
                    :: ProbeCall 1 (x1 s) p2 :: calls s).
Proof.
  intros H r. unfold candidates in H. cbv zeta in H. fold r in H.
  destruct (vadd (x1 s) (smul (fst (box_constraint (x1 s) r)) r))
    as [p2|] eqn:E2; cbn [Py.bind] in H; [|discriminate].
  set (step := if (fv (avg_cov_func p2 s0 s1) <? fa0 (fa s))%float
               then 2%float else (-1)%float) in H.
  destruct (vadd (x1 s)
              (smul (fst (box_constraint (x1 s) (smul step r)) * step)%float r))
    as [p3|] eqn:E3; cbn [Py.bind] in H; [|discriminate].
  exists step, p2, p3.
  split; [subst step; destruct (_ <? _)%float; auto|].
  split; [reflexivity|]. split; [exact E3|].
  destruct (vsub (xv (avg_cov_func p2 s0 s1)) (x1 s)) as [d2|];
    cbn [Py.bind] in H; [|discriminate].
  destruct (vsub (xv (avg_cov_func p3 s0 s1)) (x1 s)) as [d3|];
    cbn [Py.bind] in H; [|discriminate].
  destruct (quad_fit _ _ _ _) as [[[a b'] c]|]; cbn [Py.bind] in H;
    [|discriminate].
  destruct (0 <? a)%float.
  - set (d := (- b' / a)%float) in H.
    destruct (vadd (x1 s)
                (smul (fst (box_constraint (x1 s) (smul d r)) * d)%float r))
      as [p4|] eqn:E4; cbn [Py.bind] in H; [|discriminate].
    injection H as <-. split; [reflexivity|]. split; [reflexivity|].
    right. exists d, p4. split; [exact E4|]. split; reflexivity.
  - injection H as <-. split; [reflexivity|]. split; [reflexivity|].
    left. reflexivity.
Qed.

Lemma select_x1 s ss :
  select' s = Ok ss ->
  exists y, x1 ss = clip y /\
            (y = x1 s \/ y = x2 s \/ y = x3 s \/ y = x4 s).
Proof.
  intros H. select_inv H; fields.
  all: repeat match goal with
         | E : match ?i with _ => _ end = Ok _ |- _ =>
             destruct i; try discriminate E
         | E : Ok _ = Ok _ |- _ => injection E as <-
         end.
  all: eexists; (split; [reflexivity|]); cbn [fst]; auto.
Qed.

Lemma incumbent_not_improved s si :
  incumbent' s = Ok si -> accepted si = accepted s -> si = s.
Proof.
  intros H Hacc. unfold incumbent in H. cbv zeta in H.
  destruct (cost_at (fa s) (i_min s) <? f_opt s)%float;
    [|injection H as <-; reflexivity].
  ok_inv H; subst; fields; lia.
Qed.


(** *** The bookkeeping of the history *)

Lemma full_nan_rows rows cols :
  Forall (fun c => length c = rows) (full_nan rows cols).
Proof.
  unfold full_nan. apply Forall_forall. intros c Hc.
  apply repeat_spec in Hc. subst. apply repeat_length.
Qed.

Lemma analyze_hist_ok x s : analyze' x = Ok s -> hist_ok n s.
Proof.
  unfold analyze, unscale. intros H. cbv zeta in H. ok_inv H. subst.
  match goal with
  | E : set_col _ _ _ _ = Ok _ |- _ =>
      apply set_col_record in E; destruct E as (Hl & Hj & ->)
  end.
  unfold hist_ok, obj_at; fields.
  rewrite set_nth_length.
  split; [lia|]. split; [reflexivity|]. split; [|split].
  - apply Forall_set_nth; [apply full_nan_rows|].
    rewrite record_col_length. lia.
  - rewrite nth_set_nth_eq by exact Hj. rewrite <- Hl. apply record_col_obj.
  - intros j Hj'. lia.
Qed.

Lemma incumbent_hist_ok s si :
  incumbent' s = Ok si -> hist_ok n s -> hist_ok n si.
Proof.
  intros H (Hit & Hacc & Hrows & Hobj & Hmono).
  unfold incumbent, ratio_x, unscale in H. cbv zeta in H.
  destruct (cost_at (fa s) (i_min s) <? f_opt s)%float eqn:Hlt;
    [|injection H as <-; repeat split; auto; lia].
  ok_inv H; subst.
  all: match goal with
       | E : set_col _ _ _ _ = Ok _ |- _ =>
           apply set_col_record in E; destruct E as (Hl & Hj & ->)
       end.
  all: unfold hist_ok, obj_at in *; fields.
  all: replace (S (iteration s) - 1) with (iteration s) in * by lia.
  all: rewrite set_nth_length.
  all: split; [lia|]; split; [lia|]; split; [|split].
  all: try (apply Forall_set_nth; [exact Hrows | rewrite record_col_length; lia]).
  all: try (rewrite nth_set_nth_eq by exact Hj; rewrite <- Hl;
            apply record_col_obj).
  all: intros j Hj'; destruct (Nat.eq_dec (S j) (iteration s)) as [Heq|Hne];
    [ rewrite Heq, nth_set_nth_eq by exact Hj;
      rewrite nth_set_nth_neq by lia;
      rewrite <- Hl at 1; rewrite record_col_obj;
      replace j with (iteration s - 1) by lia; rewrite Hobj;
      apply ltb_leb; exact Hlt
    | rewrite !nth_set_nth_neq by lia; apply Hmono; lia ].
Qed.

Lemma body_hist_ok s s' b : body' s = Ok (s', b) -> hist_ok n s -> hist_ok n s'.
Proof.
  intros H Hs. destruct (body_inv _ _ _ H) as (sc & ss & Hc & Hsel & Hi & _).
  apply (incumbent_hist_ok _ _ Hi).
  destruct (candidates_frame _ _ Hc)
    as (_ & _ & _ & Hit & Hh & _ & Hf & _ & _ & _ & Ha & _).
  destruct (select_frame _ _ Hsel)
    as (_ & _ & _ & _ & _ & Hit' & Hh' & _ & Hf' & _ & _ & _ & Ha' & _).
  unfold hist_ok in *. rewrite Hit', Hh', Hf', Ha', Hit, Hh, Hf, Ha. exact Hs.
Qed.

Lemma loop_hist_ok fuel s why s' :
  loop' fuel s = Some (Ok (why, s')) -> hist_ok n s -> hist_ok n s'.
Proof.
  revert s; induction fuel as [|fuel IH]; intros s; cbn;
    destruct (function_count s <? max_evals opts)%Z; try discriminate;
    try (intros H; injection H as _ <-; auto; fail).
  destruct (body' s) as [[t [w|]]|e] eqn:Hb; try discriminate.
  - intros H; injection H as _ <-. eauto using body_hist_ok.
  - intros H Hs. eapply IH; eauto using body_hist_ok.
Qed.

Lemma nth_error_set_nth_eq {A} j (v : A) l :
  j < length l -> nth_error (set_nth j v l) j = Some v.
Proof.
  revert j; induction l as [|x l IH]; intros [|j]; cbn; intros H;
    try lia; auto. apply IH. lia.
Qed.

Lemma record_col_firstn xx f mg c cx cf :
  firstn (length xx) (record_col xx f mg c cx cf) = xx.
Proof.
  unfold record_col. rewrite firstn_app, Nat.sub_diag, firstn_all. cbn.
  apply app_nil_r.
Qed.

Lemma record_col_ratios xx f mg c cx cf :
  nth (length xx + 3) (record_col xx f mg c cx cf) nan = cx /\
  nth (length xx + 4) (record_col xx f mg c cx cf) nan = cf.
Proof.
  unfold record_col. rewrite !app_nth2 by lia.
  replace (length xx + 3 - length xx) with 3 by lia.
  replace (length xx + 4 - length xx) with 4 by lia. split; reflexivity.
Qed.

(** an improving pass, spelled out *)
Lemma incumbent_improved s si :
  incumbent' s = Ok si ->
  accepted si = S (accepted s) ->
  exists col xx mg go cx,
    (cost_at (fa s) (i_min s) <? f_opt s)%float = true /\
    g1 s = Some go /\
    nth_error (cvg_hst s) (iteration s - 1) = Some col /\
    unscale s0 s1 (x1 s) = Ok xx /\ length xx = n /\
    ratio_x linalg_norm (iteration s) (firstn n col) xx = Ok cx /\
    np_max go = Ok mg /\
    iteration s < length (cvg_hst s) /\
    iteration si = S (iteration s) /\
    cvg_hst si =
      set_nth (iteration s)
        (record_col xx (cost_at (fa s) (i_min s)) mg (function_count s) cx
           (ratio_f (iteration s) (nth n col nan) (cost_at (fa s) (i_min s))))
        (cvg_hst s) /\
    x_opt si = x1 s /\ f_opt si = cost_at (fa s) (i_min s) /\
    g_opt si = go /\ cvg_x si = cx /\
    cvg_f si = ratio_f (iteration s) (nth n col nan) (cost_at (fa s) (i_min s)).
Proof.
  intros H Hacc. unfold incumbent in H. cbv zeta in H.
  destruct (cost_at (fa s) (i_min s) <? f_opt s)%float eqn:Hlt;
    [|injection H as <-; lia].
  destruct (g1 s) as [go|] eqn:Hg; cbn [Py.bind] in H; [|discriminate].
  unfold get_col in H.
  destruct (nth_error (cvg_hst s) (iteration s - 1)) as [col|] eqn:Hcol;
    cbn [Py.bind] in H; [|discriminate].
  destruct (unscale s0 s1 (x1 s)) as [xx|] eqn:Hxx;
    cbn [Py.bind] in H; [|discriminate].
  destruct (ratio_x linalg_norm (iteration s) (firstn n col) xx) as [cx|] eqn:Hcx;
    cbn [Py.bind] in H; [|discriminate].
  destruct (np_max go) as [mg|] eqn:Hmg; cbn [Py.bind] in H; [|discriminate].
  destruct (set_col _ _ _ _) as [hst|] eqn:Hset; cbn [Py.bind] in H;
    [|discriminate].
  destruct (float_of_int _) as [fc|]; cbn [Py.bind] in H; [|discriminate].
  injection H as <-.
  apply set_col_record in Hset. destruct Hset as (Hl & Hj & ->).
  replace (S (iteration s) - 1) with (iteration s) in * by lia.
  exists col, xx, mg, go, cx. fields. repeat split; auto.
Qed.

Lemma record_col_count xx f mg c cx cf :
  nth (length xx + 2) (record_col xx f mg c cx cf) nan = of_Z c.
Proof.
  unfold record_col. rewrite app_nth2 by lia.
  replace (length xx + 2 - length xx) with 2 by lia. reflexivity.
Qed.

Lemma analyze_count_ok x s : analyze' x = Ok s -> count_ok n s.
Proof.
  unfold analyze, unscale. intros H. cbv zeta in H. ok_inv H. subst.
  match goal with
  | E : set_col _ _ _ _ = Ok _ |- _ =>
      apply set_col_record in E; destruct E as (Hl & Hj & ->)
  end.
  unfold count_ok, cell; fields.
  rewrite nth_set_nth_eq by exact Hj. rewrite <- Hl. apply record_col_count.
Qed.

Lemma incumbent_count_ok s si :
  incumbent' s = Ok si -> count_ok n s -> count_ok n si.
Proof.
  intros H Hs.
  unfold incumbent, ratio_x, unscale in H. cbv zeta in H.
  destruct (cost_at (fa s) (i_min s) <? f_opt s)%float eqn:Hlt;
    [|injection H as <-; exact Hs].
  ok_inv H; subst.
  all: match goal with
       | E : set_col _ _ _ _ = Ok _ |- _ =>
           apply set_col_record in E; destruct E as (Hl & Hj & ->)
       end.
  all: unfold count_ok, cell in *; fields.
  all: rewrite nth_set_nth_eq by exact Hj.
  all: rewrite <- Hl; apply record_col_count.
Qed.

Lemma body_count_ok s s' b : body' s = Ok (s', b) -> count_ok n s -> count_ok n s'.
Proof.
  intros H Hs. destruct (body_inv _ _ _ H) as (sc & ss & Hc & Hsel & Hi & _).
  apply (incumbent_count_ok _ _ Hi).
  unfold count_ok in *.
  candidates_inv Hc; select_inv Hsel; fields; exact Hs.
Qed.

Lemma loop_count_ok fuel s why s' :
  loop' fuel s = Some (Ok (why, s')) -> count_ok n s -> count_ok n s'.
Proof.
  revert s; induction fuel as [|fuel IH]; intros s; cbn;
    destruct (function_count s <? max_evals opts)%Z; try discriminate;
    try (intros H; injection H as _ <-; auto; fail).
  destruct (body' s) as [[t [w|]]|e] eqn:Hb; try discriminate.
  - intros H; injection H as _ <-. eauto using body_count_ok.
  - intros H Hs. eapply IH; eauto using body_count_ok.
Qed.

(** *** The returned table *)

Lemma last_as_nth (c : vec) : last c nan = nth (length c - 1) c nan.
Proof.
  induction c as [|x [|y c] IH]; try reflexivity.
  change (last (x :: y :: c) nan) with (last (y :: c) nan). rewrite IH.
  cbn [length]. replace (S (S (length c)) - 1) with (S (length c - 0)) by lia.
  cbn [nth]. replace (S (length c) - 1) with (length c - 0) by lia. reflexivity.
Qed.

Lemma set_last_length x (c : vec) : c <> [] -> length (set_last x c) = length c.
Proof.
  intros Hc. unfold set_last. rewrite length_app, removelast_firstn_len.
  rewrite length_firstn. destruct c; [congruence|]. cbn [length]. lia.
Qed.

Lemma set_last_nth_last x (c : vec) :
  c <> [] -> nth (length c - 1) (set_last x c) nan = x.
Proof.
  intros Hc. unfold set_last. rewrite removelast_firstn_len.
  rewrite app_nth2; rewrite length_firstn.
  - replace (length c - 1 - Nat.min (Nat.pred (length c)) (length c)) with 0 by lia.
    reflexivity.
  - lia.
Qed.

Lemma set_last_nth_other x (c : vec) i :
  c <> [] -> i <> length c - 1 -> nth i (set_last x c) nan = nth i c nan.
Proof.
  intros Hc Hi. destruct (Nat.lt_ge_cases i (length c - 1)) as [Hlt|Hge].
  - unfold set_last. rewrite removelast_firstn_len.
    rewrite app_nth1 by (rewrite length_firstn; lia).
    rewrite nth_firstn.
    destruct (Nat.ltb_spec i (Nat.pred (length c))); [reflexivity|lia].
  - assert (length c > 0) by (destruct c; [congruence|cbn; lia]).
    rewrite !nth_overflow; try reflexivity; try lia.
    rewrite set_last_length by exact Hc. lia.
Qed.

Lemma finalize_hist_spec s :
  hist_ok n s ->
  exists h,
    finalize_hist (iteration s) (cvg_hst s) = Ok h /\
    length h = iteration s /\
    (forall i j, j < iteration s ->
                 j <> iteration s - 1 \/ i <> n + 4 ->
                 cell h i j = cell (cvg_hst s) i j) /\
    cell h (n + 4) (iteration s - 1) =
      (if is_finite (cell (cvg_hst s) (n + 4) (iteration s - 1))
       then cell (cvg_hst s) (n + 4) (iteration s - 1)
       else cell (cvg_hst s) (n + 4) (Nat.max 0 (iteration s - 2))).
Proof.
  intros (Hit & _ & Hrows & _ & _).
  set (it := iteration s) in *. set (hst := cvg_hst s) in *.
  unfold finalize_hist. replace (Nat.max 1 it) with it by lia.
  assert (Hlen : length (firstn it hst) = it) by (rewrite length_firstn; lia).
  rewrite Hlen.
  assert (Hcol : forall j, j < it ->
            get_col j (firstn it hst) = Ok (nth j hst [])).
  { intros j Hj. unfold get_col. rewrite nth_error_firstn.
    destruct (Nat.ltb_spec j it); [|lia].
    rewrite (nth_error_nth' hst [] (n := j)) by lia. reflexivity. }
  assert (Hr : forall j, j < it -> length (nth j hst []) = n + 5).
  { intros j Hj. rewrite Forall_forall in Hrows. apply Hrows, nth_In. lia. }
  rewrite (Hcol (it - 1)) by lia. cbn [Py.bind].
  assert (Hlast : forall j, j < it ->
            last (nth j hst []) nan = cell hst (n + 4) j).
  { intros j Hj. rewrite last_as_nth, (Hr j Hj).
    unfold cell. f_equal. lia. }
  rewrite (Hlast (it - 1)) by lia.
  assert (Hne : nth (it - 1) hst [] <> []).
  { intros E. pose proof (Hr (it - 1) ltac:(lia)) as L. rewrite E in L.
    cbn in L. lia. }
  destruct (is_finite (cell hst (n + 4) (it - 1))) eqn:Hfin; cbn [negb].
  - exists (firstn it hst). repeat split; auto.
    + intros i j Hj _. unfold cell. rewrite nth_firstn.
      destruct (Nat.ltb_spec j it); [reflexivity|lia].
    + unfold cell. rewrite nth_firstn.
      destruct (Nat.ltb_spec (it - 1) it); [reflexivity|lia].
  - rewrite (Hcol (Nat.max 0 (it - 2))) by lia. cbn [Py.bind].
    rewrite (Hlast (Nat.max 0 (it - 2))) by lia.
    eexists. split; [reflexivity|]. rewrite set_nth_length, Hlen.
    split; [reflexivity|]. split.
    + intros i j Hj Hij. unfold cell.
      destruct (Nat.eq_dec j (it - 1)) as [->|Hne'].
      * rewrite nth_set_nth_eq by lia.
        rewrite set_last_nth_other; auto.
        rewrite (Hr (it - 1)) by lia. lia.
      * rewrite nth_set_nth_neq by lia. rewrite nth_firstn.
        destruct (Nat.ltb_spec j it); [reflexivity|lia].
    + unfold cell at 1. rewrite nth_set_nth_eq by lia.
      replace (n + 4) with (length (nth (it - 1) hst []) - 1)
        by (rewrite (Hr (it - 1)) by lia; lia).
      rewrite set_last_nth_last by exact Hne. reflexivity.
Qed.

End DriverFacts.

(* ===================================================================== *)
(** ** Properties of a whole call *)
(* ===================================================================== *)

Section OrsoptFacts.

Variable avg_cov_func : vec -> vec -> vec -> eval_out.
Variable box_constraint : vec -> vec -> float * float.
Variable randn : nat -> nat -> vec.
Variable linalg_norm : vec -> float.
Variable linalg_solve : list vec -> vec -> res vec.
Variable opts : options.

Local Notation init' := (init avg_cov_func opts).
Local Notation run' :=
  (run avg_cov_func box_constraint randn linalg_norm linalg_solve opts).
Local Notation orsopt' :=
  (orsopt avg_cov_func box_constraint randn linalg_norm linalg_solve opts).
Local Notation loop' :=
  (loop avg_cov_func box_constraint randn linalg_norm linalg_solve opts).
Local Notation body' :=
  (body avg_cov_func box_constraint randn linalg_norm linalg_solve opts).
Local Notation reaches' :=
  (reaches avg_cov_func box_constraint randn linalg_norm linalg_solve opts).
Local Notation candidates' :=
  (candidates avg_cov_func box_constraint randn linalg_norm linalg_solve).

Lemma init_inv x_init x_lb x_ub s0 s1 s :
  init' x_init x_lb x_ub = Ok (s0, s1, s) ->
  exists xn,
    normalize x_init (fst (bounds x_init x_lb x_ub))
              (snd (bounds x_init x_lb x_ub)) = Ok (s0, s1, xn) /\
    analyze avg_cov_func opts (length x_init) s0 s1 xn = Ok s.
Proof.
  unfold init. intros H. cbv zeta in H.
  destruct (normalize _ _ _) as [[[a b] xn]|] eqn:En; cbn in H; [|discriminate].
  destruct (analyze _ _ _ _ _ _) eqn:Ea; cbn in H; [|discriminate].
  injection H as -> -> ->. eauto.
Qed.

Lemma analyze_seed n s0 s1 xn s :
  analyze avg_cov_func opts n s0 s1 xn = Ok s ->
  calls s = [SeedCall xn] /\
  fa0 (fa s) = fv (avg_cov_func xn s0 s1) /\
  fa3 (fa s) = fv (avg_cov_func xn s0 s1) /\
  f_opt s = fv (avg_cov_func xn s0 s1) /\
  x1 s = xv (avg_cov_func xn s0 s1) /\
  x2 s = x1 s /\ x3 s = x1 s /\ x4 s = x1 s /\
  g_opt s = gv (avg_cov_func xn s0 s1) /\
  function_count s = (0 + nAvg (avg_cov_func xn s0 s1))%Z /\
  iteration s = 1 /\ accepted s = 0 /\ draws s = 0.
Proof.
  unfold analyze. intros H. cbv zeta in H. ok_inv H. subst.
  repeat split; reflexivity.
Qed.

(** C10. If exactly one of the two bounds is passed, both are replaced by
    the defaults -100*|x_init| and +100*|x_init|, componentwise: the lower
    default of a component [v] is the float product of [-100.0] and [|v|],
    the upper one the product of [100.0] and [|v|].  The two are opposite
    and, unless the product is NaN, the lower is not above the upper,
    whatever the sign of [v].  The bound that was given plays no part in
    the call. *)
Theorem one_sided_bounds_are_discarded (x_init b : vec) :
  let lo := map (fun v => (-100 * abs v)%float) x_init in
  let hi := map (fun v => (100 * abs v)%float) x_init in
  bounds x_init (Some b) None = (lo, hi) /\
  bounds x_init None (Some b) = (lo, hi) /\
  Forall2 (fun l h => l = (- h)%float /\
                      ((l <=? h)%float = true \/ is_nan h = true)) lo hi /\
  forall fuel,
    orsopt' fuel x_init (Some b) None = orsopt' fuel x_init None None /\
    orsopt' fuel x_init None (Some b) = orsopt' fuel x_init None None.
Proof.
  intros lo hi.
  assert (Hlo : smul (-100) (np_abs x_init) = lo)
    by (unfold smul, np_abs; apply map_map).
  assert (Hhi : smul 100 (np_abs x_init) = hi)
    by (unfold smul, np_abs; apply map_map).
  split; [cbn [bounds]; rewrite Hlo, Hhi; reflexivity|].
  split; [cbn [bounds]; rewrite Hlo, Hhi; reflexivity|].
  split; [|repeat split; reflexivity].
  subst lo hi. clear Hlo Hhi.
  induction x_init as [|v x IH]; cbn [map]; constructor; [|exact IH].
  assert (E : (-100 * abs v = - (100 * abs v))%float)
    by exact (mul_opp_l 100 (abs v)).
  split; [exact E|]. rewrite E. apply opp_leb_scaled_abs.
Qed.

(** C9. The base slot [fa[0]] holds the objective of the seed evaluation
    when the loop starts, and every pass of the loop body leaves it
    unchanged: in every pass the minimum is searched in the list whose head
    is the seed objective, followed by the costs of this pass's probes and
    the fourth slot. *)
Theorem base_cost_is_seed_objective x_init x_lb x_ub s0 s1 s_seed :
  init' x_init x_lb x_ub = Ok (s0, s1, s_seed) ->
  exists xn,
    calls s_seed = [SeedCall xn] /\
    fa0 (fa s_seed) = fv (avg_cov_func xn s0 s1) /\
    forall t b,
      reaches' (length x_init) s0 s1 s_seed t b ->
      fa0 (fa t) = fv (avg_cov_func xn s0 s1) /\
      forall tc ts,
        candidates' (length x_init) s0 s1 t = Ok tc ->
        select opts tc = Ok ts ->
        argmin [fv (avg_cov_func xn s0 s1); fa1 (fa tc); fa2 (fa tc);
                fa3 (fa tc)] = Ok (i_min ts).
Proof.
  intros Hi. destruct (init_inv _ _ _ _ _ _ Hi) as (xn & _ & Ha).
  destruct (analyze_seed _ _ _ _ _ Ha) as (Hc & Hf & _).
  exists xn. split; [exact Hc|]. split; [exact Hf|].
  intros t b Hr.
  assert (Ht : fa0 (fa t) = fv (avg_cov_func xn s0 s1)).
  { rewrite (reaches_fa0 _ _ _ _ _ _ _ _ _ _ _ _ Hr). exact Hf. }
  split; [exact Ht|].
  intros tc ts Hc' Hs.
  rewrite <- Ht, <- (candidates_fa0 _ _ _ _ _ _ _ _ _ _ Hc').
  exact (select_i_min _ _ _ Hs).
Qed.

Lemma orsopt_inv fuel x_init x_lb x_ub out :
  orsopt' fuel x_init x_lb x_ub = Some (Ok out) ->
  exists s0 s1 s why s',
    init' x_init x_lb x_ub = Ok (s0, s1, s) /\
    loop' (length x_init) s0 s1 fuel s = Some (Ok (why, s')) /\
    run' fuel x_init x_lb x_ub = Some (Ok (why, s')) /\
    finalize opts (length x_init) s0 s1 x_init
             (fst (bounds x_init x_lb x_ub)) (snd (bounds x_init x_lb x_ub))
             s' = Ok out /\
    hist_ok (length x_init) s' /\ count_ok (length x_init) s'.
Proof.
  unfold orsopt, run. intros H.
  destruct (init' x_init x_lb x_ub) as [[[s0 s1] s]|] eqn:Hi; [|discriminate].
  destruct (loop' _ _ _ _ _) as [[[why s']|]|] eqn:Hl; try discriminate.
  injection H as H.
  destruct (init_inv _ _ _ _ _ _ Hi) as (xn & _ & Ha).
  exists s0, s1, s, why, s'.
  split; [reflexivity|]. split; [exact Hl|]. split; [reflexivity|].
  split; [exact H|]. split.
  - eapply loop_hist_ok; eauto using analyze_hist_ok.
  - eapply loop_count_ok; eauto using analyze_count_ok.
Qed.

Lemma finalize_inv n s0 s1 xi lb ub s out :
  finalize opts n s0 s1 xi lb ub s = Ok out ->
  finalize_hist (iteration s) (cvg_hst s) = Ok (out_hist out).
Proof.
  unfold finalize. intros H. ok_inv H. subst. reflexivity.
Qed.

(** C5. In the returned history the recorded objective never increases from
    one column to the next. *)
Theorem recorded_objective_never_increases fuel x_init x_lb x_ub out :
  orsopt' fuel x_init x_lb x_ub = Some (Ok out) ->
  forall j, S j < length (out_hist out) ->
    (obj_at (length x_init) (out_hist out) (S j)
       <=? obj_at (length x_init) (out_hist out) j)%float = true.
Proof.
  intros H j Hj.
  destruct (orsopt_inv _ _ _ _ _ H)
    as (s0 & s1 & s & why & s' & _ & _ & _ & Hf & Hok & _).
  apply finalize_inv in Hf.
  destruct (finalize_hist_spec _ _ Hok) as (h & Hh & Hlen & Hcell & _).
  rewrite Hf in Hh. injection Hh as <-.
  destruct Hok as (_ & _ & _ & _ & Hmono).
  change (obj_at (length x_init) (out_hist out))
    with (cell (out_hist out) (length x_init)).
  rewrite !Hcell by (try lia; right; lia).
  apply Hmono. lia.
Qed.

(** C8 (as the code has it). The returned table has one column for the seed
    record and one per improving pass.  It agrees with the working table
    in every cell but possibly the last row (the relative objective change)
    of the last column: that cell is kept when it is finite and otherwise
    replaced by the same row of column [max(0, k-2)].  The evaluation-count
    cell of the last column is the count stored with that record and is not
    touched. *)
Theorem returned_table_shape fuel x_init x_lb x_ub out :
  orsopt' fuel x_init x_lb x_ub = Some (Ok out) ->
  exists why s,
    run' fuel x_init x_lb x_ub = Some (Ok (why, s)) /\
    let n := length x_init in
    let k := length (out_hist out) in
    k = S (accepted s) /\
    (forall i j, j < k -> j <> k - 1 \/ i <> n + 4 ->
                 cell (out_hist out) i j = cell (cvg_hst s) i j) /\
    cell (out_hist out) (n + 4) (k - 1) =
      (if is_finite (cell (cvg_hst s) (n + 4) (k - 1))
       then cell (cvg_hst s) (n + 4) (k - 1)
       else cell (cvg_hst s) (n + 4) (Nat.max 0 (k - 2))) /\
    cell (out_hist out) (n + 2) (k - 1) = of_Z (last_update s).
Proof.
  intros H.
  destruct (orsopt_inv _ _ _ _ _ H)
    as (s0 & s1 & s & why & s' & _ & _ & Hr & Hf & Hok & Hc).
  apply finalize_inv in Hf.
  destruct (finalize_hist_spec _ _ Hok) as (h & Hh & Hlen & Hcell & Hlast).
  rewrite Hf in Hh. injection Hh as <-.
  exists why, s'. split; [exact Hr|]. cbv zeta. rewrite Hlen.
  destruct Hok as (Hit & Hacc & _).
  split; [exact Hacc|]. split; [exact Hcell|]. split; [exact Hlast|].
  rewrite Hcell by (try lia; right; lia). exact Hc.
Qed.

End OrsoptFacts.

(* ===================================================================== *)
(** ** Properties of one pass of the loop body *)
(* ===================================================================== *)

Section PassFacts.

Variable avg_cov_func : vec -> vec -> vec -> eval_out.
Variable box_constraint : vec -> vec -> float * float.
Variable randn : nat -> nat -> vec.
Variable linalg_norm : vec -> float.
Variable linalg_solve : list vec -> vec -> res vec.
Variable opts : options.
Variable n : nat.
Variables s0 s1 : vec.

Local Notation body' :=
  (body avg_cov_func box_constraint randn linalg_norm linalg_solve opts n s0 s1).

(** C2 (as the code has it). When a pass improves the incumbent and appends
    a record, the relative-variable ratio of the new record is the norm of
    the change of the unscaled vector divided by the magnitude of the NEW
    vector plus 1e-16, and the relative-objective ratio is the absolute
    objective change divided by the magnitude of the NEW objective plus
    1e-16; each ratio is 1.0 instead when the previous record's vector,
    respectively objective, is not finite. *)
Theorem ratios_relative_to_new_record s s' b :
  1 <= iteration s ->
  body' s = Ok (s', b) ->
  accepted s' = S (accepted s) ->
  exists prev new,
    nth_error (cvg_hst s) (iteration s - 1) = Some prev /\
    nth_error (cvg_hst s') (iteration s' - 1) = Some new /\
    iteration s' = S (iteration s) /\
    let xp := firstn n prev in
    let fp := nth n prev nan in
    let xx := firstn n new in
    let f := nth n new nan in
    unscale s0 s1 (x_opt s') = Ok xx /\
    f = f_opt s' /\
    (if all_finite xp
     then exists dv, vsub xp xx = Ok dv /\
            nth (n + 3) new nan = (linalg_norm dv / (linalg_norm xx + 1e-16))%float
     else nth (n + 3) new nan = 1%float) /\
    nth (n + 4) new nan =
      (if is_finite fp then (abs (fp - f) / (abs f + 1e-16))%float else 1%float).
Proof.
  intros Hit H Hacc.
  destruct (body_inv _ _ _ _ _ _ _ _ _ _ _ _ H) as (sc & ss & Hc & Hsel & Hi & _).
  destruct (candidates_frame _ _ _ _ _ _ _ _ _ _ Hc)
    as (_ & _ & _ & Hit1 & Hh1 & _ & _ & _ & _ & _ & Ha1 & _).
  destruct (select_frame _ _ _ Hsel)
    as (_ & _ & _ & _ & _ & Hit2 & Hh2 & _ & _ & _ & _ & _ & Ha2 & _).
  assert (Hacc' : accepted s' = S (accepted ss)) by congruence.
  destruct (incumbent_improved _ _ _ _ _ _ Hi Hacc')
    as (col & xx & mg & go & cx & Hlt & Hg & Hcol & Hxx & Hl & Hcx & Hmg & Hj
        & Hits & Hhst & Hxo & Hfo & Hgo & Hcvx & Hcvf).
  rewrite Hit2, Hit1 in *. rewrite Hh2, Hh1 in *.
  set (fmin := cost_at (fa ss) (i_min ss)) in *.
  exists col, (record_col xx fmin mg (function_count ss) cx
                 (ratio_f (iteration s) (nth n col nan) fmin)).
  split; [exact Hcol|]. split.
  { rewrite Hits, Hhst. replace (S (iteration s) - 1) with (iteration s) by lia.
    apply nth_error_set_nth_eq. exact Hj. }
  split; [exact Hits|]. cbv zeta.
  pose proof (record_col_firstn xx fmin mg (function_count ss) cx
                (ratio_f (iteration s) (nth n col nan) fmin)) as Hfx.
  pose proof (record_col_obj xx fmin mg (function_count ss) cx
                (ratio_f (iteration s) (nth n col nan) fmin)) as Hfo'.
  destruct (record_col_ratios xx fmin mg (function_count ss) cx
                (ratio_f (iteration s) (nth n col nan) fmin)) as (Hrx & Hrf).
  rewrite Hl in Hfx, Hfo', Hrx, Hrf. rewrite Hfx, Hfo', Hrx, Hrf.
  split; [rewrite Hxo; exact Hxx|]. split; [symmetry; exact Hfo|].
  unfold ratio_x, ratio_f in *.
  destruct (Nat.leb_spec 1 (iteration s)) as [_|]; [|lia]. cbn [andb] in *.
  split.
  - destruct (all_finite (firstn n col)).
    + destruct (vsub (firstn n col) xx) as [dv|] eqn:Hdv; cbn [Py.bind] in Hcx;
        [|discriminate].
      injection Hcx as <-. exists dv. split; reflexivity.
    + injection Hcx as <-. reflexivity.
  - reflexivity.
Qed.

End PassFacts.

(* ===================================================================== *)
(** ** Normalisation with equal bounds *)
(* ===================================================================== *)

Lemma bop_same_length f a b :
  length a = length b -> bop f a b = Ok (zip_with f a b).
Proof.
  intros H. unfold bop. rewrite H, Nat.eqb_refl. reflexivity.
Qed.

Lemma zip_with_length f a b :
  length a = length b -> length (zip_with f a b) = length a.
Proof.
  revert b; induction a as [|x a IH]; intros [|y b]; cbn; intros H;
    try discriminate; auto.
Qed.

Lemma zip_with_nth_error f a b i x y :
  nth_error a i = Some x -> nth_error b i = Some y ->
  nth_error (zip_with f a b) i = Some (f x y).
Proof.
  revert b i; induction a as [|x' a IH]; intros [|y' b] [|i]; cbn;
    try discriminate; try congruence; auto.
Qed.

(** C7 (as the code has it). When a variable has equal, finite lower and
    upper bounds, the normalisation raises nothing and substitutes nothing:
    the scale factor of that variable is 2/0 = +infinity and its offset is
    not finite, and the call goes on to the seed evaluation with these
    scaling vectors. *)
Theorem equal_bounds_give_infinite_scale
        (avg_cov_func : vec -> vec -> vec -> eval_out) (opts : options)
        (x_init lb ub : vec) (i : nat) (v : float) :
  length lb = length x_init ->
  length ub = length x_init ->
  nth_error lb i = Some v ->
  nth_error ub i = Some v ->
  is_finite v = true ->
  exists s0 s1 xn,
    normalize x_init lb ub = Ok (s0, s1, xn) /\
    nth_error s1 i = Some infinity /\
    (exists z, nth_error s0 i = Some z /\ is_finite z = false) /\
    init avg_cov_func opts x_init (Some lb) (Some ub)
      = (s <- analyze avg_cov_func opts (length x_init) s0 s1 xn ;;
         Ok (s0, s1, s)).
Proof.
  intros Hlb Hub Hl Hu Hv.
  assert (Hlu : length lb = length ub) by congruence.
  set (num := zip_with PrimFloat.add lb ub).
  set (den := zip_with PrimFloat.sub lb ub).
  set (w := zip_with PrimFloat.sub ub lb).
  set (z0 := zip_with PrimFloat.div num den).
  set (z1 := List.map (fun d => (2 / d)%float) w).
  set (t := zip_with PrimFloat.mul z1 x_init).
  assert (Lnum : length num = length lb) by (apply zip_with_length; exact Hlu).
  assert (Lden : length den = length lb) by (apply zip_with_length; exact Hlu).
  assert (Lw : length w = length ub)
    by (apply zip_with_length; symmetry; exact Hlu).
  assert (Lz0 : length z0 = length num)
    by (apply zip_with_length; congruence).
  assert (Lz1 : length z1 = length ub)
    by (unfold z1; rewrite length_map; exact Lw).
  assert (Lt : length t = length z1) by (apply zip_with_length; congruence).
  unfold init, bounds, normalize, scaling, vadd, vsub, vdiv, vmul. cbn [fst snd].
  rewrite (bop_same_length PrimFloat.add lb ub Hlu),
    (bop_same_length PrimFloat.sub lb ub Hlu),
    (bop_same_length PrimFloat.sub ub lb (eq_sym Hlu)).
  cbn [Py.bind]. fold num den w.
  rewrite (bop_same_length PrimFloat.div num den) by congruence.
  cbn [Py.bind]. fold z0 z1.
  rewrite (bop_same_length PrimFloat.mul z1 x_init) by congruence.
  cbn [Py.bind]. fold t.
  rewrite (bop_same_length PrimFloat.add z0 t) by congruence.
  cbn [Py.bind].
  do 3 eexists. split; [reflexivity|]. split; [|split; [|reflexivity]].
  - unfold z1, w. rewrite nth_error_map,
      (zip_with_nth_error PrimFloat.sub ub lb i v v Hu Hl).
    cbn [option_map]. rewrite (sub_self v Hv). reflexivity.
  - eexists. split.
    + unfold z0, num, den.
      apply zip_with_nth_error; apply zip_with_nth_error; eassumption.
    + rewrite (sub_self v Hv). apply div_zero_not_finite.
Qed.

(* ===================================================================== *)
(** ** Stopping rules and the points handed to the Evaluator *)
(* ===================================================================== *)

Section StoppingFacts.

Variable avg_cov_func : vec -> vec -> vec -> eval_out.
Variable box_constraint : vec -> vec -> float * float.
Variable randn : nat -> nat -> vec.
Variable linalg_norm : vec -> float.
Variable linalg_solve : list vec -> vec -> res vec.
Variable opts : options.

Local Notation init' := (init avg_cov_func opts).
Local Notation run' :=
  (run avg_cov_func box_constraint randn linalg_norm linalg_solve opts).
Local Notation loop' :=
  (loop avg_cov_func box_constraint randn linalg_norm linalg_solve opts).
Local Notation body' :=
  (body avg_cov_func box_constraint randn linalg_norm linalg_solve opts).
Local Notation reaches' :=
  (reaches avg_cov_func box_constraint randn linalg_norm linalg_solve opts).
Local Notation candidates' :=
  (candidates avg_cov_func box_constraint randn linalg_norm linalg_solve).
Local Notation incumbent' := (incumbent linalg_norm).

(** what one pass does to the call log, the count and the bookkeeping *)
Lemma body_spec n s0 s1 s s' b :
  body' n s0 s1 s = Ok (s', b) ->
  exists sc ss p2 p3,
    candidates' n s0 s1 s = Ok sc /\
    select opts sc = Ok ss /\
    incumbent' n s0 s1 ss = Ok s' /\
    termination opts s' = Ok b /\
    fa0 (fa s') = fa0 (fa s) /\
    fa1 (fa s') = fv (avg_cov_func p2 s0 s1) /\
    fa2 (fa s') = fv (avg_cov_func p3 s0 s1) /\
    ((fa3 (fa s') = fa3 (fa s) /\
      function_count s' = (function_count s + nAvg (avg_cov_func p2 s0 s1)
                           + nAvg (avg_cov_func p3 s0 s1))%Z /\
      calls s' = ProbeCall 2 (x1 s) p3 :: ProbeCall 1 (x1 s) p2 :: calls s)
     \/
     (exists p4,
        fa3 (fa s') = fv (avg_cov_func p4 s0 s1) /\
        function_count s' = (function_count s + nAvg (avg_cov_func p2 s0 s1)
                             + nAvg (avg_cov_func p3 s0 s1)
                             + nAvg (avg_cov_func p4 s0 s1))%Z /\
        calls s' = ProbeCall 3 (x1 s) p4 :: ProbeCall 2 (x1 s) p3
                     :: ProbeCall 1 (x1 s) p2 :: calls s)).
Proof.
  intros H.
  destruct (body_inv _ _ _ _ _ _ _ _ _ _ _ _ H) as (sc & ss & Hc & Hs & Hi & Ht).
  destruct (candidates_spec _ _ _ _ _ _ _ _ _ _ Hc)
    as (p2 & p3 & _ & _ & Hf1 & Hf2 & Hq).
  pose proof (candidates_fa0 _ _ _ _ _ _ _ _ _ _ Hc) as Hf0.
  pose proof (select_fa _ _ _ Hs) as Hfs.
  pose proof (incumbent_fa _ _ _ _ _ _ Hi) as Hfi.
  destruct (select_frame _ _ _ Hs)
    as (_ & _ & _ & _ & Hfc & _ & _ & _ & _ & _ & _ & _ & _ & _ & Hcs & _).
  destruct (incumbent_frame _ _ _ _ _ _ Hi)
    as (_ & _ & _ & _ & _ & _ & Hfc' & _ & Hci & _).
  exists sc, ss, p2, p3. cbv zeta in *.
  rewrite Hfi, Hfs, Hfc', Hfc, Hci, Hcs.
  repeat (split; [assumption|]).
  destruct Hq as [(_ & _ & _ & H3 & Hn & Hl)|(p4 & _ & _ & _ & H3 & Hn & Hl)].
  - left. auto.
  - right. exists p4. auto.
Qed.

(** *** Budget *)




(** the passes of a run, counted by the draws of the random source *)
Lemma body_draws n s0 s1 s s' b :
  body' n s0 s1 s = Ok (s', b) -> draws s' = S (draws s).
Proof.
  intros Hb.
  destruct (body_inv _ _ _ _ _ _ _ _ _ _ _ _ Hb) as (sc & ss & Hc & Hs & Hi & _).
  destruct (candidates_frame _ _ _ _ _ _ _ _ _ _ Hc)
    as (_ & _ & _ & _ & _ & _ & _ & _ & _ & _ & _ & Hd).
  destruct (select_frame _ _ _ Hs)
    as (_ & _ & _ & _ & _ & _ & _ & _ & _ & _ & _ & _ & _ & Hd' & _).
  destruct (incumbent_frame _ _ _ _ _ _ Hi)
    as (_ & _ & _ & _ & _ & _ & _ & Hd'' & _).
  congruence.
Qed.

Lemma reaches_draws n s0 s1 s t b :
  reaches' n s0 s1 s t b -> draws s <= draws t.
Proof.
  induction 1 as [|u t b _ IH _ Hb]; [lia|].
  rewrite (body_draws _ _ _ _ _ _ Hb). lia.
Qed.

(** the states a run passes through form one chain: after a given number
    of passes there is one state *)
Lemma reaches_det n s0 s1 s u bu t bt :
  reaches' n s0 s1 s u bu -> reaches' n s0 s1 s t bt ->
  draws u = draws t -> u = t /\ bu = bt.
Proof.
  intros Hu. revert t bt.
  induction Hu as [|v u bu Hv IH Hg Hb]; intros t bt Ht E.
  - destruct Ht as [|w t bt Hw Hg' Hb']; [auto|].
    pose proof (reaches_draws _ _ _ _ _ _ Hw).
    rewrite (body_draws _ _ _ _ _ _ Hb') in E. lia.
  - destruct Ht as [|w t bt Hw Hg' Hb'].
    + pose proof (reaches_draws _ _ _ _ _ _ Hv).
      rewrite (body_draws _ _ _ _ _ _ Hb) in E. lia.
    + rewrite (body_draws _ _ _ _ _ _ Hb), (body_draws _ _ _ _ _ _ Hb') in E.
      destruct (IH _ _ Hw) as (-> & _); [lia|].
      rewrite Hb in Hb'. injection Hb' as <- <-. auto.
Qed.




(** *** Stop on a feasible point *)


(** *** The points handed to the Evaluator *)

Lemma clip_in_box v : in_box v = true -> in_box (clip v) = true.
Proof.
  unfold in_box, clip. induction v as [|x v IH]; cbn; [reflexivity|].
  intros H. apply andb_prop in H. destruct H as (Hx & Hv).
  rewrite (clip1_keeps_in1 _ Hx), (IH Hv). reflexivity.
Qed.

Lemma clip1_in1_unless_nan y : is_nan (clip1 y) = false -> in1 (clip1 y) = true.
Proof.
  destruct (is_nan y) eqn:Hy; [|intros _; apply clip1_in1; exact Hy].
  unfold clip1.
  destruct (y <? -1)%float; [reflexivity|].
  destruct (1 <? y)%float; [reflexivity|]. congruence.
Qed.

Lemma clip_in_box_unless_nan v : has_nan (clip v) = false -> in_box (clip v) = true.
Proof.
  unfold has_nan, in_box, clip. induction v as [|x v IH]; cbn; [reflexivity|].
  intros H. apply orb_false_elim in H. destruct H as (Hx & Hv).
  rewrite (clip1_in1_unless_nan _ Hx), (IH Hv). reflexivity.
Qed.

Lemma normalize_clipped x_init lb ub s0 s1 xn :
  normalize x_init lb ub = Ok (s0, s1, xn) -> exists y, xn = clip y.
Proof.
  unfold normalize. intros H. ok_inv H. subst. eauto.
Qed.

(** a pass leaves a clipped current point (source line 161) *)
Lemma body_x1_clipped n s0 s1 s s' b :
  body' n s0 s1 s = Ok (s', b) -> exists y, x1 s' = clip y.
Proof.
  intros Hb.
  destruct (body_inv _ _ _ _ _ _ _ _ _ _ _ _ Hb) as (sc & ss & _ & Hs & Hi & _).
  destruct (select_x1 _ _ _ Hs) as (y & Hy & _).
  destruct (incumbent_frame _ _ _ _ _ _ Hi) as (Hx & _).
  exists y. congruence.
Qed.

(** C6 (as the code has it). The driver clips two points itself: the
    normalised seed before the first evaluation and the current point after
    each selection.  So the seed point handed to the Evaluator, and the base
    point of every pass after the first, have all their components in
    [-1, 1] unless one of them is NaN, which clipping lets through; the
    base point of the first pass is the point the Evaluator returned for
    the seed.  The probes are handed to the Evaluator as they are computed,
    without clipping: [x1 + a2 * r], [x1 + (a3 * step) * r] and, when a
    fourth candidate is evaluated, [x1 + (a4 * d) * r], with the Step
    Projector's multipliers for the directions [r], [step * r] and
    [d * r]; the costs of the pass are the Evaluator's objectives at these
    points. *)
Theorem driver_clips_seed_and_base_points x_init x_lb x_ub s0 s1 s_seed :
  init' x_init x_lb x_ub = Ok (s0, s1, s_seed) ->
  exists xn,
    calls s_seed = [SeedCall xn] /\
    (has_nan xn = false -> in_box xn = true) /\
    forall t t' b,
      reaches' (length x_init) s0 s1 s_seed t None ->
      body' (length x_init) s0 s1 t = Ok (t', b) ->
      let r := smul (sigma t) (randn (draws t) (length x_init)) in
      (draws t = 0 -> x1 t = xv (avg_cov_func xn s0 s1)) /\
      (0 < draws t -> has_nan (x1 t) = false -> in_box (x1 t) = true) /\
      (exists step p2 p3,
         (step = 2 \/ step = -1)%float /\
         vadd (x1 t) (smul (fst (box_constraint (x1 t) r)) r) = Ok p2 /\
         vadd (x1 t)
              (smul (fst (box_constraint (x1 t) (smul step r)) * step)%float r)
           = Ok p3 /\
         fa1 (fa t') = fv (avg_cov_func p2 s0 s1) /\
         fa2 (fa t') = fv (avg_cov_func p3 s0 s1) /\
         (calls t' = ProbeCall 2 (x1 t) p3 :: ProbeCall 1 (x1 t) p2 :: calls t \/
          exists d p4,
            vadd (x1 t)
                 (smul (fst (box_constraint (x1 t) (smul d r)) * d)%float r)
              = Ok p4 /\
            fa3 (fa t') = fv (avg_cov_func p4 s0 s1) /\
            calls t' = ProbeCall 3 (x1 t) p4 :: ProbeCall 2 (x1 t) p3
                         :: ProbeCall 1 (x1 t) p2 :: calls t)) /\
      (has_nan (x1 t') = false -> in_box (x1 t') = true).
Proof.
  intros Hi.
  destruct (init_inv _ _ _ _ _ _ _ _ Hi) as (xn & Hn & Ha).
  destruct (analyze_seed _ _ _ _ _ _ _ Ha)
    as (Hcalls & _ & _ & _ & Hx1 & _ & _ & _ & _ & _ & _ & _ & Hd).
  destruct (normalize_clipped _ _ _ _ _ _ Hn) as (y & Hy).
  exists xn. split; [exact Hcalls|].
  split; [rewrite Hy; apply clip_in_box_unless_nan|].
  intros t t' b Hr Hb r.
  split; [|split; [|split]].
  - intros E.
    destruct (reaches_det _ _ _ _ _ _ _ _ Hr
                (reaches_start _ _ _ _ _ _ _ _ _ _)) as (-> & _);
      [congruence|exact Hx1].
  - intros Hpos.
    destruct Hr as [|u t b' Hu Hg Hbu]; [lia|].
    destruct (body_x1_clipped _ _ _ _ _ _ Hbu) as (z & ->).
    apply clip_in_box_unless_nan.
  - destruct (body_inv _ _ _ _ _ _ _ _ _ _ _ _ Hb)
      as (sc & ss & Hc & Hs & Hinc & _).
    destruct (candidates_points _ _ _ _ _ _ _ _ _ _ Hc)
      as (step & p2 & p3 & Hstep & E2 & E3 & Hf1 & Hf2 & Hcase).
    destruct (select_frame _ _ _ Hs)
      as (_ & _ & _ & _ & _ & _ & _ & _ & _ & _ & _ & _ & _ & _ & Hcs & _).
    destruct (incumbent_frame _ _ _ _ _ _ Hinc)
      as (_ & _ & _ & _ & _ & _ & _ & _ & Hci & _).
    exists step, p2, p3.
    rewrite Hci, Hcs, (incumbent_fa _ _ _ _ _ _ Hinc), (select_fa _ _ _ Hs).
    auto 8.
  - destruct (body_x1_clipped _ _ _ _ _ _ Hb) as (z & ->).
    apply clip_in_box_unless_nan.
Qed.

End StoppingFacts.

(* ===================================================================== *)
(** ** Worked runs *)
(* ===================================================================== *)

Section WorkedRuns.

Import Demo.
Local Open Scope float_scope.

(** *** Run A: the double well *)

Lemma well_trace :
  well_init = Ok ([-0], [1], well_seed) /\
  well_body well_seed = Ok (well_pass1, None) /\
  well_body well_pass1 = Ok (well_pass2, None).
Proof. repeat split; vm_compute; reflexivity. Qed.

Lemma well_reaches :
  reaches well_eval box_constraint well_randn norm2 solve well_opts 1 [-0] [1]
          well_seed well_pass2 None.
Proof.
  destruct well_trace as (_ & H1 & H2).
  eapply reaches_pass; [eapply reaches_pass; [apply reaches_start| |exact H1]
                       | |exact H2]; reflexivity.
Qed.

Lemma well_results :
  well_run = Some (Ok (Exhausted, well_final)) /\
  well_orsopt = Some (Ok well_out).
Proof. split; vm_compute; reflexivity. Qed.

(** C1 (run A, second pass). The first pass evaluated a quadratic-refined
    candidate and moved to it.  In the second pass the fitted leading
    coefficient is not positive, no fourth candidate is evaluated and the
    fourth slot keeps the cost of the first pass; that stale cost is the
    smallest of the four, and the selection returns index 3. *)
Theorem stale_fourth_candidate_is_selected :
  well_body well_seed = Ok (well_pass1, None) /\
  quad_update well_pass1 = true /\ i_min well_pass1 = 3%nat /\
  candidates well_eval box_constraint well_randn norm2 solve 1 [-0] [1]
             well_pass1 = Ok well_probes2 /\
  quad_update well_probes2 = false /\
  fa3 (fa well_probes2) = fa3 (fa well_pass1) /\
  x4 well_probes2 = x4 well_pass1 /\
  argmin (costs_list (fa well_probes2)) = Ok 3%nat /\
  well_body well_pass1 = Ok (well_pass2, None) /\
  i_min well_pass2 = 3%nat /\
  (sigma well_pass2 <? sigma well_pass1) = true.
Proof. repeat split; vm_compute; reflexivity. Qed.

(** C2, counterexample (run A, first pass): the ratios stored with the new
    record are not the changes divided by the magnitudes of the previous
    record. *)
Lemma ratios_not_relative_to_previous_record :
  well_body well_seed = Ok (well_pass1, None) /\
  accepted well_pass1 = S (accepted well_seed) /\
  let prev := nth 0 (cvg_hst well_pass1) [] in
  let new := nth 1 (cvg_hst well_pass1) [] in
  rmap (fun v => nth 4 new nan =? v)
       (spec_ratio_x norm2 (firstn 1 prev) (firstn 1 new)) = Ok false /\
  (nth 5 new nan =? spec_ratio_f (nth 1 prev nan) (nth 1 new nan)) = false.
Proof. repeat split; vm_compute; reflexivity. Qed.

(** C2, witness: the first pass of run A. *)
Lemma ratios_relative_to_new_record_witness :
  exists new,
    nth_error (cvg_hst well_pass1) 1 = Some new /\
    nth 5 new nan =
      abs (cell (cvg_hst well_seed) 1 0 - nth 1 new nan)
      / (abs (nth 1 new nan) + 1e-16).
Proof.
  destruct (ratios_relative_to_new_record
              well_eval box_constraint well_randn norm2 solve well_opts
              1 [-0] [1] well_seed well_pass1 None)
    as (prev & new & Hp & Hn & Hit & Hrest).
  - vm_compute. lia.
  - vm_compute. reflexivity.
  - vm_compute. reflexivity.
  - cbv zeta in Hrest. destruct Hrest as (_ & _ & _ & Hf).
    vm_compute in Hp. injection Hp as <-.
    exists new. split; [exact Hn|exact Hf].
Defined.

(** C5, witness: the table returned by run A. *)
Lemma recorded_objective_never_increases_witness :
  (obj_at 1 (out_hist well_out) 1 <=? obj_at 1 (out_hist well_out) 0) = true.
Proof.
  apply (recorded_objective_never_increases
           well_eval box_constraint well_randn norm2 solve well_opts
           20 [-0.75] (Some [-1]) (Some [1]) well_out).
  - vm_compute. reflexivity.
  - vm_compute. lia.
Defined.

(** C6, witness: run A.  The seed point and the current point after the
    first pass are in the box, and the second pass starts from that
    point. *)
Lemma driver_clips_seed_and_base_points_witness :
  exists xn,
    calls well_seed = [SeedCall xn] /\ in_box xn = true /\
    in_box (x1 well_pass1) = true /\ in_box (x1 well_pass2) = true.
Proof.
  destruct (driver_clips_seed_and_base_points
              well_eval box_constraint well_randn norm2 solve well_opts
              [-0.75] (Some [-1]) (Some [1]) [-0] [1] well_seed)
    as (xn & Hc & Hxn & Hall).
  - vm_compute. reflexivity.
  - destruct well_trace as (_ & H1 & H2).
    assert (Hr1 : reaches well_eval box_constraint well_randn norm2 solve
                    well_opts 1 [-0] [1] well_seed well_pass1 None)
      by (eapply reaches_pass; [apply reaches_start|reflexivity|exact H1]).
    destruct (Hall well_pass1 well_pass2 None Hr1 H2)
      as (_ & Hbase & _ & Hclip).
    exists xn. split; [exact Hc|].
    vm_compute in Hc. injection Hc as <-.
    split; [apply Hxn; reflexivity|].
    split; [apply Hbase; [vm_compute; lia|reflexivity]|].
    apply Hclip. reflexivity.
Defined.

(** C8, witness: the table returned by run A has the seed column and one
    column for its single improving pass. *)
Lemma returned_table_shape_witness :
  length (out_hist well_out) = S (accepted well_final).
Proof.
  destruct (returned_table_shape
              well_eval box_constraint well_randn norm2 solve well_opts
              20 [-0.75] (Some [-1]) (Some [1]) well_out)
    as (why & s & Hr & Hk & _).
  - vm_compute. reflexivity.
  - vm_compute in Hr. injection Hr as <- <-. exact Hk.
Defined.

(** C9, witness: after two passes of run A the base slot still holds the
    objective of the initial guess, although the incumbent has a different
    objective. *)
Lemma base_cost_is_seed_objective_witness :
  fa0 (fa well_pass2) = fv (well_eval [-0.75] [-0] [1]) /\
  (f_opt well_pass2 =? fa0 (fa well_pass2)) = false.
Proof.
  destruct (base_cost_is_seed_objective
              well_eval box_constraint well_randn norm2 solve well_opts
              [-0.75] (Some [-1]) (Some [1]) [-0] [1] well_seed)
    as (xn & Hc & _ & Hall).
  - vm_compute. reflexivity.
  - vm_compute in Hc. injection Hc as <-.
    split; [exact (proj1 (Hall well_pass2 None well_reaches))|].
    vm_compute. reflexivity.
Defined.

(** *** Run B: a constant objective *)





(** C8, counterexample: a constant objective has no improving pass, and the
    returned table has one column; a zero initial guess without bounds
    returns a table whose only column holds NaN for the variable and the
    objective. *)
Lemma returned_table_has_the_seed_column :
  option_map (rmap (fun ws => accepted (snd ws))) (flat_run 1 5 false)
    = Some (Ok 0%nat) /\
  option_map (rmap (fun o => length (out_hist o))) (flat_orsopt 1 5)
    = Some (Ok 1%nat) /\
  option_map (rmap out_hist) zero_guess_orsopt
    = Some (Ok [[nan; nan; -1; 1; 1; 1]]).
Proof. repeat split; vm_compute; reflexivity. Qed.

(** *** Degenerate bounds *)

(** the checking projector keeps its promise: from a point of the box and
    along a finite direction, the point stepped to with its multiplier is
    in the box *)
Lemma safe_constraint_keeps_box x r p :
  in_box x = true -> all_finite r = true -> length r = length x ->
  vadd x (smul (fst (safe_constraint x r)) r) = Ok p ->
  in_box p = true.
Proof.
  intros Hx Hr Hl. unfold safe_constraint. cbn [fst].
  destruct (within x r (reach x r)) eqn:W.
  - unfold within in W. intros E. rewrite E in W. exact W.
  - clear W. unfold vadd. rewrite bop_same_length
      by (unfold smul; rewrite length_map; symmetry; exact Hl).
    intros E. injection E as <-. clear Hl.
    revert r Hr. induction x as [|v x IH]; intros [|ri r] Hr;
      try reflexivity.
    cbn in Hx, Hr |- *.
    apply andb_prop in Hx. destruct Hx as (Hv & Hx).
    apply andb_prop in Hr. destruct Hr as (Hri & Hr).
    rewrite (add_zero_product _ _ Hv Hri). exact (IH Hx r Hr).
Qed.

(** C6, counterexample.  For the initial guess [0] without bounds the
    default bounds are both zero, the normalised seed is NaN, clipping
    leaves it NaN, and that point is handed to the Evaluator.  In run D the
    projector keeps every point it is asked about in the box: for the
    direction [d * r] of the quadratic step it returns a multiplier [a4]
    with [x1 + a4 * (d * r) = 1]; the driver hands [x1 + (a4 * d) * r],
    which is above 1, to the Evaluator. *)
Lemma points_outside_the_box_are_evaluated :
  rmap (fun r => (fst r, calls (snd r))) zero_guess_init
    = Ok (([nan], [infinity]), [SeedCall [nan]]) /\
  in_box [nan] = false /\
  (forall x r p,
      in_box x = true -> all_finite r = true -> length r = length x ->
      vadd x (smul (fst (safe_constraint x r)) r) = Ok p ->
      in_box p = true) /\
  init bowl_eval well_opts [0] (Some [-1]) (Some [1])
    = Ok ([-0], [1], bowl_seed) /\
  candidates bowl_eval safe_constraint (replay [1.75]) norm2 solve
             1 [-0] [1] bowl_seed = Ok bowl_probes /\
  calls bowl_probes
    = [ProbeCall 3 [0] [1.0000000000000002];
       ProbeCall 2 [0] [0.70000000000000007];
       ProbeCall 1 [0] [0.35000000000000003]; SeedCall [0]] /\
  in_box [1.0000000000000002] = false /\
  (let dr := [3.0000001516791057] in
   let a4 := fst (safe_constraint [0] dr) in
   smul 8.5714290047974444 [0.35000000000000003] = dr /\
   a4 = 0.33333331648010023 /\
   vadd [0] (smul a4 dr) = Ok [1] /\
   vadd [0] (smul (a4 * 8.5714290047974444) [0.35000000000000003])
     = Ok [1.0000000000000002]).
Proof.
  split; [vm_compute; reflexivity|]. split; [vm_compute; reflexivity|].
  split; [exact safe_constraint_keeps_box|].
  repeat split; vm_compute; reflexivity.
Qed.

(** C7, counterexample: with lower and upper bound both 1 the scaling
    vectors are infinite, nothing is raised and the seed is evaluated. *)
Lemma equal_bounds_are_not_rejected :
  rmap (fun r => (fst r, calls (snd r))) equal_bounds_init
    = Ok (([infinity], [infinity]), [SeedCall [1]]).
Proof. vm_compute. reflexivity. Qed.

(** C7, witness: lower and upper bound both 1. *)
Lemma equal_bounds_give_infinite_scale_witness :
  exists s0 s1 xn,
    normalize [1] [1] [1] = Ok (s0, s1, xn) /\
    nth_error s1 0 = Some infinity.
Proof.
  destruct (equal_bounds_give_infinite_scale
              well_eval well_opts [1] [1] [1] 0 1
              eq_refl eq_refl eq_refl eq_refl eq_refl)
    as (s0 & s1 & xn & Hn & Hs1 & _).
  exists s0, s1, xn. split; assumption.
Defined.

End WorkedRuns.

(* ===================================================================== *)
(** ** The order of binary64 values, and the index np.argmin returns *)
(* ===================================================================== *)

Section FloatOrder.

Local Open Scope float_scope.

Lemma SFcompare_lt_trans (x y z : spec_float) :
  SFcompare x y = Some Lt -> SFcompare y z = Some Lt -> SFcompare x z = Some Lt.
Proof.
  destruct x as [sx|sx| |sx mx ex], y as [sy|sy| |sy my ey],
           z as [sz|sz| |sz mz ez]; cbn;
    try discriminate; try (destruct sx; discriminate);
    try (destruct sy; discriminate); try (destruct sz; discriminate);
    try (destruct sx, sy; discriminate); try (destruct sy, sz; discriminate);
    try (destruct sx, sz; reflexivity || discriminate);
    try (destruct sx, sy, sz; reflexivity || discriminate).
  destruct sx, sy, sz; try reflexivity; try discriminate;
    change (Pos.compare_cont Eq) with Pos.compare;
    destruct (Z.compare_spec ex ey), (Z.compare_spec ey ez),
             (Z.compare_spec ex ez); subst;
    try discriminate; try reflexivity; try lia;
    destruct (Pos.compare_spec mx my), (Pos.compare_spec my mz),
             (Pos.compare_spec mx mz); subst;
    cbn; try discriminate; try reflexivity; try lia.
Qed.

Lemma ltb_trans (x y z : float) :
  (x <? y) = true -> (y <? z) = true -> (x <? z) = true.
Proof.
  rewrite !ltb_spec. unfold SFltb.
  destruct (SFcompare (Prim2SF x) (Prim2SF y)) as [[]|] eqn:E1; try discriminate.
  destruct (SFcompare (Prim2SF y) (Prim2SF z)) as [[]|] eqn:E2; try discriminate.
  rewrite (SFcompare_lt_trans _ _ _ E1 E2). reflexivity.
Qed.

Lemma ltb_asym (x y : float) : (x <? y) = true -> (y <? x) = false.
Proof.
  rewrite !ltb_spec. unfold SFltb.
  rewrite (SFcompare_antisym (Prim2SF x) (Prim2SF y)).
  destruct (SFcompare (Prim2SF x) (Prim2SF y)) as [[]|]; cbn; congruence.
Qed.

Lemma leb_refl (x : float) : is_nan x = false -> (x <=? x) = true.
Proof.
  unfold is_nan. rewrite negb_false_iff, eqb_spec, leb_spec.
  unfold SFeqb, SFleb. destruct (SFcompare _ _) as [[]|]; congruence.
Qed.

(** on non-NaN operands, [not (x <= y)] is [y < x] *)
Lemma not_leb_ltb (x y : float) :
  is_nan x = false -> is_nan y = false -> (x <=? y) = false -> (y <? x) = true.
Proof.
  unfold is_nan. rewrite !negb_false_iff, !eqb_spec, ltb_spec, leb_spec.
  unfold SFeqb, SFltb, SFleb.
  rewrite (SFcompare_antisym (Prim2SF x) (Prim2SF y)).
  intros Hx Hy.
  destruct (Prim2SF x) as [s|s| |s m e] eqn:Ex;
    destruct (Prim2SF y) as [s'|s'| |s' m' e'] eqn:Ey;
    cbn in Hx, Hy; try discriminate;
    destruct (SFcompare _ _) as [[]|] eqn:Ec; cbn; try congruence;
    cbn in Ec; try discriminate; destruct s; try destruct s'; discriminate.
Qed.

(** When the fourth entry repeats the first, [np.argmin] returns an index
    below 3: the first of equal minima wins, and a NaN in the first entry
    is found there. *)
Lemma argmin_repeated_base (a b c : float) (i : nat) :
  argmin [a; b; c; a] = Ok i -> i < 3.
Proof.
  unfold argmin. intros H. injection H as <-.
  destruct (is_nan a) eqn:Ha; [lia|].
  cbn [argmin_from].
  destruct (a <=? b) eqn:Hab; cbn [negb].
  - destruct (a <=? c) eqn:Hac; cbn [negb].
    + rewrite (leb_refl a Ha). cbn. lia.
    + destruct (is_nan c) eqn:Hc; [lia|].
      rewrite (ltb_leb _ _ (not_leb_ltb a c Ha Hc Hac)). cbn. lia.
  - destruct (is_nan b) eqn:Hb; [lia|].
    pose proof (not_leb_ltb a b Ha Hb Hab) as Hba.
    destruct (b <=? c) eqn:Hbc; cbn [negb].
    + rewrite (ltb_leb _ _ Hba). cbn. lia.
    + destruct (is_nan c) eqn:Hc; [lia|].
      pose proof (not_leb_ltb b c Hb Hc Hbc) as Hcb.
      rewrite (ltb_leb _ _ (ltb_trans _ _ _ Hcb Hba)). cbn. lia.
Qed.

End FloatOrder.

(* ===================================================================== *)
(** ** Which exceptions the primitives raise *)
(* ===================================================================== *)

Lemma bop_raise f a b e : bop f a b = Raise e -> e = ValueError.
Proof.
  unfold bop. destruct (Nat.eqb _ _); [discriminate|].
  destruct a as [|x [|x' a]], b as [|y [|y' b]]; intros H;
    try discriminate H; injection H as <-; reflexivity.
Qed.

Lemma bop_ok_length f a b c :
  bop f a b = Ok c -> bshape (length a) (length b) = Some (length c).
Proof.
  unfold bop, bshape. destruct (Nat.eqb_spec (length a) (length b)) as [E|E].
  - intros H. injection H as <-. rewrite zip_with_length; auto.
  - destruct a as [|x [|x' a]], b as [|y [|y' b]]; cbn in E |- *; intros H;
      try discriminate H; try congruence; injection H as <-; cbn;
      rewrite ?length_map; reflexivity.
Qed.

Lemma bop_shape_ok f a b l :
  bshape (length a) (length b) = Some l ->
  exists c, bop f a b = Ok c /\ length c = l.
Proof.
  unfold bop, bshape. destruct (Nat.eqb_spec (length a) (length b)) as [E|E].
  - intros H. injection H as <-. eexists. split; [reflexivity|].
    apply zip_with_length. exact E.
  - destruct a as [|x [|x' a]], b as [|y [|y' b]]; cbn in E |- *; intros H;
      try discriminate H; try congruence; injection H as <-;
      (eexists; split; [reflexivity|]); cbn; rewrite ?length_map; reflexivity.
Qed.

(** arithmetic on broadcast lengths *)
Ltac shapes :=
  unfold bshape in *;
  repeat match goal with
         | H : context [Nat.eqb ?x ?y] |- _ => destruct (Nat.eqb_spec x y)
         | |- context [Nat.eqb ?x ?y] => destruct (Nat.eqb_spec x y)
         end;
  repeat match goal with
         | H : Some _ = Some _ |- _ => injection H as H
         | H : None = Some _ |- _ => discriminate H
         end;
  try solve [eexists; reflexivity]; try lia.

Lemma bshape_sym a b : bshape a b = bshape b a.
Proof. shapes; f_equal; lia. Qed.

Lemma bshape_diag a : bshape a a = Some a.
Proof. unfold bshape. rewrite Nat.eqb_refl. reflexivity. Qed.

Lemma bshape_again a b c :
  bshape a b = Some c -> bshape c a = Some c /\ bshape c b = Some c.
Proof. intros H. split; shapes; f_equal; lia. Qed.

Lemma unscale_raise s0 s1 x e : unscale s0 s1 x = Raise e -> e = ValueError.
Proof.
  unfold unscale. destruct (vsub x s0) as [d|e'] eqn:E; cbn [Py.bind]; intros H.
  - exact (bop_raise _ _ _ _ H).
  - injection H as <-. exact (bop_raise _ _ _ _ E).
Qed.

Lemma np_max_raise v e : np_max v = Raise e -> e = ValueError.
Proof. destruct v; intros H; [injection H as <-; reflexivity|discriminate]. Qed.

Lemma float_of_int_raise k e : float_of_int k = Raise e -> e = OverflowError.
Proof.
  unfold float_of_int. destruct (is_finite (of_Z k)); congruence.
Qed.

Lemma int_truediv_raise a b e :
  int_truediv a b = Raise e ->
  (e = ZeroDivisionError /\ b = 0%Z) \/ e = OverflowError.
Proof.
  unfold int_truediv. destruct (Z.eqb_spec b 0) as [Hb|Hb].
  - intros H. injection H as <-. left. split; [reflexivity|exact Hb].
  - cbv zeta. destruct (is_finite _); [discriminate|].
    intros H. injection H as <-. right. reflexivity.
Qed.

Lemma shrink_raise opts c e :
  shrink opts c = Raise e ->
  (e = ZeroDivisionError /\ max_evals opts = 0%Z) \/ e = OverflowError.
Proof.
  unfold shrink.
  destruct (int_truediv c (max_evals opts)) as [q|e'] eqn:E; cbn [Py.bind];
    [discriminate|].
  intros H. injection H as <-. exact (int_truediv_raise _ _ _ E).
Qed.

Lemma get_col_raise j t e :
  get_col j t = Raise e -> e = IndexError /\ length t <= j.
Proof.
  unfold get_col. destruct (nth_error t j) eqn:E; [discriminate|].
  intros H. injection H as <-. split; [reflexivity|].
  apply nth_error_None. exact E.
Qed.

Lemma set_col_raise rows j v t e :
  set_col rows j v t = Raise e ->
  e = ValueError \/ (e = IndexError /\ length t <= j).
Proof.
  unfold set_col. destruct (Nat.ltb_spec j (length t)) as [Hj|Hj];
    [|intros H; injection H as <-; auto].
  destruct (Nat.eqb _ _); [discriminate|].
  destruct v as [|x [|y v]]; intros H; try discriminate;
    injection H as <-; auto.
Qed.

Lemma ratio_x_raise norm it prev xx e :
  ratio_x norm it prev xx = Raise e -> e = ValueError.
Proof.
  unfold ratio_x. destruct (_ && _); [|discriminate].
  destruct (vsub prev xx) eqn:E; cbn [Py.bind]; intros H; [discriminate|].
  injection H as <-. exact (bop_raise _ _ _ _ E).
Qed.

(** ** Invariants of the loop, and what a failing pass can raise *)

Section LoopFacts.

Variable avg_cov_func : vec -> vec -> vec -> eval_out.
Variable box_constraint : vec -> vec -> float * float.
Variable randn : nat -> nat -> vec.
Variable linalg_norm : vec -> float.
Variable linalg_solve : list vec -> vec -> res vec.
Variable opts : options.
Variable n : nat.
Variables s0 s1 : vec.

Local Notation candidates' :=
  (candidates avg_cov_func box_constraint randn linalg_norm linalg_solve n s0 s1).
Local Notation select' := (select opts).
Local Notation incumbent' := (incumbent linalg_norm n s0 s1).
Local Notation termination' := (termination opts).
Local Notation body' :=
  (body avg_cov_func box_constraint randn linalg_norm linalg_solve opts n s0 s1).
Local Notation loop' :=
  (loop avg_cov_func box_constraint randn linalg_norm linalg_solve opts n s0 s1).
Local Notation reaches' :=
  (reaches avg_cov_func box_constraint randn linalg_norm linalg_solve opts n s0 s1).

Section Invariant.

Variable P : state -> Prop.
Hypothesis P_pass :
  forall t t' b,
    P t -> (function_count t <? max_evals opts)%Z = true ->
    body' t = Ok (t', b) -> P t'.

Lemma loop_invariant fuel s why s' :
  P s -> loop' fuel s = Some (Ok (why, s')) -> P s'.
Proof.
  revert s; induction fuel as [|fuel IH]; intros s Hs; cbn;
    destruct (function_count s <? max_evals opts)%Z eqn:Hg; try discriminate;
    try (intros H; injection H as _ <-; exact Hs).
  destruct (body' s) as [[t [w|]]|e] eqn:Hb; try discriminate.
  - intros H; injection H as _ <-. eauto.
  - apply IH. eauto.
Qed.

Lemma loop_raise fuel s e :
  P s -> loop' fuel s = Some (Raise e) ->
  exists t, P t /\ (function_count t <? max_evals opts)%Z = true /\
            body' t = Raise e.
Proof.
  revert s; induction fuel as [|fuel IH]; intros s Hs; cbn;
    destruct (function_count s <? max_evals opts)%Z eqn:Hg; try discriminate.
  destruct (body' s) as [[t [w|]]|e'] eqn:Hb; try discriminate.
  - apply IH. eauto.
  - intros H; injection H as <-. eauto.
Qed.

Lemma reaches_invariant s t b : P s -> reaches' s t b -> P t.
Proof. intros Hs. induction 1; eauto. Qed.

End Invariant.

(** how a finished loop was left *)
Lemma loop_stop fuel s why s' :
  loop' fuel s = Some (Ok (why, s')) ->
  (why = Exhausted /\ (function_count s' <? max_evals opts)%Z = false) \/
  termination' s' = Ok (Some why).
Proof.
  revert s; induction fuel as [|fuel IH]; intros s; cbn;
    destruct (function_count s <? max_evals opts)%Z eqn:Hg; try discriminate;
    try (intros H; injection H as <- <-; auto).
  destruct (body' s) as [[t [w|]]|e] eqn:Hb; try discriminate.
  - intros H; injection H as <- <-.
    destruct (body_inv _ _ _ _ _ _ _ _ _ _ _ _ Hb) as (_ & _ & _ & _ & _ & Ht).
    auto.
  - apply IH.
Qed.

(** *** What one pass does to the count, the counters and the locals *)

Lemma incumbent_accepted s si :
  incumbent' s = Ok si -> si = s \/ accepted si = S (accepted s).
Proof.
  intros H. unfold incumbent in H. cbv zeta in H.
  destruct (cost_at (fa s) (i_min s) <? f_opt s)%float;
    [|injection H as <-; auto].
  ok_inv H; subst; right; reflexivity.
Qed.

Lemma incumbent_g1 s si : incumbent' s = Ok si -> g1 si = g1 s.
Proof. intros H. incumbent_inv H; reflexivity. Qed.

Lemma select_g1 s ss :
  select' s = Ok ss -> g1 ss = None -> g1 s = None /\ i_min ss = 0.
Proof.
  intros H. select_inv H; fields.
  all: repeat match goal with
         | E : match ?i with _ => _ end = Ok _ |- _ =>
             destruct i; try discriminate E
         | E : Ok _ = Ok _ |- _ => injection E as <-
         end.
  all: cbn [snd]; intros Hg; try discriminate Hg; auto.
Qed.

Lemma candidates_locals_ok s sc :
  candidates' s = Ok sc -> locals_ok s -> locals_ok sc.
Proof.
  intros H (Hc & Hg).
  pose proof (candidates_fa0 _ _ _ _ _ _ _ _ _ _ H) as H0.
  destruct (candidates_frame _ _ _ _ _ _ _ _ _ _ H)
    as (_ & Hg1 & _ & _ & _ & _ & Hf & _).
  destruct (candidates_spec _ _ _ _ _ _ _ _ _ _ H)
    as (p2 & p3 & _ & _ & _ & _ & Hq).
  unfold locals_ok. rewrite Hg1, Hf, H0. split; [|exact Hg].
  destruct Hq as [(_ & _ & E4 & E3 & _)|(p4 & _ & _ & E4 & _)];
    rewrite E4; [rewrite E3; exact Hc|discriminate].
Qed.

Lemma select_locals_ok s ss :
  select' s = Ok ss -> locals_ok s -> locals_ok ss.
Proof.
  intros H (Hc & Hg).
  destruct (select_frame _ _ _ H)
    as (_ & _ & _ & Hc4 & _ & _ & _ & _ & Hf & _).
  unfold locals_ok. rewrite (select_fa _ _ _ H), Hc4, Hf.
  split; [exact Hc|].
  intros Hn. apply Hg. exact (proj1 (select_g1 _ _ H Hn)).
Qed.

Lemma incumbent_locals_ok s si :
  incumbent' s = Ok si -> locals_ok s -> locals_ok si.
Proof.
  intros H (Hc & Hg).
  destruct (incumbent_accepted _ _ H) as [->|Hacc]; [split; assumption|].
  destruct (incumbent_improved _ _ _ _ _ _ H Hacc)
    as (col & xx & mg & go & cx & _ & Hg1 & _).
  destruct (incumbent_frame _ _ _ _ _ _ H) as (_ & _ & _ & _ & Hc4 & _).
  unfold locals_ok.
  rewrite (incumbent_fa _ _ _ _ _ _ H), Hc4, (incumbent_g1 _ _ H), Hg1.
  split; [exact Hc|discriminate].
Qed.

Lemma body_locals_ok s s' b : body' s = Ok (s', b) -> locals_ok s -> locals_ok s'.
Proof.
  intros H Hs. destruct (body_inv _ _ _ _ _ _ _ _ _ _ _ _ H)
    as (sc & ss & Hc & Hsel & Hi & _).
  eauto using candidates_locals_ok, select_locals_ok, incumbent_locals_ok.
Qed.

Lemma body_counters s s' b :
  body' s = Ok (s', b) ->
  length (cvg_hst s') = length (cvg_hst s) /\
  (iteration s' = iteration s \/ iteration s' = S (iteration s)) /\
  draws s' = S (draws s).
Proof.
  intros H. destruct (body_inv _ _ _ _ _ _ _ _ _ _ _ _ H)
    as (sc & ss & Hc & Hsel & Hi & _).
  destruct (candidates_frame _ _ _ _ _ _ _ _ _ _ Hc)
    as (_ & _ & _ & Hit1 & Hh1 & _ & _ & _ & _ & _ & _ & Hd1).
  destruct (select_frame _ _ _ Hsel)
    as (_ & _ & _ & _ & _ & Hit2 & Hh2 & _ & _ & _ & _ & _ & _ & Hd2 & _).
  destruct (incumbent_frame _ _ _ _ _ _ Hi)
    as (_ & _ & _ & _ & _ & _ & _ & Hd3 & _).
  rewrite Hd3, Hd2, Hd1.
  destruct (incumbent_accepted _ _ Hi) as [->|Hacc].
  - rewrite Hit2, Hit1, Hh2, Hh1. auto.
  - destruct (incumbent_improved _ _ _ _ _ _ Hi Hacc)
      as (col & xx & mg & go & cx & _ & _ & _ & _ & _ & _ & _ & _
          & Hits & Hhst & _).
    rewrite Hits, Hhst, set_nth_length, Hit2, Hit1, Hh2, Hh1. auto.
Qed.

(** the evaluations of one pass, when every Evaluator call reports at least
    one: two or three calls, at least two evaluations *)
Lemma body_count_grows s s' b :
  (forall x a d, (1 <= nAvg (avg_cov_func x a d))%Z) ->
  body' s = Ok (s', b) ->
  (function_count s + 2 <= function_count s')%Z.
Proof.
  intros Hinc H.
  destruct (body_spec _ _ _ _ _ _ _ _ _ _ _ _ H)
    as (_ & _ & p2 & p3 & _ & _ & _ & _ & _ & _ & _ & Hcase).
  pose proof (Hinc p2 s0 s1). pose proof (Hinc p3 s0 s1).
  destruct Hcase as [(_ & E & _)|(p4 & _ & E & _)]; rewrite E;
    [|pose proof (Hinc p4 s0 s1)]; lia.
Qed.

Lemma body_width_ok s s' b :
  (forall x a d, (1 <= nAvg (avg_cov_func x a d))%Z) ->
  body' s = Ok (s', b) -> width_ok opts s -> width_ok opts s'.
Proof.
  intros Hinc H (Hw & Hc).
  destruct (body_counters _ _ _ H) as (Hl & Hit & _).
  pose proof (body_count_grows _ _ _ Hinc H).
  unfold width_ok. rewrite Hl. split; [exact Hw|].
  destruct Hit as [->| ->]; lia.
Qed.

(** *** What a failing pass can raise *)

Lemma candidates_raise s e :
  (forall A b e', linalg_solve A b = Raise e' -> e' = LinAlgError) ->
  candidates' s = Raise e -> e = ValueError \/ e = LinAlgError.
Proof.
  intros Hsolve H. unfold candidates, quad_fit in H. cbv zeta in H.
  repeat match type of H with
         | Py.bind (vadd ?a ?b) _ = Raise _ =>
             let E := fresh "E" in
             destruct (vadd a b) eqn:E; cbn [Py.bind] in H;
             [|injection H as <-; left; exact (bop_raise _ _ _ _ E)]
         | Py.bind (vsub ?a ?b) _ = Raise _ =>
             let E := fresh "E" in
             destruct (vsub a b) eqn:E; cbn [Py.bind] in H;
             [|injection H as <-; left; exact (bop_raise _ _ _ _ E)]
         end.
  match type of H with
  | Py.bind (Py.bind (linalg_solve ?A ?b) _) _ = Raise _ =>
      destruct (linalg_solve A b) as [sol|e'] eqn:Esol; cbn [Py.bind] in H;
      [|injection H as <-; right; exact (Hsolve _ _ _ Esol)]
  end.
  destruct sol as [|qa [|qb [|qc [|qd sol]]]]; cbn [Py.bind] in H;
    try (injection H as <-; left; reflexivity).
  destruct (0 <? qa)%float; [|discriminate].
  match type of H with
  | Py.bind (vadd ?a ?b) _ = Raise _ =>
      let E := fresh "E" in
      destruct (vadd a b) eqn:E; cbn [Py.bind] in H;
      [discriminate|injection H as <-; left; exact (bop_raise _ _ _ _ E)]
  end.
Qed.

(** the selection fails only in the division of the count by the budget:
    on a zero budget, or on a quotient too large for a float *)
Lemma select_raise s e :
  locals_ok s -> select' s = Raise e ->
  (e = ZeroDivisionError /\ max_evals opts = 0%Z) \/ e = OverflowError.
Proof.
  intros (Hc & _) H. unfold select in H. cbv zeta in H.
  destruct (argmin (costs_list (fa s))) as [i|e'] eqn:Ei;
    [|discriminate Ei].
  cbn [Py.bind] in H.
  assert (Hi : c4 s = None -> i < 3).
  { intros E4. unfold costs_list in Ei. rewrite (Hc E4) in Ei.
    exact (argmin_repeated_base _ _ _ _ Ei). }
  destruct i as [|[|[|i]]].
  4:{ destruct (c4 s) eqn:E4; [|specialize (Hi eq_refl); lia].
      cbn [Py.bind Nat.ltb Nat.leb] in H.
      destruct (shrink opts (function_count s)) as [q|e'] eqn:Eq;
        cbn [Py.bind] in H; [discriminate|].
      injection H as <-. exact (shrink_raise _ _ _ Eq). }
  all: cbn [Py.bind Nat.ltb Nat.leb] in H; try discriminate H.
  all: destruct (shrink opts (function_count s)) as [q|e'] eqn:Eq;
    cbn [Py.bind] in H; [discriminate|].
  all: injection H as <-; exact (shrink_raise _ _ _ Eq).
Qed.

Lemma incumbent_raise s e :
  (g1 s = None -> cost_at (fa s) (i_min s) = f_opt s) ->
  incumbent' s = Raise e ->
  e = ValueError \/ e = OverflowError \/
  (e = IndexError /\ length (cvg_hst s) <= iteration s).
Proof.
  intros Hg H. unfold incumbent in H. cbv zeta in H.
  destruct (cost_at (fa s) (i_min s) <? f_opt s)%float eqn:Hlt; [|discriminate].
  destruct (g1 s) as [go|] eqn:Hg1; cbn [Py.bind] in H;
    [|rewrite (Hg eq_refl), ltb_irrefl in Hlt; discriminate].
  destruct (get_col (iteration s - 1) (cvg_hst s)) as [col|e'] eqn:Ec;
    cbn [Py.bind] in H;
    [|injection H as <-; apply get_col_raise in Ec; right; right;
      split; [tauto|lia]].
  destruct (unscale s0 s1 (x1 s)) as [xx|e'] eqn:Ex; cbn [Py.bind] in H;
    [|injection H as <-; left; exact (unscale_raise _ _ _ _ Ex)].
  destruct (ratio_x _ _ _ _) as [cx|e'] eqn:Er; cbn [Py.bind] in H;
    [|injection H as <-; left; exact (ratio_x_raise _ _ _ _ _ Er)].
  destruct (np_max go) as [mg|e'] eqn:Em; cbn [Py.bind] in H;
    [|injection H as <-; left; exact (np_max_raise _ _ Em)].
  destruct (set_col _ _ _ _) as [hst|e'] eqn:Es; cbn [Py.bind] in H.
  - destruct (float_of_int _) as [fc|e'] eqn:Ef; cbn [Py.bind] in H;
      [discriminate|].
    injection H as <-. right. left. exact (float_of_int_raise _ _ Ef).
  - injection H as <-. apply set_col_raise in Es.
    replace (S (iteration s) - 1) with (iteration s) in Es by lia. tauto.
Qed.

Lemma termination_raise s e : termination' s = Raise e -> e = ValueError.
Proof.
  unfold termination. destruct (np_max (g_opt s)) eqn:E; cbn [Py.bind];
    intros H.
  - destruct (_ && _); [discriminate|]. destruct (_ && _); discriminate.
  - injection H as <-. exact (np_max_raise _ _ E).
Qed.

(** no pass reads a local before its assignment *)
Lemma body_never_unbound s e :
  (forall A b e', linalg_solve A b = Raise e' -> e' = LinAlgError) ->
  locals_ok s ->
  body' s = Raise e -> e <> UnboundLocalError.
Proof.
  intros Hsolve Hl H. unfold body in H.
  destruct (candidates' s) as [sc|e'] eqn:Hc; cbn [Py.bind] in H.
  2:{ injection H as <-.
      destruct (candidates_raise _ _ Hsolve Hc) as [-> | ->]; discriminate. }
  pose proof (candidates_locals_ok _ _ Hc Hl) as Hlc.
  destruct (select' sc) as [ss|e'] eqn:Hs; cbn [Py.bind] in H.
  2:{ injection H as <-.
      destruct (select_raise _ _ Hlc Hs) as [(-> & _)| ->]; discriminate. }
  pose proof (select_locals_ok _ _ Hs Hlc) as Hls.
  destruct (select_frame _ _ _ Hs)
    as (_ & _ & _ & _ & _ & _ & _ & _ & Hf2 & _).
  destruct (incumbent' ss) as [si|e'] eqn:Hi; cbn [Py.bind] in H.
  2:{ injection H as <-.
      apply incumbent_raise in Hi.
      - destruct Hi as [-> |[-> |(-> & _)]]; discriminate.
      - intros Hg. destruct (select_g1 _ _ Hs Hg) as (_ & ->).
        symmetry. exact (proj2 Hls Hg). }
  destruct (termination' si) as [b|e'] eqn:Ht; cbn [Py.bind] in H;
    [discriminate|].
  injection H as <-. rewrite (termination_raise _ _ Ht). discriminate.
Qed.

(** a pass that starts below the budget raises nothing but ValueError (a
    shape mismatch or an empty constraint vector), OverflowError (a count
    too large for a float) and what the linear solve raises *)
Lemma body_raise s e :
  (forall A b e', linalg_solve A b = Raise e' -> e' = LinAlgError) ->
  (forall x a d, (1 <= nAvg (avg_cov_func x a d))%Z) ->
  (function_count s <? max_evals opts)%Z = true ->
  hist_ok n s -> width_ok opts s -> locals_ok s ->
  body' s = Raise e ->
  e = ValueError \/ e = LinAlgError \/ e = OverflowError.
Proof.
  intros Hsolve Hinc Hguard Hh (Hw & Hcount) Hl H.
  apply Z.ltb_lt in Hguard. destruct Hh as (Hit & _).
  unfold body in H.
  destruct (candidates' s) as [sc|e'] eqn:Hc; cbn [Py.bind] in H;
    [|injection H as <-;
      destruct (candidates_raise _ _ Hsolve Hc) as [-> | ->]; auto].
  pose proof (candidates_locals_ok _ _ Hc Hl) as Hlc.
  destruct (candidates_frame _ _ _ _ _ _ _ _ _ _ Hc)
    as (_ & _ & _ & Hit1 & Hh1 & _).
  destruct (select' sc) as [ss|e'] eqn:Hs; cbn [Py.bind] in H.
  2:{ injection H as <-. apply (select_raise _ _ Hlc) in Hs.
      destruct Hs as [(_ & Hs)| ->]; [lia|auto]. }
  pose proof (select_locals_ok _ _ Hs Hlc) as Hls.
  destruct (select_frame _ _ _ Hs)
    as (_ & _ & _ & _ & _ & Hit2 & Hh2 & _ & Hf2 & _).
  destruct (incumbent' ss) as [si|e'] eqn:Hi; cbn [Py.bind] in H.
  2:{ injection H as <-.
      apply incumbent_raise in Hi.
      - destruct Hi as [Hi|[Hi|(_ & Hi)]]; [auto|auto|].
        rewrite Hit2, Hit1, Hh2, Hh1, Hw in Hi. lia.
      - intros Hg. destruct (select_g1 _ _ Hs Hg) as (_ & ->).
        symmetry. exact (proj2 Hls Hg). }
  destruct (termination' si) as [b|e'] eqn:Ht; cbn [Py.bind] in H;
    [discriminate|].
  injection H as <-. left. exact (termination_raise _ _ Ht).
Qed.

(** *** Invariants of a pass *)

Lemma loop_terminates fuel s :
  (forall x a d, (1 <= nAvg (avg_cov_func x a d))%Z) ->
  (max_evals opts - function_count s <= 2 * Z.of_nat fuel)%Z ->
  exists r, loop' fuel s = Some r.
Proof.
  intros Hinc. revert s; induction fuel as [|fuel IH]; intros s Hm; cbn [loop];
    destruct (function_count s <? max_evals opts)%Z eqn:Hg; eauto.
  - apply Z.ltb_lt in Hg. lia.
  - destruct (body' s) as [[t [w|]]|e] eqn:Hb; eauto.
    apply IH. pose proof (body_count_grows _ _ _ Hinc Hb). lia.
Qed.

Lemma body_spent s s' b :
  body' s = Ok (s', b) ->
  function_count s = spent avg_cov_func s0 s1 (calls s) ->
  function_count s' = spent avg_cov_func s0 s1 (calls s').
Proof.
  intros H Hs.
  destruct (body_spec _ _ _ _ _ _ _ _ _ _ _ _ H)
    as (_ & _ & p2 & p3 & _ & _ & _ & _ & _ & _ & _ & Hcase).
  destruct Hcase as [(_ & E & El)|(p4 & _ & E & El)]; rewrite E, El;
    cbn [spent point_of]; lia.
Qed.

Lemma nth_error_set_nth_neq {A} i j (v : A) l :
  i <> j -> nth_error (set_nth j v l) i = nth_error l i.
Proof.
  revert i j; induction l as [|x l IH]; intros [|i] [|j]; cbn; intros H;
    try congruence; auto.
Qed.

(** the columns written so far are not written again *)
Lemma body_keeps_columns s s' b j :
  body' s = Ok (s', b) -> j < iteration s ->
  nth_error (cvg_hst s') j = nth_error (cvg_hst s) j.
Proof.
  intros H Hj. destruct (body_inv _ _ _ _ _ _ _ _ _ _ _ _ H)
    as (sc & ss & Hc & Hsel & Hi & _).
  destruct (candidates_frame _ _ _ _ _ _ _ _ _ _ Hc)
    as (_ & _ & _ & Hit1 & Hh1 & _).
  destruct (select_frame _ _ _ Hsel)
    as (_ & _ & _ & _ & _ & Hit2 & Hh2 & _).
  destruct (incumbent_accepted _ _ Hi) as [->|Hacc].
  - rewrite Hh2, Hh1. reflexivity.
  - destruct (incumbent_improved _ _ _ _ _ _ Hi Hacc)
      as (col & xx & mg & go & cx & _ & _ & _ & _ & _ & _ & _ & _
          & _ & Hhst & _).
    rewrite Hhst, Hit2, Hit1, Hh2, Hh1. apply nth_error_set_nth_neq. lia.
Qed.

Lemma body_strict_ok s s' b :
  body' s = Ok (s', b) -> hist_ok n s -> strict_ok n s -> strict_ok n s'.
Proof.
  intros H (Hit & _ & _ & Hobj & _) Hst.
  destruct (body_inv _ _ _ _ _ _ _ _ _ _ _ _ H)
    as (sc & ss & Hc & Hsel & Hi & _).
  destruct (candidates_frame _ _ _ _ _ _ _ _ _ _ Hc)
    as (_ & _ & _ & Hit1 & Hh1 & _ & Hf1 & _).
  destruct (select_frame _ _ _ Hsel)
    as (_ & _ & _ & _ & _ & Hit2 & Hh2 & _ & Hf2 & _).
  destruct (incumbent_accepted _ _ Hi) as [->|Hacc].
  - unfold strict_ok. rewrite Hit2, Hit1, Hh2, Hh1. exact Hst.
  - destruct (incumbent_improved _ _ _ _ _ _ Hi Hacc)
      as (col & xx & mg & go & cx & Hlt & _ & _ & _ & Hl & _ & _ & Hj
          & Hits & Hhst & _).
    rewrite Hit2, Hit1, Hh2, Hh1 in *. rewrite Hf2, Hf1 in Hlt.
    unfold strict_ok, obj_at in *. rewrite Hits, Hhst.
    intros j Hj'. destruct (Nat.eq_dec (S j) (iteration s)) as [Heq|Hne].
    + rewrite Heq, nth_set_nth_eq by exact Hj.
      rewrite nth_set_nth_neq by lia.
      rewrite <- Hl at 1. rewrite record_col_obj.
      replace j with (iteration s - 1) by lia. rewrite Hobj. exact Hlt.
    + rewrite !nth_set_nth_neq by lia. apply Hst. lia.
Qed.

Lemma candidates_last_update s sc :
  candidates' s = Ok sc -> last_update sc = last_update s.
Proof. intros H. candidates_inv H; reflexivity. Qed.

Lemma select_last_update s ss :
  select' s = Ok ss -> last_update ss = last_update s.
Proof. intros H. select_inv H; reflexivity. Qed.

Lemma incumbent_last_update s si :
  incumbent' s = Ok si -> accepted si = S (accepted s) ->
  last_update si = function_count s.
Proof.
  intros H Hacc. unfold incumbent in H. cbv zeta in H.
  destruct (cost_at (fa s) (i_min s) <? f_opt s)%float;
    [|injection H as <-; lia].
  ok_inv H; subst; reflexivity.
Qed.

Lemma body_last_record_ok s s' b :
  body' s = Ok (s', b) -> last_record_ok s0 s1 s -> last_record_ok s0 s1 s'.
Proof.
  intros H Hs. destruct (body_inv _ _ _ _ _ _ _ _ _ _ _ _ H)
    as (sc & ss & Hc & Hsel & Hi & _).
  destruct (candidates_frame _ _ _ _ _ _ _ _ _ _ Hc)
    as (_ & _ & _ & Hit1 & Hh1 & Hx1 & Hf1 & Hg1 & Hcx1 & Hcf1 & _).
  destruct (select_frame _ _ _ Hsel)
    as (_ & _ & _ & _ & _ & Hit2 & Hh2 & Hx2 & Hf2 & Hg2 & Hcx2 & Hcf2 & _).
  pose proof (candidates_last_update _ _ Hc) as Hu1.
  pose proof (select_last_update _ _ Hsel) as Hu2.
  destruct (incumbent_accepted _ _ Hi) as [->|Hacc].
  - unfold last_record_ok.
    rewrite Hit2, Hit1, Hh2, Hh1, Hx2, Hx1, Hf2, Hf1, Hg2, Hg1, Hcx2, Hcx1,
      Hcf2, Hcf1, Hu2, Hu1. exact Hs.
  - destruct (incumbent_improved _ _ _ _ _ _ Hi Hacc)
      as (col & xx & mg & go & cx & _ & _ & _ & Hxx & _ & _ & Hmg & Hj
          & Hits & Hhst & Hxo & Hfo & Hgo & Hcvx & Hcvf).
    pose proof (incumbent_last_update _ _ Hi Hacc) as Hu3.
    exists xx, mg. rewrite Hxo, Hgo, Hits, Hhst, Hfo, Hu3, Hcvx, Hcvf.
    split; [exact Hxx|]. split; [exact Hmg|].
    replace (S (iteration ss) - 1) with (iteration ss) by lia.
    apply nth_error_set_nth_eq. exact Hj.
Qed.

Lemma body_never_worse s s' b :
  body' s = Ok (s', b) -> never_worse s -> never_worse s'.
Proof.
  intros H Hs.
  pose proof (body_fa0 _ _ _ _ _ _ _ _ _ _ _ _ H) as H0.
  destruct (body_inv _ _ _ _ _ _ _ _ _ _ _ _ H)
    as (sc & ss & Hc & Hsel & Hi & _).
  destruct (candidates_frame _ _ _ _ _ _ _ _ _ _ Hc)
    as (_ & _ & _ & _ & _ & _ & Hf1 & _).
  destruct (select_frame _ _ _ Hsel)
    as (_ & _ & _ & _ & _ & _ & _ & _ & Hf2 & _).
  unfold never_worse in *. rewrite H0.
  destruct (incumbent_accepted _ _ Hi) as [->|Hacc].
  - rewrite Hf2, Hf1. exact Hs.
  - destruct (incumbent_improved _ _ _ _ _ _ Hi Hacc)
      as (col & xx & mg & go & cx & Hlt & _ & _ & _ & _ & _ & _ & _
          & _ & _ & _ & Hfo & _).
    rewrite Hfo. rewrite Hf2, Hf1 in Hlt. right.
    destruct Hs as [E|Hs]; [rewrite <- E; exact Hlt|].
    exact (ltb_trans _ _ _ Hlt Hs).
Qed.

Lemma never_worse_not_above s :
  never_worse s -> (fa0 (fa s) <? f_opt s)%float = false.
Proof.
  intros [E|H]; [rewrite E; apply ltb_irrefl|apply ltb_asym; exact H].
Qed.

Lemma select_base s ss :
  select' s = Ok ss -> i_min ss = 0 ->
  sigma ss = sigma s /\ x1 ss = clip (x1 s).
Proof.
  intros H Hi. pose proof (select_i_min _ _ _ H) as Hm. rewrite Hi in Hm.
  unfold select in H. rewrite Hm in H. cbn [Py.bind Nat.ltb Nat.leb] in H.
  injection H as <-. split; reflexivity.
Qed.

End LoopFacts.

(* ===================================================================== *)
(** ** Further properties of a whole call *)
(* ===================================================================== *)

Section FurtherFacts.

Variable avg_cov_func : vec -> vec -> vec -> eval_out.
Variable box_constraint : vec -> vec -> float * float.
Variable randn : nat -> nat -> vec.
Variable linalg_norm : vec -> float.
Variable linalg_solve : list vec -> vec -> res vec.
Variable opts : options.

Local Notation init' := (init avg_cov_func opts).
Local Notation run' :=
  (run avg_cov_func box_constraint randn linalg_norm linalg_solve opts).
Local Notation orsopt' :=
  (orsopt avg_cov_func box_constraint randn linalg_norm linalg_solve opts).
Local Notation loop' :=
  (loop avg_cov_func box_constraint randn linalg_norm linalg_solve opts).
Local Notation body' :=
  (body avg_cov_func box_constraint randn linalg_norm linalg_solve opts).
Local Notation reaches' :=
  (reaches avg_cov_func box_constraint randn linalg_norm linalg_solve opts).

(** *** The state after the seed evaluation *)

Lemma analyze_spec n s0 s1 xn s :
  analyze avg_cov_func opts n s0 s1 xn = Ok s ->
  let e := avg_cov_func xn s0 s1 in
  exists xx mg,
    unscale s0 s1 (xv e) = Ok xx /\ length xx = n /\
    np_max (gv e) = Ok mg /\
    cvg_hst s = set_nth 0 (record_col xx (fv e) mg (0 + nAvg e) 1 1)
                        (full_nan (n + 5) (Z.to_nat (Z.max 1 (max_evals opts)))) /\
    c4 s = None /\ g1 s = None /\ x_opt s = xv e /\
    last_update s = (0 + nAvg e)%Z /\
    cvg_x s = 1%float /\ cvg_f s = 1%float.
Proof.
  unfold analyze. intros H. cbv zeta in H. ok_inv H. subst.
  match goal with
  | E : set_col _ _ _ _ = Ok _ |- _ =>
      apply set_col_record in E; destruct E as (Hl & Hj & ->)
  end.
  cbv zeta. fields. do 2 eexists. repeat split; eauto.
Qed.

Lemma analyze_raise n s0 s1 xn e :
  analyze avg_cov_func opts n s0 s1 xn = Raise e ->
  e = ValueError \/ e = OverflowError.
Proof.
  unfold analyze. cbv zeta. intros H.
  destruct (unscale _ _ _) as [xx|e'] eqn:Ex; cbn [Py.bind] in H;
    [|injection H as <-; left; exact (unscale_raise _ _ _ _ Ex)].
  destruct (np_max _) as [mg|e'] eqn:Em; cbn [Py.bind] in H;
    [|injection H as <-; left; exact (np_max_raise _ _ Em)].
  destruct (set_col _ _ _ _) as [h|e'] eqn:Es; cbn [Py.bind] in H.
  - destruct (float_of_int _) as [fc|e'] eqn:Ef; cbn [Py.bind] in H;
      [discriminate|].
    injection H as <-. right. exact (float_of_int_raise _ _ Ef).
  - injection H as <-. apply set_col_raise in Es. left.
    destruct Es as [Es|(_ & Es)]; [exact Es|].
    unfold full_nan in Es. rewrite repeat_length in Es. lia.
Qed.

Lemma normalize_raise x lb ub e : normalize x lb ub = Raise e -> e = ValueError.
Proof.
  unfold normalize, scaling. intros H.
  repeat match type of H with
         | Py.bind (Py.bind ?c _) _ = Raise _ =>
             let E := fresh "E" in
             destruct c eqn:E; cbn [Py.bind] in H;
             [|injection H as <-; exact (bop_raise _ _ _ _ E)]
         | Py.bind ?c _ = Raise _ =>
             let E := fresh "E" in
             destruct c eqn:E; cbn [Py.bind] in H;
             [|injection H as <-; exact (bop_raise _ _ _ _ E)]
         end.
  discriminate.
Qed.

Lemma init_raise x_init x_lb x_ub e :
  init' x_init x_lb x_ub = Raise e -> e = ValueError \/ e = OverflowError.
Proof.
  unfold init. cbv zeta. intros H.
  destruct (normalize _ _ _) as [[[s0 s1] xn]|e'] eqn:En; cbn [Py.bind] in H;
    [|injection H as <-; left; exact (normalize_raise _ _ _ _ En)].
  destruct (analyze _ _ _ _ _ _) as [s|e'] eqn:Ea; cbn [Py.bind] in H;
    [discriminate|].
  injection H as <-. exact (analyze_raise _ _ _ _ _ Ea).
Qed.

Lemma seed_invariants x_init x_lb x_ub s0 s1 s :
  init' x_init x_lb x_ub = Ok (s0, s1, s) ->
  hist_ok (length x_init) s /\ locals_ok s /\ never_worse s /\
  strict_ok (length x_init) s /\ last_record_ok s0 s1 s /\
  length (cvg_hst s) = Z.to_nat (Z.max 1 (max_evals opts)) /\
  function_count s = spent avg_cov_func s0 s1 (calls s) /\
  length (calls s) = 1 + 2 * draws s + quads s /\ quads s <= draws s.
Proof.
  intros Hi. destruct (init_inv _ _ _ _ _ _ _ _ Hi) as (xn & _ & Ha).
  pose proof (analyze_hist_ok _ _ _ _ _ _ _ Ha) as Hh.
  destruct (analyze_seed _ _ _ _ _ _ _ Ha)
    as (Hc & Hf0 & Hf3 & Hf & _ & _ & _ & _ & Hg & Hcount & Hit & _ & Hd).
  destruct (analyze_spec _ _ _ _ _ Ha)
    as (xx & mg & Hxx & Hl & Hmg & Hhst & Hc4 & Hg1 & Hxo & Hlu & Hcx & Hcf).
  split; [exact Hh|].
  split; [split; intros _; congruence|].
  split; [left; congruence|].
  split; [intros j Hj; lia|].
  split.
  { exists xx, mg. rewrite Hxo, Hg, Hit, Hhst, Hf, Hlu, Hcx, Hcf.
    split; [exact Hxx|]. split; [exact Hmg|].
    apply nth_error_set_nth_eq. unfold full_nan. rewrite repeat_length. lia. }
  split.
  { rewrite Hhst, set_nth_length. unfold full_nan. apply repeat_length. }
  unfold quads. rewrite Hc, Hcount, Hd. cbn. repeat split; lia.
Qed.

(** *** Termination *)

(** X1. When every Evaluator call reports at least one evaluation, the loop
    ends: [fuel] passes are enough as soon as [2 * fuel + 1] reaches the
    budget, because each pass spends at least two evaluations. *)
Theorem orsopt_terminates fuel x_init x_lb x_ub :
  (forall x a d, (1 <= nAvg (avg_cov_func x a d))%Z) ->
  (max_evals opts <= 2 * Z.of_nat fuel + 1)%Z ->
  exists r, orsopt avg_cov_func box_constraint randn linalg_norm linalg_solve opts
      fuel x_init x_lb x_ub = Some r.
Proof.
  intros Hinc Hfuel. unfold orsopt.
  destruct (init' x_init x_lb x_ub) as [[[s0 s1] s]|e] eqn:Hi; eauto.
  destruct (init_inv _ _ _ _ _ _ _ _ Hi) as (xn & _ & Ha).
  destruct (analyze_seed _ _ _ _ _ _ _ Ha)
    as (_ & _ & _ & _ & _ & _ & _ & _ & _ & Hcount & _).
  pose proof (Hinc xn s0 s1) as H1.
  destruct (loop_terminates avg_cov_func box_constraint randn linalg_norm
              linalg_solve opts (length x_init) s0 s1 fuel s Hinc)
    as (r & ->); [lia|].
  destruct r as [[why s']|e]; eauto.
Qed.

(** *** Exceptions *)

Lemma finalize_hist_raise it hst e :
  finalize_hist it hst = Raise e -> e = IndexError.
Proof.
  unfold finalize_hist. cbv zeta. intros H.
  destruct (get_col _ _) as [c|e'] eqn:Ec; cbn [Py.bind] in H.
  2:{ injection H as <-. exact (proj1 (get_col_raise _ _ _ Ec)). }
  destruct (negb _); [|discriminate].
  destruct (get_col (Nat.max 0 _) _) as [c'|e'] eqn:Ec'; cbn [Py.bind] in H;
    [discriminate|].
  injection H as <-. exact (proj1 (get_col_raise _ _ _ Ec')).
Qed.

Lemma summary_rows_raise n cols e :
  summary_rows n cols = Raise e -> e = IndexError.
Proof. unfold summary_rows. destruct (forallb _ _); congruence. Qed.

(** the end of the call raises ValueError from an operation on vectors, or
    IndexError from the summary or from the history *)
Lemma finalize_cases n s0 s1 xi lb ub s e :
  finalize opts n s0 s1 xi lb ub s = Raise e ->
  e = ValueError \/
  (e = IndexError /\ msglev opts <> 0%Z) \/
  finalize_hist (iteration s) (cvg_hst s) = Raise e.
Proof.
  unfold finalize. intros H.
  destruct (vmul s1 xi) as [t|e'] eqn:E1; cbn [Py.bind] in H;
    [|injection H as <-; left; exact (bop_raise _ _ _ _ E1)].
  destruct (vadd s0 t) as [u|e'] eqn:E2; cbn [Py.bind] in H;
    [|injection H as <-; left; exact (bop_raise _ _ _ _ E2)].
  destruct (vsub u s0) as [v|e'] eqn:E3; cbn [Py.bind] in H;
    [|injection H as <-; left; exact (bop_raise _ _ _ _ E3)].
  destruct (vdiv v s1) as [w|e'] eqn:E4; cbn [Py.bind] in H;
    [|injection H as <-; left; exact (bop_raise _ _ _ _ E4)].
  destruct (unscale _ _ _) as [xo|e'] eqn:Ex; cbn [Py.bind] in H;
    [|injection H as <-; left; exact (unscale_raise _ _ _ _ Ex)].
  destruct (Z.eqb_spec (msglev opts) 0) as [Hm|Hm]; cbn [Py.bind] in H.
  - destruct (finalize_hist _ _) as [h|e'] eqn:Eh; cbn [Py.bind] in H;
      [discriminate|].
    injection H as <-. right. right. reflexivity.
  - destruct (summary_rows _ _) as [[]|e'] eqn:Es; cbn [Py.bind] in H.
    + destruct (finalize_hist _ _) as [h|e'] eqn:Eh; cbn [Py.bind] in H;
        [discriminate|].
      injection H as <-. right. right. reflexivity.
    + injection H as <-. right. left.
      split; [exact (summary_rows_raise _ _ _ Es)|exact Hm].
Qed.

Lemma finalize_raise n s0 s1 xi lb ub s e :
  finalize opts n s0 s1 xi lb ub s = Raise e ->
  e = ValueError \/ e = IndexError.
Proof.
  intros H. destruct (finalize_cases _ _ _ _ _ _ _ _ H) as [E|[(E & _)|E]];
    auto.
  right. exact (finalize_hist_raise _ _ _ E).
Qed.

(** the vector [x_init_out] of source line 216 is computed without an
    exception once the normalisation of lines 65-67 went through *)
Lemma x_init_out_ok x lb ub s0 s1 xn :
  normalize x lb ub = Ok (s0, s1, xn) ->
  exists t u v w,
    vmul s1 x = Ok t /\ vadd s0 t = Ok u /\ vsub u s0 = Ok v /\
    vdiv v s1 = Ok w /\
    (length lb = length x -> length ub = length x -> length w = length x).
Proof.
  unfold normalize, scaling. intros H.
  destruct (vadd lb ub) as [num|] eqn:E1; cbn [Py.bind] in H; [|discriminate].
  destruct (vsub lb ub) as [den|] eqn:E2; cbn [Py.bind] in H; [|discriminate].
  destruct (vdiv num den) as [q|] eqn:E3; cbn [Py.bind] in H; [|discriminate].
  destruct (vsub ub lb) as [wd|] eqn:E4; cbn [Py.bind] in H; [|discriminate].
  destruct (vmul _ x) as [t|] eqn:E5; cbn [Py.bind] in H; [|discriminate].
  destruct (vadd q t) as [u|] eqn:E6; cbn [Py.bind] in H; [|discriminate].
  injection H as <- <- <-.
  apply bop_ok_length in E1, E2, E3, E4.
  pose proof (bop_ok_length _ _ _ _ E5) as L5.
  pose proof (bop_ok_length _ _ _ _ E6) as L6. rewrite length_map in L5.
  set (s1 := map (fun d => (2 / d)%float) wd) in *.
  assert (Ls1 : length s1 = length wd) by apply length_map.
  assert (Ld : length den = length num) by congruence.
  rewrite Ld, bshape_diag in E3.
  rewrite bshape_sym, E1 in E4.
  assert (Lq : length q = length num) by congruence.
  assert (Lwd : length wd = length num) by congruence.
  rewrite Lwd in L5. rewrite Lq in L6.
  destruct (bshape_again _ _ _ L6) as (Hu & _).
  destruct (bop_shape_ok PrimFloat.sub u q (length u)) as (v & Ev & Lv).
  { rewrite Lq. exact Hu. }
  destruct (bop_shape_ok PrimFloat.div v s1 (length u)) as (w & Ew & Lw).
  { rewrite Lv, Ls1, Lwd. exact Hu. }
  exists t, u, v, w. repeat split; auto.
  intros Hlb Hub. rewrite Lw.
  rewrite Hlb, Hub, bshape_diag in E1.
  assert (Ln : length num = length x) by congruence.
  rewrite Ln, bshape_diag in L5.
  assert (Lt : length t = length x) by congruence.
  rewrite Ln, Lt, bshape_diag in L6. congruence.
Qed.

(** the returned vector has as many entries as [x_init] *)
Lemma incumbent_length n s0 s1 s :
  hist_ok n s -> last_record_ok s0 s1 s ->
  exists xx, unscale s0 s1 (x_opt s) = Ok xx /\ length xx = n.
Proof.
  intros (_ & _ & Hrows & _) (xx & mg & Hx & _ & Hcol).
  exists xx. split; [exact Hx|].
  rewrite Forall_forall in Hrows.
  pose proof (Hrows _ (nth_error_In _ _ Hcol)) as L.
  unfold record_col in L. rewrite length_app in L. cbn in L. lia.
Qed.

(** the call returns when the messages are off, or when both bounds have
    as many entries as [x_init] *)
Lemma finalize_returns x lb ub s0 s1 xn s :
  normalize x lb ub = Ok (s0, s1, xn) ->
  hist_ok (length x) s -> last_record_ok s0 s1 s ->
  msglev opts = 0%Z \/ (length lb = length x /\ length ub = length x) ->
  exists out,
    finalize opts (length x) s0 s1 x lb ub s = Ok out /\
    f_opt_out out = f_opt s /\ length (out_hist out) = iteration s.
Proof.
  intros Hn Hok Hrec Hcase.
  destruct (x_init_out_ok _ _ _ _ _ _ Hn)
    as (t & u & v & w & E1 & E2 & E3 & E4 & Lw).
  destruct (incumbent_length _ _ _ _ Hok Hrec) as (xx & Hx & Lx).
  destruct (finalize_hist_spec _ _ Hok) as (h & Hh & Hlen & _).
  unfold finalize. rewrite E1; cbn [Py.bind]. rewrite E2; cbn [Py.bind].
  rewrite E3; cbn [Py.bind]. rewrite E4; cbn [Py.bind].
  rewrite Hx; cbn [Py.bind].
  assert (Hs : (if (msglev opts =? 0)%Z then Ok tt
                else summary_rows (length x) [w; lb; xx; ub]) = Ok tt).
  { destruct (Z.eqb_spec (msglev opts) 0) as [Hm|Hm]; [reflexivity|].
    destruct Hcase as [Hm'|(Hlb & Hub)]; [contradiction|].
    unfold summary_rows. cbn [forallb].
    rewrite (Lw Hlb Hub), Hlb, Lx, Hub, Nat.leb_refl. reflexivity. }
  rewrite Hs; cbn [Py.bind]. rewrite Hh; cbn [Py.bind].
  eexists. split; [reflexivity|]. split; [reflexivity|exact Hlen].
Qed.

(** with the messages on, a bound with fewer entries than [x_init] makes
    the summary raise IndexError *)
Lemma finalize_short_bounds x lb ub s0 s1 xn s :
  normalize x lb ub = Ok (s0, s1, xn) ->
  hist_ok (length x) s -> last_record_ok s0 s1 s ->
  msglev opts <> 0%Z ->
  length lb < length x \/ length ub < length x ->
  finalize opts (length x) s0 s1 x lb ub s = Raise IndexError.
Proof.
  intros Hn Hok Hrec Hm Hshort.
  destruct (x_init_out_ok _ _ _ _ _ _ Hn)
    as (t & u & v & w & E1 & E2 & E3 & E4 & _).
  destruct (incumbent_length _ _ _ _ Hok Hrec) as (xx & Hx & Lx).
  unfold finalize. rewrite E1; cbn [Py.bind]. rewrite E2; cbn [Py.bind].
  rewrite E3; cbn [Py.bind]. rewrite E4; cbn [Py.bind].
  rewrite Hx; cbn [Py.bind].
  destruct (Z.eqb_spec (msglev opts) 0) as [Hm'|_]; [contradiction|].
  unfold summary_rows. cbn [forallb].
  assert (Hf : (Nat.leb (length x) (length w) && (Nat.leb (length x) (length lb)
                && (Nat.leb (length x) (length xx)
                    && (Nat.leb (length x) (length ub) && true)))) = false).
  { destruct Hshort as [Hs|Hs].
    - replace (Nat.leb (length x) (length lb)) with false
        by (symmetry; apply Nat.leb_gt; exact Hs).
      rewrite andb_false_r. reflexivity.
    - replace (Nat.leb (length x) (length ub)) with false
        by (symmetry; apply Nat.leb_gt; exact Hs).
      rewrite !andb_false_r. reflexivity. }
  rewrite Hf. reflexivity.
Qed.

Lemma seed_run_inv x_init x_lb x_ub s0 s1 s :
  init' x_init x_lb x_ub = Ok (s0, s1, s) ->
  run_inv avg_cov_func opts (length x_init) s0 s1 s.
Proof. exact (seed_invariants x_init x_lb x_ub s0 s1 s). Qed.

Lemma body_run_inv n s0 s1 t t' b :
  run_inv avg_cov_func opts n s0 s1 t ->
  (function_count t <? max_evals opts)%Z = true ->
  body' n s0 s1 t = Ok (t', b) ->
  run_inv avg_cov_func opts n s0 s1 t'.
Proof.
  intros (Hh & Hl & Hn & Hs & Hr & Hw & Hsp & Hc & Hq) _ Hb.
  destruct (body_counters _ _ _ _ _ _ _ _ _ _ _ _ Hb) as (Hlen & _ & Hd).
  split; [eapply body_hist_ok; eauto|].
  split; [eapply body_locals_ok; eauto|].
  split; [eapply body_never_worse; eauto|].
  split; [eapply body_strict_ok; eauto|].
  split; [eapply body_last_record_ok; eauto|].
  split; [congruence|].
  split; [eapply body_spent; eauto|].
  destruct (body_spec _ _ _ _ _ _ _ _ _ _ _ _ Hb)
    as (_ & _ & p2 & p3 & _ & _ & _ & _ & _ & _ & _ & Hcase).
  unfold quads in *. rewrite Hd.
  destruct Hcase as [(_ & _ & El)|(p4 & _ & _ & El)]; rewrite El;
    cbn [filter is_quad length]; lia.
Qed.

Lemma run_final fuel x_init x_lb x_ub s0 s1 s why t :
  init' x_init x_lb x_ub = Ok (s0, s1, s) ->
  run' fuel x_init x_lb x_ub = Some (Ok (why, t)) ->
  loop' (length x_init) s0 s1 fuel s = Some (Ok (why, t)) /\
  run_inv avg_cov_func opts (length x_init) s0 s1 t.
Proof.
  intros Hi Hr. unfold run in Hr. rewrite Hi in Hr. split; [exact Hr|].
  eapply (loop_invariant avg_cov_func box_constraint randn linalg_norm
            linalg_solve opts (length x_init) s0 s1
            (run_inv avg_cov_func opts (length x_init) s0 s1));
    eauto using body_run_inv, seed_run_inv.
Qed.

Lemma reaches_run_inv x_init x_lb x_ub s0 s1 s t b :
  init' x_init x_lb x_ub = Ok (s0, s1, s) ->
  reaches' (length x_init) s0 s1 s t b ->
  run_inv avg_cov_func opts (length x_init) s0 s1 t.
Proof.
  intros Hi Hr.
  eapply (reaches_invariant avg_cov_func box_constraint randn linalg_norm
            linalg_solve opts (length x_init) s0 s1
            (run_inv avg_cov_func opts (length x_init) s0 s1));
    eauto using body_run_inv, seed_run_inv.
Qed.

(** X2. When [linalg.solve] raises nothing but LinAlgError and every
    Evaluator call reports at least one evaluation, a call of [orsopt] that
    raises, raises ValueError (shapes that do not combine, an empty
    constraint vector), LinAlgError, OverflowError (a count too large for
    a float) or, with the messages on, IndexError from the summary.  The
    history table is never indexed out of range, the budget is never a
    zero divisor, and no local is read before its assignment. *)
Theorem only_listed_errors_are_raised fuel x_init x_lb x_ub e :
  (forall A b e', linalg_solve A b = Raise e' -> e' = LinAlgError) ->
  (forall x a d, (1 <= nAvg (avg_cov_func x a d))%Z) ->
  orsopt avg_cov_func box_constraint randn linalg_norm linalg_solve opts
      fuel x_init x_lb x_ub = Some (Raise e) ->
  e = ValueError \/ e = LinAlgError \/ e = OverflowError \/
  (e = IndexError /\ msglev opts <> 0%Z).
Proof.
  intros Hsolve Hinc H. unfold orsopt in H.
  destruct (init' x_init x_lb x_ub) as [[[s0 s1] s]|e'] eqn:Hi.
  2:{ injection H as <-. destruct (init_raise _ _ _ _ Hi) as [-> | ->]; auto. }
  set (P := fun t => run_inv avg_cov_func opts (length x_init) s0 s1 t /\
                     width_ok opts t).
  assert (HP : forall t t' b,
             P t -> (function_count t <? max_evals opts)%Z = true ->
             body' (length x_init) s0 s1 t = Ok (t', b) -> P t').
  { intros t t' b (Ht & Hw) Hg Hb. split;
      eauto using body_run_inv, body_width_ok. }
  assert (Hs : P s).
  { split; [exact (seed_run_inv _ _ _ _ _ _ Hi)|].
    destruct (seed_invariants _ _ _ _ _ _ Hi)
      as (_ & _ & _ & _ & _ & Hw & _).
    destruct (init_inv _ _ _ _ _ _ _ _ Hi) as (xn & _ & Ha).
    destruct (analyze_seed _ _ _ _ _ _ _ Ha)
      as (_ & _ & _ & _ & _ & _ & _ & _ & _ & Hcount & Hit & _).
    pose proof (Hinc xn s0 s1). split; [exact Hw|]. rewrite Hit, Hcount. lia. }
  destruct (loop' (length x_init) s0 s1 fuel s) as [[[why t]|e']|] eqn:Hl;
    try discriminate.
  - cbv zeta in H. injection H as H.
    pose proof (loop_invariant _ _ _ _ _ _ _ _ _ P HP _ _ _ _ Hs Hl)
      as ((Hh & _) & _).
    destruct (finalize_cases _ _ _ _ _ _ _ _ H) as [E|[E|E]]; auto.
    destruct (finalize_hist_spec _ _ Hh) as (h & Eh & _).
    rewrite Eh in E. discriminate.
  - injection H as <-.
    destruct (loop_raise _ _ _ _ _ _ _ _ _ P HP _ _ _ Hs Hl)
      as (t & ((Hh & Hlo & _) & Hw) & Hg & Hb).
    destruct (body_raise _ _ _ _ _ _ _ _ _ _ _ Hsolve Hinc Hg Hh Hw Hlo Hb)
      as [E|[E|E]]; auto.
Qed.

(** X3. Whatever the Evaluator and the projector return, [orsopt] never
    reads [g1] or [c4] before their first assignment: it does not raise
    UnboundLocalError. *)
Theorem locals_are_always_bound fuel x_init x_lb x_ub e :
  (forall A b e', linalg_solve A b = Raise e' -> e' = LinAlgError) ->
  orsopt avg_cov_func box_constraint randn linalg_norm linalg_solve opts
      fuel x_init x_lb x_ub = Some (Raise e) ->
  e <> UnboundLocalError.
Proof.
  intros Hsolve H. unfold orsopt in H.
  destruct (init' x_init x_lb x_ub) as [[[s0 s1] s]|e'] eqn:Hi.
  2:{ injection H as <-.
      destruct (init_raise _ _ _ _ Hi) as [-> | ->]; discriminate. }
  pose proof (seed_run_inv _ _ _ _ _ _ Hi) as Hs.
  destruct (loop' (length x_init) s0 s1 fuel s) as [[[why t]|e']|] eqn:Hl;
    try discriminate.
  - cbv zeta in H. injection H as H.
    destruct (finalize_raise _ _ _ _ _ _ _ _ H) as [-> | ->]; discriminate.
  - injection H as <-.
    destruct (loop_raise avg_cov_func box_constraint randn linalg_norm
                linalg_solve opts (length x_init) s0 s1
                (run_inv avg_cov_func opts (length x_init) s0 s1)
                (body_run_inv _ _ _) _ _ _ Hs Hl)
      as (t & (_ & Hlo & _) & _ & Hb).
    eapply body_never_unbound; eauto.
Qed.

(** *** The evaluation count *)

(** X4. When the loop is left, the cumulative count is the sum of the
    increments the Evaluator reported for the calls made, and the calls are
    the seed evaluation, two probes for every pass and one more for every
    pass that evaluated a quadratic-refined candidate. *)
Theorem count_is_sum_of_increments fuel x_init x_lb x_ub s0 s1 s why t :
  init' x_init x_lb x_ub = Ok (s0, s1, s) ->
  run' fuel x_init x_lb x_ub = Some (Ok (why, t)) ->
  function_count t = spent avg_cov_func s0 s1 (calls t) /\
  length (calls t) = 1 + 2 * draws t + quads t /\
  quads t <= draws t.
Proof.
  intros Hi Hr.
  destruct (run_final _ _ _ _ _ _ _ _ _ Hi Hr)
    as (_ & _ & _ & _ & _ & _ & _ & Hsp & Hc & Hq).
  auto.
Qed.

(** X5. When no Evaluator call reports more than [m] evaluations, the
    final count exceeds the last count below the budget by at most one
    pass: it is at most [max_evals - 1 + 3 * m], or the seed's own count
    when the loop is not entered. *)
Theorem count_overshoot_is_bounded m fuel x_init x_lb x_ub why t :
  (0 <= m)%Z ->
  (forall x a d, (nAvg (avg_cov_func x a d) <= m)%Z) ->
  run avg_cov_func box_constraint randn linalg_norm linalg_solve opts
      fuel x_init x_lb x_ub = Some (Ok (why, t)) ->
  (function_count t <= Z.max m (max_evals opts - 1 + 3 * m))%Z.
Proof.
  intros Hm Hinc Hr. unfold run in Hr.
  destruct (init' x_init x_lb x_ub) as [[[s0 s1] s]|e'] eqn:Hi;
    [|discriminate].
  eapply (loop_invariant avg_cov_func box_constraint randn linalg_norm
            linalg_solve opts (length x_init) s0 s1
            (fun u => (function_count u
                       <= Z.max m (max_evals opts - 1 + 3 * m))%Z));
    [| |exact Hr].
  - intros u u' b _ Hg Hb. apply Z.ltb_lt in Hg.
    destruct (body_spec _ _ _ _ _ _ _ _ _ _ _ _ Hb)
      as (_ & _ & p2 & p3 & _ & _ & _ & _ & _ & _ & _ & Hcase).
    pose proof (Hinc p2 s0 s1). pose proof (Hinc p3 s0 s1).
    destruct Hcase as [(_ & E & _)|(p4 & _ & E & _)]; rewrite E;
      [|pose proof (Hinc p4 s0 s1)]; lia.
  - destruct (init_inv _ _ _ _ _ _ _ _ Hi) as (xn & _ & Ha).
    destruct (analyze_seed _ _ _ _ _ _ _ Ha)
      as (_ & _ & _ & _ & _ & _ & _ & _ & _ & Hcount & _).
    pose proof (Hinc xn s0 s1). lia.
Qed.

(** *** How the loop is left *)

(** X6. The reason a run stops is borne out by its final state: exhaustion
    with a count at or above the budget; a feasible stop with the flag set
    and the largest constraint of the incumbent below the tolerance; a
    convergence stop after at least one improving pass, with a ratio below
    its tolerance and the feasible stop not applying. *)
Theorem stop_reason_is_justified fuel x_init x_lb x_ub why t :
  run' fuel x_init x_lb x_ub = Some (Ok (why, t)) ->
  match why with
  | Exhausted => (max_evals opts <= function_count t)%Z
  | Feasible =>
      find_feas opts = true /\
      exists mg, np_max (g_opt t) = Ok mg /\ (mg <? tol_g opts)%float = true
  | Converged =>
      1 <= accepted t /\
      ((cvg_x t <? tol_x opts)%float || (cvg_f t <? tol_f opts)%float) = true /\
      exists mg, np_max (g_opt t) = Ok mg /\
                 ((mg <? tol_g opts)%float && find_feas opts) = false
  end.
Proof.
  intros Hr.
  destruct (init' x_init x_lb x_ub) as [[[s0 s1] s]|e'] eqn:Hi;
    [|unfold run in Hr; rewrite Hi in Hr; discriminate].
  destruct (run_final _ _ _ _ _ _ _ _ _ Hi Hr) as (Hl & (Hit & Hacc & _) & _).
  destruct (loop_stop _ _ _ _ _ _ _ _ _ _ _ _ _ Hl) as [(-> & Hg)|Ht].
  - apply Z.ltb_ge. exact Hg.
  - unfold termination in Ht.
    destruct (np_max (g_opt t)) as [mg|] eqn:Hm; cbn [Py.bind] in Ht;
      [|discriminate].
    destruct ((mg <? tol_g opts)%float && find_feas opts) eqn:Hf.
    + injection Ht as <-. apply andb_prop in Hf. destruct Hf. eauto.
    + destruct (Nat.ltb 1 (iteration t) && _) eqn:Hc; [|discriminate].
      injection Ht as <-. apply andb_prop in Hc. destruct Hc as (H1 & H2).
      apply Nat.ltb_lt in H1. split; [lia|]. split; [exact H2|]. eauto.
Qed.

(** *** What is returned *)

Lemma finalize_spec n s0 s1 xi lb ub t out :
  finalize opts n s0 s1 xi lb ub t = Ok out ->
  unscale s0 s1 (x_opt t) = Ok (x_opt_out out) /\
  f_opt_out out = f_opt t /\ g_opt_out out = g_opt t /\
  finalize_hist (iteration t) (cvg_hst t) = Ok (out_hist out).
Proof.
  unfold finalize. intros H.
  destruct (vmul s1 xi) as [a|]; cbn [Py.bind] in H; [|discriminate].
  destruct (vadd s0 a) as [u|]; cbn [Py.bind] in H; [|discriminate].
  destruct (vsub u s0) as [v|]; cbn [Py.bind] in H; [|discriminate].
  destruct (vdiv v s1) as [w|]; cbn [Py.bind] in H; [|discriminate].
  destruct (unscale s0 s1 (x_opt t)) as [xo|]; cbn [Py.bind] in H;
    [|discriminate].
  destruct (if (msglev opts =? 0)%Z then _ else _) as [[]|];
    cbn [Py.bind] in H; [|discriminate].
  destruct (finalize_hist _ _) as [h|]; cbn [Py.bind] in H; [|discriminate].
  injection H as <-. repeat split; reflexivity.
Qed.

Lemma Forall_firstn_keeps {A} (P : A -> Prop) k l :
  Forall P l -> Forall P (firstn k l).
Proof.
  intros H. revert k. induction H as [|x l Hx Hl IH]; intros [|k]; cbn;
    constructor; auto.
Qed.

Lemma finalize_hist_rows n s h :
  hist_ok n s ->
  finalize_hist (iteration s) (cvg_hst s) = Ok h ->
  Forall (fun c => length c = n + 5) h.
Proof.
  intros (_ & _ & Hrows & _) H. unfold finalize_hist in H.
  set (out := firstn (Nat.max 1 (iteration s)) (cvg_hst s)) in *.
  assert (Hout : Forall (fun c => length c = n + 5) out)
    by (apply Forall_firstn_keeps; exact Hrows).
  unfold get_col in H at 1.
  destruct (nth_error out (length out - 1)) as [lastc|] eqn:El;
    cbn [Py.bind] in H; [|discriminate].
  destruct (negb (is_finite (last lastc nan))).
  - destruct (get_col _ out) as [src|]; cbn [Py.bind] in H; [|discriminate].
    injection H as <-. apply Forall_set_nth; [exact Hout|].
    rewrite Forall_forall in Hout.
    pose proof (Hout _ (nth_error_In _ _ El)) as L.
    rewrite set_last_length; [exact L|].
    intros E. rewrite E in L. cbn in L. lia.
  - injection H as <-. exact Hout.
Qed.

(** X7. The first column of the returned table is the record of the seed
    evaluation, in every cell: the Evaluator's point back in original
    units, its objective, its largest constraint, the count after the seed
    evaluation, and the two ratios at their initial value 1.  No pass
    rewrites it and the final back-fill leaves it as it is. *)
Theorem first_column_is_the_seed_record fuel x_init x_lb x_ub s0 s1 xn out :
  normalize x_init (fst (bounds x_init x_lb x_ub))
            (snd (bounds x_init x_lb x_ub)) = Ok (s0, s1, xn) ->
  orsopt' fuel x_init x_lb x_ub = Some (Ok out) ->
  let e := avg_cov_func xn s0 s1 in
  exists xx mg,
    unscale s0 s1 (xv e) = Ok xx /\ np_max (gv e) = Ok mg /\
    forall i, cell (out_hist out) i 0
              = nth i (record_col xx (fv e) mg (0 + nAvg e) 1 1) nan.
Proof.
  intros Hn H e.
  destruct (orsopt_inv _ _ _ _ _ _ _ _ _ _ _ H)
    as (s0' & s1' & s & why & t & Hi & Hl & _ & Hf & Hok & _).
  destruct (init_inv _ _ _ _ _ _ _ _ Hi) as (xn' & Hn' & Ha).
  rewrite Hn in Hn'. injection Hn' as <- <- <-.
  destruct (analyze_spec _ _ _ _ _ Ha) as (xx & mg & Hx & _ & Hm & Hh & _).
  fold e in Hx, Hm, Hh.
  exists xx, mg. split; [exact Hx|]. split; [exact Hm|].
  set (c0 := record_col xx (fv e) mg (0 + nAvg e) 1 1) in *.
  assert (Hs0 : nth_error (cvg_hst s) 0 = Some c0).
  { destruct (seed_invariants _ _ _ _ _ _ Hi)
      as (_ & _ & _ & _ & _ & Hw & _).
    rewrite Hh in Hw |- *. rewrite set_nth_length in Hw.
    apply nth_error_set_nth_eq. rewrite Hw. lia. }
  assert (Ht : hist_ok (length x_init) t /\
               nth_error (cvg_hst t) 0 = Some c0).
  { eapply (loop_invariant avg_cov_func box_constraint randn linalg_norm
              linalg_solve opts (length x_init) s0 s1
              (fun u => hist_ok (length x_init) u /\
                        nth_error (cvg_hst u) 0 = Some c0)); [| |exact Hl].
    - intros u u' b (Hu & Hc) _ Hb. split; [eapply body_hist_ok; eauto|].
      rewrite <- Hc. eapply body_keeps_columns; [exact Hb|].
      destruct Hu as (Hit & _). lia.
    - split; [|exact Hs0].
      destruct (seed_invariants _ _ _ _ _ _ Hi) as (Hs & _). exact Hs. }
  destruct Ht as (_ & Ht).
  destruct (finalize_spec _ _ _ _ _ _ _ _ Hf) as (_ & _ & _ & Hfh).
  destruct (finalize_hist_spec _ _ Hok) as (h & Hh' & Hlen & Hcell & Hlast).
  rewrite Hfh in Hh'. injection Hh' as <-.
  intros i.
  assert (Hc0 : cell (cvg_hst t) i 0 = nth i c0 nan).
  { exact (f_equal (fun c => nth i c nan) (nth_error_nth _ _ [] Ht)). }
  rewrite <- Hc0.
  destruct Hok as ((Hit1 & _) & _).
  destruct (Nat.eq_dec (iteration t) 1) as [E1|E1].
  - destruct (Nat.eq_dec i (length x_init + 4)) as [->|Hi4].
    + rewrite E1 in Hlast. cbn [Nat.sub Nat.max] in Hlast. rewrite Hlast.
      destruct (is_finite _); reflexivity.
    + apply Hcell; [lia|right; exact Hi4].
  - apply Hcell; [lia|left; lia].
Qed.

(** X8. The returned incumbent is the one of the last column of the
    returned table: its variables are the first [n] cells of that column,
    its objective the next cell, and the largest of its constraints the
    cell after that. *)
Theorem returned_incumbent_is_the_last_record fuel x_init x_lb x_ub out :
  orsopt' fuel x_init x_lb x_ub = Some (Ok out) ->
  let n := length x_init in
  let k := length (out_hist out) in
  length (x_opt_out out) = n /\
  (forall i, i < n ->
             cell (out_hist out) i (k - 1) = nth i (x_opt_out out) nan) /\
  cell (out_hist out) n (k - 1) = f_opt_out out /\
  np_max (g_opt_out out) = Ok (cell (out_hist out) (n + 1) (k - 1)).
Proof.
  intros H n k.
  destruct (orsopt_inv _ _ _ _ _ _ _ _ _ _ _ H)
    as (s0 & s1 & s & why & t & Hi & _ & Hr & Hf & Hok & _).
  destruct (run_final _ _ _ _ _ _ _ _ _ Hi Hr)
    as (_ & _ & _ & _ & _ & (xx & mg & Hx & Hm & Hcol) & _).
  destruct (finalize_spec _ _ _ _ _ _ _ _ Hf) as (Hxo & Hfo & Hgo & Hfh).
  rewrite Hx in Hxo. injection Hxo as Hxo.
  destruct (finalize_hist_spec _ _ Hok) as (h & Hh' & Hlen & Hcell & _).
  rewrite Hfh in Hh'. injection Hh' as <-.
  assert (Hlx : length xx = n).
  { destruct Hok as (_ & _ & Hrows & _). rewrite Forall_forall in Hrows.
    pose proof (Hrows _ (nth_error_In _ _ Hcol)) as L.
    unfold record_col in L. rewrite length_app in L. cbn in L.
    fold n in L. lia. }
  assert (Hk : k = iteration t) by exact Hlen.
  assert (Hc : forall i, i <> n + 4 ->
             cell (out_hist out) i (k - 1)
             = nth i (record_col xx (f_opt t) mg (last_update t)
                                 (cvg_x t) (cvg_f t)) nan).
  { intros i Hi4. destruct Hok as ((Hit1 & _) & _).
    rewrite Hk, Hcell by (try lia; right; exact Hi4).
    exact (f_equal (fun c => nth i c nan) (nth_error_nth _ _ [] Hcol)). }
  rewrite <- Hxo, Hfo, Hgo, Hm.
  split; [exact Hlx|]. split; [|split].
  - intros i Hlt. rewrite Hc by lia. unfold record_col.
    apply app_nth1. lia.
  - rewrite Hc by lia. unfold record_col. rewrite app_nth2 by lia.
    rewrite Hlx, Nat.sub_diag. reflexivity.
  - rewrite Hc by lia. unfold record_col. rewrite app_nth2 by lia.
    replace (n + 1 - length xx) with 1 by lia. reflexivity.
Qed.

(** X9. The returned table has at least one column and at most
    [max(1, max_evals)], the width it was allocated with, and every column
    has [n + 5] rows. *)
Theorem returned_table_dimensions fuel x_init x_lb x_ub out :
  orsopt avg_cov_func box_constraint randn linalg_norm linalg_solve opts
      fuel x_init x_lb x_ub = Some (Ok out) ->
  1 <= length (out_hist out) <= Z.to_nat (Z.max 1 (max_evals opts)) /\
  Forall (fun c => length c = length x_init + 5) (out_hist out).
Proof.
  intros H.
  destruct (orsopt_inv _ _ _ _ _ _ _ _ _ _ _ H)
    as (s0 & s1 & s & why & t & Hi & _ & Hr & Hf & Hok & _).
  destruct (run_final _ _ _ _ _ _ _ _ _ Hi Hr)
    as (_ & _ & _ & _ & _ & _ & Hw & _).
  destruct (finalize_spec _ _ _ _ _ _ _ _ Hf) as (_ & _ & _ & Hfh).
  split; [|eapply finalize_hist_rows; eauto].
  destruct (finalize_hist_spec _ _ Hok) as (h & Hh' & Hlen & _).
  rewrite Hfh in Hh'. injection Hh' as <-.
  destruct Hok as (Hit & _). rewrite Hlen, <- Hw. exact Hit.
Qed.

(** X10. From one column of the returned table to the next the objective
    decreases strictly. *)
Theorem recorded_objective_strictly_decreases fuel x_init x_lb x_ub out :
  orsopt' fuel x_init x_lb x_ub = Some (Ok out) ->
  forall j, S j < length (out_hist out) ->
    (obj_at (length x_init) (out_hist out) (S j)
       <? obj_at (length x_init) (out_hist out) j)%float = true.
Proof.
  intros H j Hj.
  destruct (orsopt_inv _ _ _ _ _ _ _ _ _ _ _ H)
    as (s0 & s1 & s & why & t & Hi & _ & Hr & Hf & Hok & _).
  destruct (run_final _ _ _ _ _ _ _ _ _ Hi Hr)
    as (_ & _ & _ & _ & Hstrict & _).
  destruct (finalize_spec _ _ _ _ _ _ _ _ Hf) as (_ & _ & _ & Hfh).
  destruct (finalize_hist_spec _ _ Hok) as (h & Hh & Hlen & Hcell & _).
  rewrite Hfh in Hh. injection Hh as <-.
  change (obj_at (length x_init) (out_hist out))
    with (cell (out_hist out) (length x_init)).
  rewrite !Hcell by (try lia; right; lia).
  apply Hstrict. lia.
Qed.

(** X11. The returned objective is the seed's objective or strictly below
    it. *)
Theorem returned_objective_not_above_seed fuel x_init x_lb x_ub s0 s1 xn out :
  normalize x_init (fst (bounds x_init x_lb x_ub))
            (snd (bounds x_init x_lb x_ub)) = Ok (s0, s1, xn) ->
  orsopt' fuel x_init x_lb x_ub = Some (Ok out) ->
  let f_seed := fv (avg_cov_func xn s0 s1) in
  f_opt_out out = f_seed \/ (f_opt_out out <? f_seed)%float = true.
Proof.
  intros Hn H f_seed.
  destruct (orsopt_inv _ _ _ _ _ _ _ _ _ _ _ H)
    as (s0' & s1' & s & why & t & Hi & Hl & Hr & Hf & _).
  destruct (init_inv _ _ _ _ _ _ _ _ Hi) as (xn' & Hn' & Ha).
  rewrite Hn in Hn'. injection Hn' as <- <- <-.
  destruct (analyze_seed _ _ _ _ _ _ _ Ha) as (_ & H0 & _).
  destruct (run_final _ _ _ _ _ _ _ _ _ Hi Hr) as (_ & _ & _ & Hnw & _).
  destruct (finalize_spec _ _ _ _ _ _ _ _ Hf) as (_ & Hfo & _).
  assert (Hfa : fa0 (fa t) = fa0 (fa s)).
  { eapply (loop_invariant avg_cov_func box_constraint randn linalg_norm
              linalg_solve opts (length x_init) s0 s1
              (fun u => fa0 (fa u) = fa0 (fa s))); [|reflexivity|exact Hl].
    intros u u' b Hu _ Hb. rewrite <- Hu. eapply body_fa0; eauto. }
  unfold never_worse in Hnw. rewrite Hfa, H0 in Hnw. rewrite Hfo. exact Hnw.
Qed.

(** *** Edge cases *)

(** X12. When the seed evaluation alone uses up the budget (a budget of
    zero or one, or an Evaluator that averages over many samples), the
    loop body never runs, whatever the fuel: the run ends by exhaustion in
    the seed state after a single Evaluator call.  The call then returns
    the seed's objective with a one-column table when the messages are
    off or both bounds have as many entries as [x_init]; with the
    messages on and a bound with fewer entries, the summary raises
    IndexError. *)
Theorem seed_exhausting_budget_skips_loop fuel x_init x_lb x_ub s0 s1 s :
  init avg_cov_func opts x_init x_lb x_ub = Ok (s0, s1, s) ->
  (max_evals opts <= function_count s)%Z ->
  let lb := fst (bounds x_init x_lb x_ub) in
  let ub := snd (bounds x_init x_lb x_ub) in
  run avg_cov_func box_constraint randn linalg_norm linalg_solve opts
      fuel x_init x_lb x_ub = Some (Ok (Exhausted, s)) /\
  length (calls s) = 1 /\
  (msglev opts = 0%Z \/
   (length lb = length x_init /\ length ub = length x_init) ->
   exists out,
     orsopt avg_cov_func box_constraint randn linalg_norm linalg_solve opts
       fuel x_init x_lb x_ub = Some (Ok out) /\
     f_opt_out out = f_opt s /\ length (out_hist out) = 1) /\
  (msglev opts <> 0%Z ->
   length lb < length x_init \/ length ub < length x_init ->
   orsopt avg_cov_func box_constraint randn linalg_norm linalg_solve opts
     fuel x_init x_lb x_ub = Some (Raise IndexError)).
Proof.
  intros Hi Hb lb ub.
  assert (Hl : loop' (length x_init) s0 s1 fuel s = Some (Ok (Exhausted, s))).
  { destruct fuel; cbn [loop];
      (destruct (Z.ltb_spec (function_count s) (max_evals opts));
       [lia|reflexivity]). }
  destruct (init_inv _ _ _ _ _ _ _ _ Hi) as (xn & Hn & Ha).
  destruct (analyze_seed _ _ _ _ _ _ _ Ha)
    as (Hc & _ & _ & _ & _ & _ & _ & _ & _ & _ & Hit & _).
  destruct (seed_invariants _ _ _ _ _ _ Hi)
    as (Hok & _ & _ & _ & Hrec & _).
  split; [unfold run; rewrite Hi; exact Hl|].
  split; [rewrite Hc; reflexivity|].
  split.
  - intros Hcase.
    destruct (finalize_returns _ _ _ _ _ _ _ Hn Hok Hrec Hcase)
      as (out & Hf & Hfo & Hlen).
    exists out. unfold orsopt. rewrite Hi, Hl. cbv zeta.
    split; [rewrite Hf; reflexivity|]. split; [exact Hfo|].
    rewrite Hlen. exact Hit.
  - intros Hm Hshort. unfold orsopt. rewrite Hi, Hl. cbv zeta.
    rewrite (finalize_short_bounds _ _ _ _ _ _ _ Hn Hok Hrec Hm Hshort).
    reflexivity.
Qed.

(** X13. An Evaluator that returns an empty constraint vector for the seed
    makes the call raise ValueError ([np.max] of an empty array) before
    any pass of the loop. *)
Theorem empty_constraints_raise fuel x_init x_lb x_ub s0 s1 xn :
  normalize x_init (fst (bounds x_init x_lb x_ub))
            (snd (bounds x_init x_lb x_ub)) = Ok (s0, s1, xn) ->
  gv (avg_cov_func xn s0 s1) = [] ->
  orsopt' fuel x_init x_lb x_ub = Some (Raise ValueError).
Proof.
  intros Hn Hg. unfold orsopt, init. rewrite Hn. cbn [Py.bind].
  unfold analyze. rewrite Hg.
  destruct (unscale s0 s1 (xv (avg_cov_func xn s0 s1))) as [xx|e] eqn:Ex;
    cbn [Py.bind np_max]; [reflexivity|].
  rewrite (unscale_raise _ _ _ _ Ex). reflexivity.
Qed.

(** X14. Bounds of different lengths, neither of length one, do not
    broadcast: the call raises ValueError before the Evaluator is
    called. *)
Theorem mismatched_bounds_raise fuel x_init lb ub :
  length lb <> length ub -> length lb <> 1 -> length ub <> 1 ->
  orsopt avg_cov_func box_constraint randn linalg_norm linalg_solve opts
      fuel x_init (Some lb) (Some ub) = Some (Raise ValueError).
Proof.
  intros Hne Hl Hu.
  assert (Hb : vadd lb ub = Raise ValueError).
  { unfold vadd, bop. destruct (Nat.eqb_spec (length lb) (length ub));
      [contradiction|].
    destruct lb as [|a [|a' lb]]; destruct ub as [|b [|b' ub]];
      cbn in Hl, Hu; try reflexivity; congruence. }
  unfold orsopt, init, bounds, normalize, scaling. cbn [fst snd].
  rewrite Hb. reflexivity.
Qed.

(** X15. In a pass whose selection returns index 0 nothing was better than
    the base point: no record is written, the incumbent and the step scale
    stay as they were, and the base point is only clipped again. *)
Theorem stagnant_pass_changes_nothing x_init x_lb x_ub s0 s1 s t t' b :
  init' x_init x_lb x_ub = Ok (s0, s1, s) ->
  reaches' (length x_init) s0 s1 s t None ->
  body' (length x_init) s0 s1 t = Ok (t', b) ->
  i_min t' = 0 ->
  accepted t' = accepted t /\ cvg_hst t' = cvg_hst t /\
  x_opt t' = x_opt t /\ f_opt t' = f_opt t /\ g_opt t' = g_opt t /\
  sigma t' = sigma t /\ x1 t' = clip (x1 t).
Proof.
  intros Hi Hr Hb Hm.
  destruct (reaches_run_inv _ _ _ _ _ _ _ _ Hi Hr) as (_ & _ & Hnw & _).
  destruct (body_inv _ _ _ _ _ _ _ _ _ _ _ _ Hb)
    as (sc & ss & Hc & Hsel & Hinc & _).
  destruct (candidates_frame _ _ _ _ _ _ _ _ _ _ Hc)
    as (Hx1 & _ & Hsg & _ & Hh1 & Hxo1 & Hf1 & Hg1 & _ & _ & Ha1 & _).
  destruct (select_frame _ _ _ Hsel)
    as (_ & _ & _ & _ & _ & _ & Hh2 & Hxo2 & Hf2 & Hg2 & _ & _ & Ha2 & _).
  destruct (incumbent_frame _ _ _ _ _ _ Hinc)
    as (_ & _ & _ & _ & _ & _ & _ & _ & _ & Him & _).
  rewrite Hm in Him. symmetry in Him.
  destruct (select_base _ _ _ Hsel Him) as (Hs & Hx).
  assert (E : t' = ss).
  { unfold incumbent in Hinc. rewrite Him in Hinc. cbn [cost_at] in Hinc.
    rewrite (select_fa _ _ _ Hsel), (candidates_fa0 _ _ _ _ _ _ _ _ _ _ Hc),
      Hf2, Hf1, (never_worse_not_above _ Hnw) in Hinc.
    injection Hinc as <-. reflexivity. }
  subst t'. rewrite Ha2, Ha1, Hh2, Hh1, Hxo2, Hxo1, Hf2, Hf1, Hg2, Hg1,
    Hs, Hsg, Hx, Hx1.
  repeat split; reflexivity.
Qed.

Lemma termination_ext a b :
  g_opt a = g_opt b -> iteration a = iteration b ->
  cvg_x a = cvg_x b -> cvg_f a = cvg_f b ->
  termination opts a = termination opts b.
Proof. unfold termination. intros -> -> -> ->. reflexivity. Qed.

(** X16. The loop breaks only at the end of a pass that improved the
    incumbent, with one exception: the first pass after the seed
    evaluation may stop as feasible without an improvement.  A pass that
    does not improve the incumbent leaves what the termination checks read
    as the pass before left it. *)
Theorem break_follows_an_improvement x_init x_lb x_ub s0 s1 s t t' why :
  init avg_cov_func opts x_init x_lb x_ub = Ok (s0, s1, s) ->
  reaches avg_cov_func box_constraint randn linalg_norm linalg_solve opts
      (length x_init) s0 s1 s t None ->
  body avg_cov_func box_constraint randn linalg_norm linalg_solve opts
      (length x_init) s0 s1 t = Ok (t', Some why) ->
  accepted t' = accepted t ->
  draws t = 0 /\ why = Feasible.
Proof.
  intros Hi Hr Hb Hacc.
  destruct (body_inv _ _ _ _ _ _ _ _ _ _ _ _ Hb)
    as (sc & ss & Hc & Hsel & Hinc & Hterm).
  destruct (candidates_frame _ _ _ _ _ _ _ _ _ _ Hc)
    as (_ & _ & _ & Hit1 & _ & _ & _ & Hg1 & Hx1 & Hf1 & Ha1 & _).
  destruct (select_frame _ _ _ Hsel)
    as (_ & _ & _ & _ & _ & Hit2 & _ & _ & _ & Hg2 & Hx2 & Hf2 & Ha2 & _).
  assert (E : t' = ss).
  { eapply incumbent_not_improved; [exact Hinc|]. congruence. }
  subst t'.
  assert (Ht : termination opts t = Ok (Some why)).
  { rewrite <- Hterm. apply termination_ext; congruence. }
  inversion Hr as [|u t0 b0 Hu Hg Hbu]; subst.
  - destruct (init_inv _ _ _ _ _ _ _ _ Hi) as (xn & _ & Ha).
    destruct (analyze_seed _ _ _ _ _ _ _ Ha)
      as (_ & _ & _ & _ & _ & _ & _ & _ & _ & _ & Hit & _ & Hd).
    split; [exact Hd|].
    unfold termination in Ht. rewrite Hit in Ht.
    destruct (np_max (g_opt t)) as [mg|]; cbn [Py.bind] in Ht;
      [|discriminate].
    destruct ((mg <? tol_g opts)%float && find_feas opts);
      cbn [Nat.ltb Nat.leb andb] in Ht; congruence.
  - destruct (body_inv _ _ _ _ _ _ _ _ _ _ _ _ Hbu)
      as (_ & _ & _ & _ & _ & Hnone).
    rewrite Hnone in Ht. discriminate.
Qed.

End FurtherFacts.

(* ===================================================================== *)
(** ** The further properties on the worked runs *)
(* ===================================================================== *)

Lemma eliminate_raise fuel col rows e :
  eliminate fuel col rows = Raise e -> e = LinAlgError.
Proof.
  revert col rows. induction fuel as [|fuel IH]; intros col rows H;
    [discriminate|].
  cbn [eliminate] in H. destruct rows as [|r0 rows']; [discriminate|].
  destruct (swap_first _ _) as [|p rest]; [discriminate|].
  destruct (PrimFloat.eqb _ _); [congruence|].
  destruct (eliminate fuel (S col) _) as [u|e'] eqn:E; cbn [Py.bind] in H;
    [discriminate|].
  injection H as <-. exact (IH _ _ E).
Qed.

Lemma solve_raise A b e : solve A b = Raise e -> e = LinAlgError.
Proof.
  unfold solve. destruct (_ && _); [|congruence].
  destruct (eliminate _ _ _) as [u|e'] eqn:E; cbn [Py.bind];
    [discriminate|].
  intros H. injection H as <-. exact (eliminate_raise _ _ _ _ E).
Qed.

Section FurtherRuns.

Import Demo.
Local Open Scope float_scope.

Lemma well_nAvg x a d : (1 <= nAvg (well_eval x a d) <= 1)%Z.
Proof. cbn. lia. Qed.

(** X1, witness: run A with fuel for twenty passes. *)
Lemma orsopt_terminates_witness : exists r, well_orsopt = Some r.
Proof.
  apply (orsopt_terminates well_eval box_constraint well_randn norm2 solve
           well_opts 20 [-0.75] (Some [-1]) (Some [1])).
  - intros x a d. exact (proj1 (well_nAvg x a d)).
  - cbn. lia.
Defined.

(** X2, witness: run A with an Evaluator whose constraint vector is empty
    away from the initial guess.  The seed evaluation goes through; the
    first pass selects its fourth candidate and raises ValueError when it
    takes the largest constraint of the new incumbent. *)
Lemma only_listed_errors_are_raised_witness :
  init fickle_eval well_opts [-0.75] (Some [-1]) (Some [1])
    = Ok ([-0], [1], well_seed) /\
  body fickle_eval box_constraint well_randn norm2 solve well_opts
       1 [-0] [1] well_seed = Raise ValueError /\
  (ValueError = ValueError \/ ValueError = LinAlgError \/
   ValueError = OverflowError \/
   (ValueError = IndexError /\ msglev well_opts <> 0%Z)).
Proof.
  split; [vm_compute; reflexivity|]. split; [vm_compute; reflexivity|].
  apply (only_listed_errors_are_raised fickle_eval box_constraint well_randn
           norm2 solve well_opts 20 [-0.75] (Some [-1]) (Some [1])).
  - exact solve_raise.
  - intros x a d. cbn. lia.
  - vm_compute. reflexivity.
Defined.

(** X3, witness: the same call.  The pass that raises has selected index 3
    and read [c4] and [g1] before. *)
Lemma locals_are_always_bound_witness :
  rmap i_min
       (s <- candidates fickle_eval box_constraint well_randn norm2 solve
                        1 [-0] [1] well_seed ;;
        select well_opts s) = Ok 3%nat /\
  body fickle_eval box_constraint well_randn norm2 solve well_opts
       1 [-0] [1] well_seed = Raise ValueError /\
  ValueError <> UnboundLocalError.
Proof.
  split; [vm_compute; reflexivity|]. split; [vm_compute; reflexivity|].
  apply (locals_are_always_bound fickle_eval box_constraint well_randn
           norm2 solve well_opts 20 [-0.75] (Some [-1]) (Some [1])).
  - exact solve_raise.
  - vm_compute. reflexivity.
Defined.

(** X4, witness: run A. *)
Lemma count_is_sum_of_increments_witness :
  function_count well_final = spent well_eval [-0] [1] (calls well_final) /\
  length (calls well_final)
    = (1 + 2 * draws well_final + quads well_final)%nat /\
  (quads well_final <= draws well_final)%nat.
Proof.
  apply (count_is_sum_of_increments well_eval box_constraint well_randn
           norm2 solve well_opts 20 [-0.75] (Some [-1]) (Some [1])
           [-0] [1] well_seed Exhausted well_final);
    vm_compute; reflexivity.
Defined.

(** X5, witness: run A, one evaluation per call. *)
Lemma count_overshoot_is_bounded_witness :
  (function_count well_final
   <= Z.max 1 (max_evals well_opts - 1 + 3 * 1))%Z.
Proof.
  apply (count_overshoot_is_bounded well_eval box_constraint well_randn
           norm2 solve well_opts 1 20 [-0.75] (Some [-1]) (Some [1])
           Exhausted well_final).
  - lia.
  - intros x a d. exact (proj2 (well_nAvg x a d)).
  - vm_compute. reflexivity.
Defined.

(** X6, witness: run A ends by exhaustion. *)
Lemma stop_reason_is_justified_witness :
  (max_evals well_opts <= function_count well_final)%Z.
Proof.
  apply (stop_reason_is_justified well_eval box_constraint well_randn
           norm2 solve well_opts 20 [-0.75] (Some [-1]) (Some [1])
           Exhausted well_final).
  vm_compute. reflexivity.
Defined.

(** X7, witness: the table returned by run A. *)
Lemma first_column_is_the_seed_record_witness :
  let e := well_eval [-0.75] [-0] [1] in
  exists xx mg,
    unscale [-0] [1] (xv e) = Ok xx /\ np_max (gv e) = Ok mg /\
    forall i, cell (out_hist well_out) i 0
              = nth i (record_col xx (fv e) mg (0 + nAvg e) 1 1) nan.
Proof.
  apply (first_column_is_the_seed_record well_eval box_constraint well_randn
           norm2 solve well_opts 20 [-0.75] (Some [-1]) (Some [1])
           [-0] [1] [-0.75] well_out);
    vm_compute; reflexivity.
Defined.

(** X8, witness: the table returned by run A. *)
Lemma returned_incumbent_is_the_last_record_witness :
  cell (out_hist well_out) 1 (length (out_hist well_out) - 1)
    = f_opt_out well_out.
Proof.
  apply (returned_incumbent_is_the_last_record well_eval box_constraint
           well_randn norm2 solve well_opts 20 [-0.75] (Some [-1]) (Some [1])
           well_out).
  vm_compute. reflexivity.
Defined.

(** X9, witness: the table returned by run A. *)
Lemma returned_table_dimensions_witness :
  (1 <= length (out_hist well_out)
     <= Z.to_nat (Z.max 1 (max_evals well_opts)))%nat /\
  Forall (fun c => length c = 6%nat) (out_hist well_out).
Proof.
  apply (returned_table_dimensions well_eval box_constraint well_randn
           norm2 solve well_opts 20 [-0.75] (Some [-1]) (Some [1]) well_out).
  vm_compute. reflexivity.
Defined.

(** X10, witness: the two columns returned by run A. *)
Lemma recorded_objective_strictly_decreases_witness :
  (obj_at 1 (out_hist well_out) 1 <? obj_at 1 (out_hist well_out) 0) = true.
Proof.
  apply (recorded_objective_strictly_decreases
           well_eval box_constraint well_randn norm2 solve well_opts
           20 [-0.75] (Some [-1]) (Some [1]) well_out).
  - vm_compute. reflexivity.
  - vm_compute. lia.
Defined.

(** X11, witness: run A. *)
Lemma returned_objective_not_above_seed_witness :
  f_opt_out well_out = fv (well_eval [-0.75] [-0] [1]) \/
  (f_opt_out well_out <? fv (well_eval [-0.75] [-0] [1])) = true.
Proof.
  apply (returned_objective_not_above_seed well_eval box_constraint
           well_randn norm2 solve well_opts 20 [-0.75] (Some [-1]) (Some [1])
           [-0] [1] [-0.75] well_out);
    vm_compute; reflexivity.
Defined.

(** X12, witness: the double well with a budget of one evaluation and no
    fuel at all returns; two variables with bounds of one entry and the
    messages on raise IndexError in the summary. *)
Lemma seed_exhausting_budget_skips_loop_witness :
  run well_eval box_constraint well_randn norm2 solve tight_opts
      0 [-0.75] (Some [-1]) (Some [1]) = Some (Ok (Exhausted, tight_seed)) /\
  length (calls tight_seed) = 1%nat /\
  (exists out,
     orsopt well_eval box_constraint well_randn norm2 solve tight_opts
            0 [-0.75] (Some [-1]) (Some [1]) = Some (Ok out) /\
     f_opt_out out = f_opt tight_seed /\ length (out_hist out) = 1%nat) /\
  orsopt loud_eval box_constraint well_randn norm2 solve loud_opts
         0 [-0.75; 0.5] (Some [-1]) (Some [1]) = Some (Raise IndexError).
Proof.
  destruct (seed_exhausting_budget_skips_loop well_eval box_constraint
              well_randn norm2 solve tight_opts 0 [-0.75] (Some [-1])
              (Some [1]) [-0] [1] tight_seed) as (Hr & Hc & Hret & _).
  - vm_compute. reflexivity.
  - cbn. lia.
  - destruct (seed_exhausting_budget_skips_loop loud_eval box_constraint
                well_randn norm2 solve loud_opts 0 [-0.75; 0.5] (Some [-1])
                (Some [1]) [-0] [1] loud_seed) as (_ & _ & _ & Hraise).
    + vm_compute. reflexivity.
    + cbn. lia.
    + split; [exact Hr|]. split; [exact Hc|].
      split; [apply Hret; left; reflexivity|].
      apply Hraise; [cbn; discriminate|left; cbn; lia].
Defined.

(** X13, witness: the double well without constraints. *)
Lemma empty_constraints_raise_witness :
  orsopt bare_eval box_constraint well_randn norm2 solve well_opts
         20 [-0.75] (Some [-1]) (Some [1]) = Some (Raise ValueError).
Proof.
  apply (empty_constraints_raise bare_eval box_constraint well_randn norm2
           solve well_opts 20 [-0.75] (Some [-1]) (Some [1])
           [-0] [1] [-0.75]).
  - vm_compute. reflexivity.
  - reflexivity.
Defined.

(** X14, witness: two lower and three upper bounds. *)
Lemma mismatched_bounds_raise_witness :
  orsopt well_eval box_constraint well_randn norm2 solve well_opts
         20 [-0.75; 0.5] (Some [-1; -1]) (Some [1; 1; 1])
    = Some (Raise ValueError).
Proof.
  apply (mismatched_bounds_raise well_eval box_constraint well_randn norm2
           solve well_opts 20 [-0.75; 0.5] [-1; -1] [1; 1; 1]);
    cbn; lia.
Defined.

(** X15, witness: the first pass over the constant objective 1. *)
Lemma stagnant_pass_changes_nothing_witness :
  accepted flat_pass1 = accepted flat_seed_state /\
  cvg_hst flat_pass1 = cvg_hst flat_seed_state /\
  x_opt flat_pass1 = x_opt flat_seed_state /\
  f_opt flat_pass1 = f_opt flat_seed_state /\
  g_opt flat_pass1 = g_opt flat_seed_state /\
  sigma flat_pass1 = sigma flat_seed_state /\
  x1 flat_pass1 = clip (x1 flat_seed_state).
Proof.
  apply (stagnant_pass_changes_nothing (flat_eval 1) box_constraint
           (replay [1; 3]) norm2 solve (settings 5 true)
           [0.25] (Some [-1]) (Some [1]) [-0] [1]
           flat_seed_state flat_seed_state flat_pass1 (Some Feasible)).
  - vm_compute. reflexivity.
  - apply reaches_start.
  - vm_compute. reflexivity.
  - reflexivity.
Defined.

(** X16, witness: the same pass stops as feasible without an
    improvement. *)
Lemma break_follows_an_improvement_witness :
  draws flat_seed_state = 0%nat /\ Feasible = Feasible.
Proof.
  apply (break_follows_an_improvement (flat_eval 1) box_constraint
           (replay [1; 3]) norm2 solve (settings 5 true)
           [0.25] (Some [-1]) (Some [1]) [-0] [1]
           flat_seed_state flat_seed_state flat_pass1 Feasible).
  - vm_compute. reflexivity.
  - apply reaches_start.
  - vm_compute. reflexivity.
  - reflexivity.
Defined.

End FurtherRuns.
